(** * pbtxtjs: protocol-buffer text format tokenizer and parser

    A shallow embedding of [src/parser.ts], the TypeScript source, and of
    [dist/src/parser.js], a compiled build of a later revision of it,
    followed by the properties of the specification that were checked
    against them.  The two revisions share the cursor of the tokenizer and
    differ in the literal consumers, in [cUnescape] and in the parser.
    (A third, earlier build, [dist/parser.js], differs from the source in
    the string consumers only and is not embedded.)

    Layout:
    - [JS]       the ECMAScript built-ins the program calls
                 (parseInt, parseFloat, Number, BigInt, String.fromCharCode ...);
    - [Lexer]    the [Tokenizer] cursor, the same in both revisions;
    - [Schema]   schema and message as the parser sees them through protobufjs;
    - [Src]      [src/parser.ts]: literal consumers, [cUnescape], [Parser];
    - [Dist]     [dist/src/parser.js]: the same members as they are there;
    - [Fixture]  the schema of the repository's tests, to run the parser on;
    - [Position], [Cursor], [Text], [Store], [Run]
                 the notions the statements are written with;
    - the properties of the specification (C1 to C10);
    - further properties of the code (X1 to X25): the invariant of the
      cursor and the end of the tokenizer, round trips of literals and of
      integers, [cUnescape], the fields of a message, and the end of
      [parse] on every text.

    Strings are sequences of UTF-16 code units.  A method of the tokenizer
    or of the parser is a function from the cursor to an outcome: a value
    and the new cursor, or a thrown error and the cursor as it was left.
    The message under construction is passed along as the finite map of
    its own properties.  Loops and recursive descent are bounded by fuel. *)

From Stdlib Require Import ZArith NArith List String Ascii Bool Lia.
From stdpp Require Import base decidable option list gmap.

#[local] Set Warnings "-register-all".
#[local] Open Scope N_scope.

(* ================================================================== *)
(** * ECMAScript built-ins *)
(* ================================================================== *)

Module JS.

(** A JavaScript string is a sequence of UTF-16 code units. *)
Abbreviation jsstring := (list N).

(** String literals of the source, written as Rocq strings. *)
Definition js (s : string) : jsstring :=
  List.map N_of_ascii (list_ascii_of_string s).

Definition str_eqb (a b : jsstring) : bool := bool_decide (a = b).

(** ** Character classes used by the regular expressions *)

Definition in_range (lo hi c : N) : bool := (lo <=? c) && (c <=? hi).

Definition is_digit (c : N) : bool := in_range 48 57 c.          (* [0-9] *)
Definition is_octal (c : N) : bool := in_range 48 55 c.          (* [0-7] *)
Definition is_lower (c : N) : bool := in_range 97 122 c.         (* [a-z] *)
Definition is_upper (c : N) : bool := in_range 65 90 c.          (* [A-Z] *)
Definition is_alpha (c : N) : bool := is_lower c || is_upper c.
Definition is_hex (c : N) : bool :=                              (* [0-9a-fA-F] *)
  is_digit c || in_range 97 102 c || in_range 65 70 c.
Definition is_word (c : N) : bool :=                             (* \w *)
  is_alpha c || is_digit c || (c =? 95).

(** LineTerminator: LF, CR, LS, PS.  The regex atom [.] is its complement. *)
Definition is_line_terminator (c : N) : bool :=
  (c =? 10) || (c =? 13) || (c =? 0x2028) || (c =? 0x2029).

(** [\s], which is also StrWhiteSpaceChar: WhiteSpace and LineTerminator. *)
Definition is_space (c : N) : bool :=
  in_range 9 13 c || (c =? 32) || (c =? 160) || (c =? 0x1680)
  || in_range 0x2000 0x200a c || (c =? 0x2028) || (c =? 0x2029)
  || (c =? 0x202f) || (c =? 0x205f) || (c =? 0x3000) || (c =? 0xfeff).

(** ** Numbers

    A Number is kept as the decimal it was read from: [Finite s m e] stands
    for the double nearest to [(-1)^s * m * 10^e].  Integers below [2^53]
    are exact; the rounding of other decimals is left to whoever observes
    the value ([double_of_nat] below does it for integers). *)
Inductive number :=
| NaN
| Infinity (negative : bool)
| Finite (negative : bool) (mantissa : N) (exponent : Z).

#[export] Instance number_eq_dec : EqDecision number.
Proof. solve_decision. Defined.

Definition of_Z (z : Z) : number := Finite (z <? 0)%Z (Z.abs_N z) 0.

Definition isNaN (x : number) : bool :=
  match x with NaN => true | _ => false end.

(** Integers at or above [2^1024 - 2^970] round to [Infinity]. *)
Definition overflow_threshold : N := 2 ^ 1024 - 2 ^ 970.

(** The Number for the mathematical integer [(-1)^neg * m]. *)
Definition number_of_int (neg : bool) (m : N) : number :=
  if overflow_threshold <=? m then Infinity neg else Finite neg m 0.

(** Round a natural number to the nearest double, ties to even: keep 53
    significant bits. *)
Definition double_of_nat (m : N) : N :=
  let bits := N.size m in
  if bits <=? 53 then m
  else
    let k := bits - 53 in
    let q := N.shiftr m k in
    let r := N.land m (N.ones k) in
    let half := N.shiftl 1 (k - 1) in
    let q' := if (half <? r) || ((r =? half) && N.odd q) then q + 1 else q in
    N.shiftl q' k.

(** ** Digits *)

(** Value of a digit in radix up to 36. *)
Definition digit_value (c : N) : option N :=
  if is_digit c then Some (c - 48)
  else if is_lower c then Some (c - 97 + 10)
  else if is_upper c then Some (c - 65 + 10)
  else None.

Definition radix_digit (R c : N) : option N :=
  match digit_value c with
  | Some d => if d <? R then Some d else None
  | None => None
  end.

(** Longest prefix of radix-[R] digits, as digit values, and what follows. *)
Fixpoint take_digits (R : N) (s : jsstring) : list N * jsstring :=
  match s with
  | c :: s' =>
      match radix_digit R c with
      | Some d => let '(ds, rest) := take_digits R s' in (d :: ds, rest)
      | None => ([], s)
      end
  | [] => ([], [])
  end.

Definition digits_value (R : N) (ds : list N) : N :=
  fold_left (fun acc d => acc * R + d) ds 0.

(** ** Strings *)

Fixpoint trim_start (s : jsstring) : jsstring :=
  match s with
  | c :: s' => if is_space c then trim_start s' else s
  | [] => []
  end.

Definition trim_end (s : jsstring) : jsstring := rev (trim_start (rev s)).
Definition trim (s : jsstring) : jsstring := trim_end (trim_start s).

Fixpoint startsWith (p s : jsstring) : bool :=
  match p, s with
  | [], _ => true
  | a :: p', b :: s' => (a =? b) && startsWith p' s'
  | _ :: _, [] => false
  end.

Definition endsWith (p s : jsstring) : bool := startsWith (rev p) (rev s).

(** [s.slice(0, -1)] *)
Definition slice_0_m1 (s : jsstring) : jsstring := removelast s.

(** [s.substring(a, b)] for [0 <= a], [0 <= b]; JavaScript swaps the
    bounds when [a > b]. *)
Definition substring (a b : nat) (s : jsstring) : jsstring :=
  let lo := Nat.min a b in
  let hi := Nat.max a b in
  firstn (hi - lo) (skipn lo s).

(** [toLowerCase] / [toUpperCase] on the ASCII letters.  Outside ASCII the
    code unit is kept; no such unit lowers to one of the ASCII words the
    program compares against. *)
Definition lower_unit (c : N) : N := if is_upper c then c + 32 else c.
Definition upper_unit (c : N) : N := if is_lower c then c - 32 else c.
Definition toLowerCase (s : jsstring) : jsstring := List.map lower_unit s.

(** ** parseInt(string, radix) for radix 8, 10 and 16 *)

Definition strip_sign (s : jsstring) : bool * jsstring :=
  match s with
  | c :: s' =>
      if c =? 45 then (true, s')                         (* - *)
      else if c =? 43 then (false, s')                   (* + *)
      else (false, s)
  | [] => (false, s)
  end.

(** An optional leading [-] *)
Definition strip_minus (s : jsstring) : bool * jsstring :=
  match s with
  | c :: s' => if c =? 45 then (true, s') else (false, s)
  | [] => (false, s)
  end.

Definition strip_hex_prefix (s : jsstring) : jsstring :=
  match s with
  | z :: x :: s' =>
      if (z =? 48) && ((x =? 120) || (x =? 88)) then s'  (* 0x, 0X *)
      else s
  | _ => s
  end.

Definition parseInt (s : jsstring) (radix : N) : number :=
  let '(neg, s1) := strip_sign (trim_start s) in
  let s2 := if radix =? 16 then strip_hex_prefix s1 else s1 in
  match fst (take_digits radix s2) with
  | [] => NaN
  | ds => number_of_int neg (digits_value radix ds)
  end.

(** ** StrDecimalLiteral: the grammar behind parseFloat and Number *)

(** ExponentPart, taken only when it is complete: [eE][+-]?[0-9]+ *)
Definition scan_exponent (s : jsstring) : Z * jsstring :=
  match s with
  | c :: s1 =>
      if (c =? 101) || (c =? 69) then
        let '(neg, s2) := strip_sign s1 in
        match take_digits 10 s2 with
        | ([], _) => (0%Z, s)
        | (ds, rest) =>
            let e := Z.of_N (digits_value 10 ds) in
            ((if neg then - e else e)%Z, rest)
        end
      else (0%Z, s)
  | [] => (0%Z, s)
  end.

(** The longest prefix of [s] that is a StrDecimalLiteral, with its value
    and the text after it. *)
Definition scan_decimal (s : jsstring) : option (number * jsstring) :=
  let '(neg, s1) := strip_sign s in
  if startsWith (js "Infinity") s1 then Some (Infinity neg, skipn 8 s1)
  else
    let '(ip, s2) := take_digits 10 s1 in
    let '(fp, s3) :=
      match s2 with
      | dot :: s2' =>
          if dot =? 46 then                              (* . *)
            let '(fp, s3) := take_digits 10 s2' in
            match ip, fp with
            | [], [] => ([], s2)
            | _, _ => (fp, s3)
            end
          else ([], s2)
      | [] => ([], s2)
      end in
    match ip, fp with
    | [], [] => None
    | _, _ =>
        let '(e, s4) := scan_exponent s3 in
        Some (Finite neg (digits_value 10 (ip ++ fp))
                (e - Z.of_nat (List.length fp))%Z, s4)
    end.

(** A unit that can start what [parseFloat] reads: white space, a sign,
    a dot or a digit ([Infinity] apart). *)
Definition leads_number (c : N) : bool :=
  is_space c || is_digit c || (c =? 43) || (c =? 45) || (c =? 46).

Definition parseFloat (s : jsstring) : number :=
  match scan_decimal (trim_start s) with
  | Some (x, _) => x
  | None => NaN
  end.

(** NonDecimalIntegerLiteral: 0x.., 0o.., 0b.. with at least one digit and
    nothing after the digits. *)
Definition non_decimal_literal (s : jsstring) : option (option N) :=
  let all R body :=
    match take_digits R body with
    | (d :: ds, []) => Some (Some (digits_value R (d :: ds)))
    | _ => Some None
    end in
  match s with
  | z :: c :: body =>
      if negb (z =? 48) then None
      else if (c =? 120) || (c =? 88) then all 16 body
      else if (c =? 111) || (c =? 79) then all 8 body
      else if (c =? 98) || (c =? 66) then all 2 body
      else None
  | _ => None
  end.

(** [Number(string)]: StringToNumber. *)
Definition Number_of_string (s : jsstring) : number :=
  let t := trim s in
  match t with
  | [] => Finite false 0 0
  | _ =>
      match non_decimal_literal t with
      | Some (Some v) => number_of_int false v
      | Some None => NaN
      | None =>
          match scan_decimal t with
          | Some (x, []) => x
          | _ => NaN
          end
      end
  end.

(** [BigInt(string)]: StringToBigInt; [None] is the SyntaxError. *)
Definition BigInt_of_string (s : jsstring) : option Z :=
  let t := trim s in
  match t with
  | [] => Some 0%Z
  | _ =>
      match non_decimal_literal t with
      | Some (Some v) => Some (Z.of_N v)
      | Some None => None
      | None =>
          let '(neg, body) := strip_sign t in
          match take_digits 10 body with
          | (d :: ds, []) =>
              let v := Z.of_N (digits_value 10 (d :: ds)) in
              Some (if neg then - v else v)%Z
          | _ => None
          end
      end
  end.

(** [BigInt(number)]: NumberToBigInt; [None] is the RangeError raised for
    a value that is not an integer.  The integer is the one the double
    holds, so it is rounded to 53 bits.  *)
Definition BigInt_of_number (x : number) : option Z :=
  match x with
  | NaN | Infinity _ => None
  | Finite neg m e =>
      let signed v := (if neg then - Z.of_N v else Z.of_N v)%Z in
      if (0 <=? e)%Z then Some (signed (double_of_nat (m * 10 ^ Z.to_N e)))
      else
        let d := 10 ^ Z.to_N (- e) in
        if m mod d =? 0 then Some (signed (double_of_nat (m / d))) else None
  end.

(** ** String.fromCharCode and String.fromCodePoint *)

(** The integer a Number holds, when it is one. *)
Definition integer_of_number (x : number) : option Z :=
  match x with
  | Finite neg m 0 => Some (if neg then - Z.of_N m else Z.of_N m)%Z
  | _ => None
  end.

(** [String.fromCharCode(x)]: ToUint16 of the argument, NaN giving 0. *)
Definition fromCharCode (x : number) : jsstring :=
  match integer_of_number x with
  | Some z => [Z.to_N (z mod 65536)]
  | None => [0]
  end.

(** [String.fromCodePoint(x)]: a RangeError ([None]) unless [x] is an
    integer in [0, 0x10FFFF]; above the BMP a surrogate pair. *)
Definition fromCodePoint (x : number) : option jsstring :=
  match integer_of_number x with
  | Some z =>
      if ((0 <=? z) && (z <=? 0x10FFFF))%Z then
        let cp := Z.to_N z in
        if cp <=? 0xFFFF then Some [cp]
        else
          let v := cp - 0x10000 in
          Some [0xD800 + N.shiftr v 10; 0xDC00 + N.land v 0x3FF]
      else None
  | None => None
  end.

(** Decimal digits of an integer: Number::toString and BigInt::toString
    on the integers. *)
Fixpoint digits_of (fuel : nat) (n : N) (acc : jsstring) : jsstring :=
  match fuel with
  | O => acc
  | S fuel' =>
      let acc' := (48 + n mod 10) :: acc in
      if n <? 10 then acc' else digits_of fuel' (n / 10) acc'
  end.

Definition N_to_string (n : N) : jsstring :=
  digits_of (S (N.to_nat (N.size n))) n [].

Definition Z_to_string (z : Z) : jsstring :=
  if (z <? 0)%Z then 45 :: N_to_string (Z.abs_N z) else N_to_string (Z.abs_N z).

End JS.

(* ================================================================== *)
(** * The tokenizer cursor (class [Tokenizer], shared by both revisions) *)
(* ================================================================== *)

Module Lexer.
Import JS.

(** What a [throw] carries: the program's own [ParseError] (with the
    1-based position when it was built by [parseError] or
    [parseErrorPreviousToken]) or another [Error] of the runtime. *)
Inductive exn :=
| ParseError (message : jsstring) (line column : option Z)
| Error (message : jsstring).

Record Tokenizer := mkTokenizer {
  _lines : list jsstring;
  _line : Z;
  _column : Z;
  token : jsstring;
  _current_line : jsstring;
  _more_lines : bool;
  _previous_line : Z;
  _previous_column : Z
}.

Definition set_token (v : jsstring) (t : Tokenizer) : Tokenizer :=
  mkTokenizer (_lines t) (_line t) (_column t) v (_current_line t)
    (_more_lines t) (_previous_line t) (_previous_column t).

Definition set_column (c : Z) (t : Tokenizer) : Tokenizer :=
  mkTokenizer (_lines t) (_line t) c (token t) (_current_line t)
    (_more_lines t) (_previous_line t) (_previous_column t).

Definition set_previous (l c : Z) (t : Tokenizer) : Tokenizer :=
  mkTokenizer (_lines t) (_line t) (_column t) (token t) (_current_line t)
    (_more_lines t) l c.

(** ** The regular expressions, each as its match at index 0 *)

(** [_WHITESPACE_OR_COMMENT]: one or more of a white-space unit or a
    comment, the comment being a [#] and every unit up to the next line
    terminator.  Length of the greedy match at index 0, 0 when there is
    none.  [in_comment] is true inside a comment; the line terminator that
    ends it is itself white space. *)
Fixpoint ws_scan (in_comment : bool) (s : jsstring) : nat :=
  match s with
  | [] => O
  | c :: s' =>
      if in_comment then
        if is_line_terminator c then S (ws_scan false s')
        else S (ws_scan true s')
      else if is_space c then S (ws_scan false s')
      else if c =? 35 then S (ws_scan true s')           (* # *)
      else O
  end.

Definition _WHITESPACE_OR_COMMENT (s : jsstring) : nat := ws_scan false s.

Fixpoint span (p : N -> bool) (s : jsstring) : nat :=
  match s with
  | c :: s' => if p c then S (span p s') else O
  | [] => O
  end.

Definition is_ident_start (c : N) : bool := is_alpha c || (c =? 95).
(** [0-9a-zA-Z_+-] *)
Definition is_ident_part (c : N) : bool :=
  is_digit c || is_alpha c || (c =? 95) || (c =? 43) || (c =? 45).
(** [0-9a-zA-Z_.+-] *)
Definition is_number_part (c : N) : bool := is_ident_part c || (c =? 46).

Definition is_quote (c : N) : bool := (c =? 39) || (c =? 34).   (* _QUOTES *)

(** The body of a quoted string, greedy: units other than the quote [q],
    LF and backslash, or a backslash and any unit but a line terminator.
    Its length and the rest. *)
Fixpoint quoted_body (q : N) (s : jsstring) : nat * jsstring :=
  match s with
  | [] => (O, [])
  | c :: s' =>
      if c =? 92 then                                    (* backslash *)
        match s' with
        | d :: s'' =>
            if is_line_terminator d then (O, s)
            else let '(n, r) := quoted_body q s'' in (S (S n), r)
        | [] => (O, s)
        end
      else if (c =? q) || (c =? 10) then (O, s)
      else let '(n, r) := quoted_body q s' in (S n, r)
  end.

(** [_TOKEN]: the length of the match at index 0, if there is one.
    identifier | number | "string" | 'string'; a string closes on its
    quote or at the end of the line (after an optional backslash). *)
Definition _TOKEN (s : jsstring) : option nat :=
  match s with
  | [] => None
  | c :: s' =>
      if is_ident_start c then Some (S (span is_ident_part s'))
      else if is_digit c || (c =? 43) || (c =? 45) then
        Some (S (span is_number_part s'))
      else if c =? 46 then
        match s' with
        | d :: s'' =>
            if is_digit d then Some (S (S (span is_number_part s'')))
            else None
        | [] => None
        end
      else if is_quote c then
        let '(n, rest) := quoted_body c s' in
        match rest with
        | [] => Some (S n)
        | d :: rest' =>
            if d =? c then Some (S (S n))
            else if (d =? 92) && bool_decide (rest' = []) then Some (S (S n))
            else None
        end
      else None
  end.

(** [_IDENTIFIER.test(s)]: the pattern [[a-zA-Z_][0-9a-zA-Z_]*] is not
    anchored, so it is found as soon as one unit can start an identifier. *)
Definition _IDENTIFIER_test (s : jsstring) : bool := existsb is_ident_start s.

(** [/^\w+$/.test(s)] *)
Definition word_test (s : jsstring) : bool :=
  match s with [] => false | _ => forallb is_word s end.

(** ** The cursor *)

(** [_popLine]: the [while] loop, by recursion on the lines left. *)
Fixpoint _popLine_loop (lines : list jsstring) (t : Tokenizer) : Tokenizer :=
  if (List.length (_current_line t) =? 0)%nat
     || (Z.of_nat (List.length (_current_line t)) <=? _column t)%Z
  then
    match lines with
    | [] =>
        mkTokenizer [] (_line t) (_column t) (token t) [] false
          (_previous_line t) (_previous_column t)
    | l :: ls =>
        _popLine_loop ls
          (mkTokenizer ls (_line t + 1)%Z 0%Z (token t) l (_more_lines t)
             (_previous_line t) (_previous_column t))
    end
  else
    mkTokenizer lines (_line t) (_column t) (token t) (_current_line t)
      (_more_lines t) (_previous_line t) (_previous_column t).

Definition _popLine (t : Tokenizer) : Tokenizer := _popLine_loop (_lines t) t.

(** [_skipWhitespace]: one turn of the [while (true)] per unit of fuel. *)
Fixpoint _skipWhitespace_loop (fuel : nat) (t : Tokenizer) : Tokenizer :=
  match fuel with
  | O => t
  | S fuel' =>
      let t1 := _popLine t in
      if negb (_more_lines t1) then t1
      else
        let remaining_line := skipn (Z.to_nat (_column t1)) (_current_line t1) in
        match _WHITESPACE_OR_COMMENT remaining_line with
        | O => t1
        | S n =>
            _skipWhitespace_loop fuel'
              (set_column (_column t1 + Z.of_nat (S n))%Z t1)
        end
  end.

(** A turn that matches takes the white space up to the next token or to
    the end of the line, so the loop runs at most twice per line. *)
Definition _skipWhitespace (t : Tokenizer) : Tokenizer :=
  _skipWhitespace_loop (2 * List.length (_lines t) + 3) t.

Definition nextToken (t : Tokenizer) : Tokenizer :=
  let t1 := set_previous (_line t) (_column t) t in
  let t2 := set_column (_column t1 + Z.of_nat (List.length (token t1)))%Z t1 in
  let t3 := _skipWhitespace t2 in
  if negb (_more_lines t3) then set_token [] t3
  else
    let remaining_line := skipn (Z.to_nat (_column t3)) (_current_line t3) in
    match remaining_line with
    | [] => set_token [] t3
    | c :: _ =>
        match _TOKEN remaining_line with
        | Some n => set_token (firstn n remaining_line) t3
        | None => set_token [c] t3
        end
    end.

(** [new Tokenizer(lines)] *)
Definition new_Tokenizer (lines : list jsstring) : Tokenizer :=
  nextToken (_popLine (mkTokenizer lines (-1) 0 [] [] true 0 0)).

Definition atEnd (t : Tokenizer) : bool := str_eqb (token t) [].
Definition lookingAt (s : jsstring) (t : Tokenizer) : bool := str_eqb (token t) s.

Definition parseError (message : jsstring) (t : Tokenizer) : exn :=
  ParseError message (Some (_line t + 1)%Z) (Some (_column t + 1)%Z).

Definition parseErrorPreviousToken (message : jsstring) (t : Tokenizer) : exn :=
  ParseError message (Some (_previous_line t + 1)%Z)
    (Some (_previous_column t + 1)%Z).

(** ** Methods that may throw

    A method runs on the cursor and either returns a value or throws; the
    cursor is a mutable object, so it is handed on in both cases (a
    [catch] goes on with the cursor as the [throw] left it).  [OutOfFuel]
    is the bounded model of a loop giving up, not a result of the
    program.  [Unmodelled] is no result of the program either: the model
    stops there because the values of [Schema] cannot express what the
    program does next (a property assigned on an array, say), and nothing
    is concluded from it. *)
Inductive outcome (A : Type) :=
| Ok (a : A) (t : Tokenizer)
| Throw (e : exn) (t : Tokenizer)
| OutOfFuel
| Unmodelled.
Arguments Ok {A} a t.
Arguments Throw {A} e t.
Arguments OutOfFuel {A}.
Arguments Unmodelled {A}.

Definition M (A : Type) : Type := Tokenizer -> outcome A.

Definition ret {A} (a : A) : M A := fun t => Ok a t.
Definition throw {A} (e : Tokenizer -> exn) : M A := fun t => Throw (e t) t.
Definition unmodelled {A} : M A := fun _ => Unmodelled.
Definition bind {A B} (m : M A) (k : A -> M B) : M B :=
  fun t =>
    match m t with
    | Ok a t' => k a t'
    | Throw e t' => Throw e t'
    | OutOfFuel => OutOfFuel
    | Unmodelled => Unmodelled
    end.

(** [try { m } catch (e) { h e }] *)
Definition try_catch {A} (m : M A) (h : exn -> M A) : M A :=
  fun t =>
    match m t with
    | Throw e t' => h e t'
    | r => r
    end.

Definition get_token : M jsstring := fun t => Ok (token t) t.
Definition advance : M unit := fun t => Ok tt (nextToken t).

Declare Scope js_scope.
Delimit Scope js_scope with js.
Notation "'let*' x ':=' m 'in' k" := (bind m (fun x => k))
  (at level 10, x name, m at level 100, k at level 200) : js_scope.
Notation "'do' m 'in' k" := (bind m (fun _ => k))
  (at level 10, m at level 100, k at level 200) : js_scope.
#[local] Open Scope js_scope.

Definition tryConsume (s : jsstring) : M bool :=
  let* tok := get_token in
  if str_eqb tok s then do advance in ret true else ret false.

Definition consume (s : jsstring) : M unit :=
  let* b := tryConsume s in
  if b then ret tt
  else throw (parseError (js "Expected " ++ [34] ++ s ++ [34] ++ js ".")).

Definition consumeIdentifier : M jsstring :=
  let* result := get_token in
  if negb (_IDENTIFIER_test result) then
    throw (parseError (js "Expected identifier."))
  else do advance in ret result.

Definition consumeIdentifierOrNumber : M jsstring :=
  let* result := get_token in
  if negb (word_test result) then
    throw (parseError (js "Expected identifier or number, got " ++ result ++ js "."))
  else do advance in ret result.

End Lexer.


(* ================================================================== *)
(** * The schema and the message *)
(* ================================================================== *)

Module Schema.
Import JS Lexer.

(** ** The schema and the message, as protobufjs presents them

    The parser reads the schema through a handful of members of
    protobufjs objects; they are the fields of the records below. *)

Record Enum := mkEnum {
  enum_name : jsstring;
  values : list (jsstring * Z)                            (* values, by name *)
}.

(** [field.resolvedType]: a message type (by its full name) or an enum. *)
Inductive ReflectionObject :=
| ResolvedType (type_name type_fullName : jsstring)
| ResolvedEnum (e : Enum).

Record Field := mkField {
  name : jsstring;
  field_id : Z;
  type : jsstring;
  repeated : bool;
  field_map : bool;
  keyType : jsstring;
  resolvedType : option ReflectionObject;
  parent : jsstring                    (* full name of the declaring type *)
}.

Record MessageType := mkType {
  type_simple_name : jsstring;
  fullName : jsstring;
  fieldsArray : list Field
}.

(** [type.fields[key]] and [type.fieldsById[id]] *)
Definition fields (ty : MessageType) (key : jsstring) : option Field :=
  List.find (fun f => str_eqb (name f) key) (fieldsArray ty).

Definition fieldsById (ty : MessageType) (n : number) : option Field :=
  match n with
  | Finite false m 0 => List.find (fun f => (field_id f =? Z.of_N m)%Z) (fieldsArray ty)
  | _ => None
  end.

(** What [parseScalar] returns. *)
Inductive scalar :=
| SNumber (x : number)
| SBigInt (z : Z)
| SBool (b : bool)
| SString (s : jsstring)
| SBytes (b : list N).

(** A value stored on a message.  A message is the record of its own
    properties; a property that is absent reads [undefined] (protobufjs
    keeps the defaults of singular fields on the prototype: they are
    falsy, and the parser only tests them for truth).  A plain object
    used as a map is the finite map of its own properties; what it
    inherits from [Object.prototype] matters to an assignment for the one
    key that has a setter there, [__proto__] ([assign] below). *)
Inductive value :=
| VUndefined
| VScalar (s : scalar)
| VArray (l : list value)
| VObject (entries : gmap jsstring value)
| VMessage (ty : MessageType) (props : gmap jsstring value).

Abbreviation properties := (gmap jsstring value).

Definition get (props : properties) (key : jsstring) : value :=
  match props !! key with Some v => v | None => VUndefined end.

(** ToBoolean *)
Definition truthy (v : value) : bool :=
  match v with
  | VUndefined => false
  | VScalar (SNumber NaN) => false
  | VScalar (SNumber (Finite _ 0 _)) => false
  | VScalar (SNumber _) => true
  | VScalar (SBigInt z) => negb (z =? 0)%Z
  | VScalar (SBool b) => b
  | VScalar (SString s) => negb (str_eqb s [])
  | VScalar (SBytes _) => true
  | VArray _ | VObject _ | VMessage _ _ => true
  end.

(** A value that is not an object.  A [Uint8Array] is one. *)
Definition is_primitive (v : value) : bool :=
  match v with
  | VUndefined => true
  | VScalar (SBytes _) => false
  | VScalar _ => true
  | VArray _ | VObject _ | VMessage _ _ => false
  end.

(** [obj[k] = v] on an ordinary object whose own properties are [own],
    all of them plain data properties, and whose prototype chain has no
    accessor but the [__proto__] of [Object.prototype] (a plain object; a
    message of a type without oneofs).  An own property is written, a new
    one is created, except that for [k = "__proto__"], when the object has
    no own property of that name, the inherited setter runs instead: it
    ignores a primitive [v], and no own property is created.  For an
    object [v] it replaces the prototype of [obj], which is not followed:
    [None]. *)
Definition assign (own : gmap jsstring value) (k : jsstring) (v : value)
    : option (gmap jsstring value) :=
  match own !! k with
  | Some _ => Some (<[k := v]> own)
  | None =>
      if str_eqb k (js "__proto__") then
        if is_primitive v then Some own else None
      else Some (<[k := v]> own)
  end.

(** An entry of the descriptor pool: a field, or an object without [id]. *)
Inductive PoolObject :=
| PoolField (f : Field)
| PoolOther (object_name : jsstring).

Record ParserOptions := mkOptions {
  allowUnknownExtension : bool;
  allowFieldNumber : bool;
  descriptorPool : jsstring -> option PoolObject;
  allowUnknownField : bool
}.

(** [str.replace(/_([a-z])/g, (g) => g[1].toUpperCase())] *)
Fixpoint toCamelCase (str : jsstring) : jsstring :=
  match str with
  | [] => []
  | c :: rest =>
      if c =? 95 then
        match rest with
        | d :: rest' =>
            if is_lower d then upper_unit d :: toCamelCase rest'
            else c :: toCamelCase rest
        | [] => [c]
        end
      else c :: toCamelCase rest
  end.

(** [str.split('_').map(part => part.charAt(0).toUpperCase()
      + part.slice(1)).join('')]; [up] is true at the start of a part.
    [toUpperCase] is applied to ASCII letters only. *)
Fixpoint toPascalCase_from (up : bool) (str : jsstring) : jsstring :=
  match str with
  | [] => []
  | c :: rest =>
      if c =? 95 then toPascalCase_from true rest
      else (if up then upper_unit c else c) :: toPascalCase_from false rest
  end.

Definition toPascalCase (str : jsstring) : jsstring := toPascalCase_from true str.

(** [text.split('\n')] *)
Fixpoint split_lines (text : jsstring) (line : jsstring) : list jsstring :=
  match text with
  | [] => [line]
  | c :: text' =>
      if c =? 10 then line :: split_lines text' []
      else split_lines text' (line ++ [c])
  end.

(** [/^\d+$/] and [/^-?\d+$/] *)
Definition all_digits (s : jsstring) : bool :=
  match s with [] => false | _ => forallb is_digit s end.

Definition signed_digits (s : jsstring) : bool :=
  all_digits (snd (strip_minus s)).

Definition quoted (s : jsstring) : jsstring := [34] ++ s ++ [34].

(** The property key of a map entry: ToPropertyKey of the parsed key,
    [None] being a key that was never assigned. *)
Definition bytes_to_string (b : list N) : jsstring :=
  match b with
  | [] => []
  | x :: rest =>
      fold_left (fun acc y => acc ++ [44] ++ N_to_string y) rest (N_to_string x)
  end.

Definition to_property_key (Number_toString : number -> jsstring)
    (key : option scalar) : jsstring :=
  match key with
  | None => js "undefined"
  | Some (SNumber x) => Number_toString x
  | Some (SBigInt z) => Z_to_string z
  | Some (SBool b) => if b then js "true" else js "false"
  | Some (SString s) => s
  | Some (SBytes b) => bytes_to_string b
  end.

End Schema.

(* ================================================================== *)
(** * [src/parser.ts] *)
(* ================================================================== *)

Module Src.
Import JS Lexer Schema.
#[local] Open Scope js_scope.

(** ** Literal consumers of [Tokenizer] *)

Definition consumeInt32 : M number :=
  let* int_str := get_token in
  do advance in
  let value := parseInt int_str 10 in
  if isNaN value then
    throw (parseErrorPreviousToken (js "Couldn't parse integer: " ++ int_str))
  else
    (* TODO: Add range check for int32 *)
    ret value.

Definition consumeUint32 : M number :=
  let* int_str := get_token in
  do advance in
  let value := parseInt int_str 10 in
  if isNaN value then
    throw (parseErrorPreviousToken (js "Couldn't parse integer: " ++ int_str))
  else
    (* TODO: Add range check for uint32 *)
    ret value.

Definition consumeInt64 : M Z :=
  let* int_str := get_token in
  do advance in
  match BigInt_of_string int_str with
  | Some v => ret v
  | None =>
      throw (parseErrorPreviousToken (js "Couldn't parse integer: " ++ int_str))
  end.

Definition consumeUint64 : M Z :=
  let* int_str := get_token in
  do advance in
  match BigInt_of_string int_str with
  | Some v => ret v
  | None =>
      throw (parseErrorPreviousToken (js "Couldn't parse integer: " ++ int_str))
  end.

Definition consumeFloat : M number :=
  let* float_str := get_token in
  do advance in
  if endsWith (js "f") float_str then ret (parseFloat (slice_0_m1 float_str))
  else ret (parseFloat float_str).

Definition consumeBool : M bool :=
  let* bool_str := get_token in
  do advance in
  if str_eqb bool_str (js "true") || str_eqb bool_str (js "t")
     || str_eqb bool_str (js "1") then ret true
  else if str_eqb bool_str (js "false") || str_eqb bool_str (js "f")
          || str_eqb bool_str (js "0") then ret false
  else
    throw (parseErrorPreviousToken
             (js "Expected " ++ [34] ++ js "true" ++ [34] ++ js " or " ++ [34]
              ++ js "false" ++ [34] ++ js ", found " ++ [34] ++ bool_str ++ [34])).

(** ** [cUnescape] *)

(** [acc += source[i]]: an index past the end reads [undefined], which the
    concatenation spells out. *)
Definition append_at (acc source : jsstring) (i : nat) : jsstring :=
  match nth_error source i with
  | Some c => acc ++ [c]
  | None => acc ++ js "undefined"
  end.

(** [for (j = 0; j < n && i < source.length && p(source[i]); i++, j++)
      acc += source[i]] *)
Fixpoint collect_while (n : nat) (p : N -> bool) (source : jsstring)
    (i : nat) (acc : jsstring) : jsstring * nat :=
  match n with
  | O => (acc, i)
  | S n' =>
      match nth_error source i with
      | Some c =>
          if p c then collect_while n' p source (S i) (acc ++ [c])
          else (acc, i)
      | None => (acc, i)
      end
  end.

(** [for (j = 0; j < n; i++, j++) acc += source[i]] *)
Fixpoint collect_n (n : nat) (source : jsstring) (i : nat) (acc : jsstring)
    : jsstring * nat :=
  match n with
  | O => (acc, i)
  | S n' => collect_n n' source (S i) (append_at acc source i)
  end.

(** The simple single-character escapes of the [switch]:
    a b f n r t v ? \ ' and the double quote. *)
Definition simple_escape (d : N) : option N :=
  if d =? 97 then Some 7
  else if d =? 98 then Some 8
  else if d =? 102 then Some 12
  else if d =? 110 then Some 10
  else if d =? 114 then Some 13
  else if d =? 116 then Some 9
  else if d =? 118 then Some 11
  else if d =? 63 then Some 63
  else if d =? 92 then Some 92
  else if d =? 39 then Some 39
  else if d =? 34 then Some 34
  else None.

(** The text of the RangeError of [String.fromCodePoint] (the runtime
    appends the offending value). *)
Definition invalid_code_point : jsstring := js "Invalid code point".

(** The [while (i < source.length)] loop; [inr] is a thrown [Error] with
    its message.  Every turn moves [i] forward, so [length source] units of
    fuel see the loop to its end. *)
Fixpoint cUnescape_loop (fuel : nat) (source : jsstring) (i : nat)
    (result : jsstring) : jsstring + jsstring :=
  match fuel with
  | O => inl result
  | S fuel' =>
      match nth_error source i with
      | None => inl result
      | Some c =>
          if c =? 92 then
            let i := S i in
            match nth_error source i with
            | None => cUnescape_loop fuel' source i (result ++ js "undefined")
            | Some d =>
                match simple_escape d with
                | Some e =>
                    (* Simple single-character escapes *)
                    cUnescape_loop fuel' source i (result ++ [e])
                | None =>
                    if is_octal d then
                      let '(octal, i) := collect_while 3 is_octal source i [] in
                      cUnescape_loop fuel' source i
                        (result ++ fromCharCode (parseInt octal 8))
                    else if d =? 120 then                (* x *)
                      let i := S i in
                      let '(hex, i) := collect_while 2 is_hex source i [] in
                      cUnescape_loop fuel' source i
                        (result ++ fromCharCode (parseInt hex 16))
                    else if d =? 117 then                (* u *)
                      let i := S i in
                      let '(unicode, i) := collect_n 4 source i [] in
                      cUnescape_loop fuel' source i
                        (result ++ fromCharCode (parseInt unicode 16))
                    else if d =? 85 then                 (* U *)
                      let i := S i in
                      let isFourByte :=
                        str_eqb (firstn 4 (skipn i source)) (js "0010") in
                      let numDigits := if isFourByte then 4%nat else 5%nat in
                      let i := if isFourByte then (i + 4)%nat else (i + 3)%nat in
                      let '(unicode, i) := collect_n numDigits source i [] in
                      match fromCodePoint (parseInt unicode 16) with
                      | Some s => cUnescape_loop fuel' source i (result ++ s)
                      | None => inr invalid_code_point
                      end
                    else cUnescape_loop fuel' source i (result ++ [d])
                end
            end
          else cUnescape_loop fuel' source (S i) (result ++ [c])
      end
  end.

Definition cUnescape (source : jsstring) : jsstring + jsstring :=
  cUnescape_loop (List.length source) source 0 [].

(** ** String consumers *)

Definition _consumeByteString : M jsstring :=
  let* text := get_token in
  match text with
  | [] => throw (parseError (js "Expected string but found: " ++ text))
  | q :: _ =>
      if negb (is_quote q) then
        throw (parseError (js "Expected string but found: " ++ text))
      else if (List.length text <? 2)%nat
              || negb (bool_decide (last text = Some q)) then
        throw (parseError (js "String missing ending quote: " ++ text))
      else
        match cUnescape (substring 1 (List.length text - 1) text) with
        | inl result => do advance in ret result
        | inr message => throw (parseError message)
        end
  end.

Definition starts_quoted (tok : jsstring) : bool :=
  match tok with c :: _ => is_quote c | [] => false end.

(** [while (this.token && _QUOTES.has(this.token[0]))
      result += this._consumeByteString();] *)
Fixpoint consumeString_loop (fuel : nat) (result : jsstring) : M jsstring :=
  match fuel with
  | O => fun _ => OutOfFuel
  | S fuel' =>
      let* tok := get_token in
      if starts_quoted tok then
        let* part := _consumeByteString in
        consumeString_loop fuel' (result ++ part)
      else ret result
  end.

Definition consumeString (fuel : nat) : M jsstring :=
  let* result := _consumeByteString in
  consumeString_loop fuel result.

(** [dest[i] = text.charCodeAt(i)] into a [Uint8Array]: each code unit
    modulo 256. *)
Definition to_Uint8Array (text : jsstring) : list N :=
  List.map (fun c => c mod 256) text.

Definition consumeByteString : M (list N) :=
  let* text := _consumeByteString in
  ret (to_Uint8Array text).

(** ** class [Parser] *)

Section Parser.

(** The constructor's options. *)
Variable options : ParserOptions.
(** [root.lookupType(name)]; [None] when it throws. *)
Variable lookupType : jsstring -> option MessageType.
(** [type.create()]: the own properties of a fresh message. *)
Variable create : MessageType -> properties.
(** Number::toString of the runtime, used for numeric map keys. *)
Variable Number_toString : number -> jsstring.

Definition TypeError {A} (what : jsstring) : M A :=
  throw (fun _ => Error (js "TypeError: " ++ what)).

(** [parseScalar]; [fuel] bounds the run of adjacent string literals. *)
Definition parseScalar (fuel : nat) (type : jsstring) : M scalar :=
  if str_eqb type (js "double") || str_eqb type (js "float") then
    let* x := consumeFloat in ret (SNumber x)
  else if str_eqb type (js "int32") || str_eqb type (js "sint32")
          || str_eqb type (js "sfixed32") then
    let* x := consumeInt32 in ret (SNumber x)
  else if str_eqb type (js "uint32") || str_eqb type (js "fixed32") then
    let* x := consumeUint32 in ret (SNumber x)
  else if str_eqb type (js "int64") || str_eqb type (js "sint64")
          || str_eqb type (js "sfixed64") then
    let* x := consumeInt64 in ret (SBigInt x)
  else if str_eqb type (js "uint64") || str_eqb type (js "fixed64") then
    let* x := consumeUint64 in ret (SBigInt x)
  else if str_eqb type (js "bool") then
    let* x := consumeBool in ret (SBool x)
  else if str_eqb type (js "string") then
    let* x := consumeString fuel in ret (SString x)
  else if str_eqb type (js "bytes") then
    let* x := consumeByteString in ret (SBytes x)
  else throw (parseError (js "Unknown scalar type: " ++ type)).

Definition parseEnum (enumType : Enum) (value : jsstring) : M number :=
  (* try as number first *)
  if signed_digits value then ret (parseInt value 10)
  else
    (* try as string *)
    match List.find (fun kv => str_eqb (fst kv) value) (values enumType) with
    | Some (_, enumValue) => ret (of_Z enumValue)
    | None =>
        throw (fun _ =>
          ParseError (js "Enum type " ++ quoted (enum_name enumType)
                      ++ js " has no value named " ++ value ++ js ".")
            None None)
    end.

(** [if (!Array.isArray(message[name])) message[name] = [];
     message[name].push(value);] *)
Definition push (message : properties) (key : jsstring) (v : value)
    : properties :=
  match get message key with
  | VArray l => <[key := VArray (l ++ [v])]> message
  | _ => <[key := VArray [v]]> message
  end.

Definition mergeScalarField (fuel : nat) (message : properties) (field : Field)
    : M properties :=
  let* value :=
    match resolvedType field with
    | Some (ResolvedEnum enumType) =>
        let* enumValueStr := consumeIdentifierOrNumber in
        let* x := parseEnum enumType enumValueStr in
        ret (SNumber x)
    | _ => parseScalar fuel (type field)
    end in
  if repeated field then ret (push message (name field) (VScalar value))
  else ret (<[name field := VScalar value]> message).

(** [tokenizer.tryConsume('<') ? '>' : (tokenizer.consume('{'), '}')] *)
Definition open_delimiter : M jsstring :=
  let* angle := tryConsume (js "<") in
  if angle then ret (js ">")
  else do consume (js "{") in ret (js "}").

(** [if (!message[name]) message[name] = {};
     message[name][key] = value;]
    What the assignment does depends on what the property holds.  A plain
    object, or the message of a type without oneofs, is assigned to as
    [assign] says.  A falsy value is replaced by an empty object first.  A
    truthy primitive makes the assignment a TypeError (module code is
    strict), but for the key [__proto__], whose inherited setter returns
    without doing anything.  An array and a [Uint8Array] treat index keys
    and [length] in ways of their own and take any other key as a named
    property, which the values here do not carry: the model stops. *)
Definition set_entry (message : properties) (field_name : jsstring)
    (key : option scalar) (v : value) : M properties :=
  let k := to_property_key Number_toString key in
  match get message field_name with
  | VObject entries =>
      match assign entries k v with
      | Some entries' => ret (<[field_name := VObject entries']> message)
      | None => unmodelled
      end
  | VMessage ty props =>
      match assign props k v with
      | Some props' => ret (<[field_name := VMessage ty props']> message)
      | None => unmodelled
      end
  | VArray _ | VScalar (SBytes _) => unmodelled
  | other =>
      if truthy other then
        if str_eqb k (js "__proto__") then ret message
        else TypeError (js "cannot create property")
      else
        match assign ∅ k v with
        | Some entries' => ret (<[field_name := VObject entries']> message)
        | None => unmodelled
        end
  end.

(** The short format of a repeated scalar:
    [while (true) { mergeScalarField; if (tryConsume(']')) break;
                    consume(','); }] *)
Fixpoint scalar_list_loop (fuel : nat) (message : properties) (field : Field)
    : M properties :=
  match fuel with
  | O => fun _ => OutOfFuel
  | S fuel' =>
      let* message := mergeScalarField fuel' message field in
      let* close := tryConsume (js "]") in
      if close then ret message
      else do consume (js ",") in scalar_list_loop fuel' message field
  end.

(** [while (tokenizer.tryConsume('.')) name += '.' + consumeIdentifier()] *)
Fixpoint extension_name_loop (fuel : nat) (name : jsstring) : M jsstring :=
  match fuel with
  | O => fun _ => OutOfFuel
  | S fuel' =>
      let* dot := tryConsume (js ".") in
      if dot then
        let* part := consumeIdentifier in
        extension_name_loop fuel' (name ++ js "." ++ part)
      else ret name
  end.

(** An object of the pool that is not a field, read as one: it has none of
    the members the parser asks for. *)
Definition as_field (o : PoolObject) : Field :=
  match o with
  | PoolField f => f
  | PoolOther n => mkField n 0 (js "undefined") false false (js "undefined") None []
  end.

(** Field-name resolution, the first half of [mergeField]: the field, if
    one was found, and the name as written. *)
Definition resolve_field (fuel : nat) (messageDescriptor : MessageType)
    : M (option Field * jsstring) :=
  let* bracket := tryConsume (js "[") in
  if bracket then
    (* Extension *)
    let* first := consumeIdentifier in
    let* name := extension_name_loop fuel first in
    do consume (js "]") in
    match descriptorPool options name with
    | Some (PoolField field) =>
        if negb (str_eqb (parent field) (fullName messageDescriptor)) then
          throw (parseErrorPreviousToken
                   (js "Extension " ++ quoted name
                    ++ js " does not extend message type "
                    ++ quoted (fullName messageDescriptor) ++ js "."))
        else ret (Some field, name)
    | other =>
        if negb (allowUnknownExtension options) then
          throw (parseErrorPreviousToken
                   (js "Extension " ++ quoted name ++ js " not found."))
        else ret (option_map as_field other, name)
    end
  else
    let* name := consumeIdentifierOrNumber in
    if allowFieldNumber options && all_digits name then
      ret (fieldsById messageDescriptor (parseInt name 10), name)
    else
      match fields messageDescriptor (toCamelCase name) with
      | Some field => ret (Some field, name)
      | None =>
          match fields messageDescriptor (toLowerCase name) with
          | Some fieldByLower =>
              match resolvedType fieldByLower with
              | Some (ResolvedType n _) =>
                  if str_eqb n name then ret (Some fieldByLower, name)
                  else ret (None, name)
              | Some (ResolvedEnum e) =>
                  if str_eqb (enum_name e) name then ret (Some fieldByLower, name)
                  else ret (None, name)
              | None => ret (None, name)
              end
          | None => ret (None, name)
          end
      end.

(** [(field.resolvedType as protobuf.Type).create()] *)
Definition create_resolved (field : Field) : M value :=
  match resolvedType field with
  | Some (ResolvedType _ full) =>
      match lookupType full with
      | Some ty => ret (VMessage ty (create ty))
      | None => TypeError (js "no such type")
      end
  | Some (ResolvedEnum _) => TypeError (js "create is not a function")
  | None => TypeError (js "cannot read properties of null")
  end.

(** [skipField] and its [while (!tokenizer.tryConsume(endToken))] loop *)
Fixpoint skipField (fuel : nat) : M unit :=
  match fuel with
  | O => fun _ => OutOfFuel
  | S fuel' =>
      let* colon := tryConsume (js ":") in
      if colon then
        (* Scalar value *)
        let* _ := consumeIdentifierOrNumber in ret tt
      else
        (* Message value *)
        let* endToken := open_delimiter in
        skipField_body fuel' endToken
  end
with skipField_body (fuel : nat) (endToken : jsstring) : M unit :=
  match fuel with
  | O => fun _ => OutOfFuel
  | S fuel' =>
      let* close := tryConsume endToken in
      if close then ret tt
      else
        let* tok := get_token in
        if str_eqb tok [] then
          throw (parseError (js "Expected " ++ quoted endToken))
        else do skipField fuel' in skipField_body fuel' endToken
  end.

(** [subMessage['key']] as the key of an entry: a scalar or [undefined]. *)
Definition key_of_value (v : value) : option (option scalar) :=
  match v with
  | VUndefined => Some None
  | VScalar s => Some (Some s)
  | _ => None
  end.

(** [mergeField], [mergeMessageField], [mergeMapField] and their loops.
    One unit of fuel is spent per call and per turn of a loop.

    A sub-message is mutated in place by the source; here its properties
    are threaded through the body and stored back, which is the same
    message once the body has been read. *)
Fixpoint mergeField (fuel : nat) (messageDescriptor : MessageType)
    (message : properties) : M properties :=
  match fuel with
  | O => fun _ => OutOfFuel
  | S fuel' =>
      let* found := resolve_field fuel' messageDescriptor in
      match found with
      | (None, fieldName) =>
          if allowUnknownField options then
            do skipField fuel' in ret message
          else
            throw (parseErrorPreviousToken
                     (js "Message type " ++ quoted (fullName messageDescriptor)
                      ++ js " has no field named " ++ quoted fieldName ++ js "."))
      | (Some field, _) =>
          let* message :=
            if field_map field then mergeMapField fuel' message field
            else
              match resolvedType field with
              | Some (ResolvedEnum _) =>
                  (* Enum *)
                  do consume (js ":") in
                  mergeScalarField fuel' message field
              | Some (ResolvedType _ _) =>
                  (* Message *)
                  let* _ := tryConsume (js ":") in
                  mergeMessageField fuel' message field false
              | None =>
                  (* Scalar *)
                  do consume (js ":") in
                  let* list :=
                    if repeated field then tryConsume (js "[") else ret false in
                  if list then
                    (* short format for repeated fields *)
                    let* empty := tryConsume (js "]") in
                    if empty then ret message
                    else scalar_list_loop fuel' message field
                  else mergeScalarField fuel' message field
              end in
          (* consume optional separator *)
          let* _ := tryConsume (js ",") in
          ret message
      end
  end

with mergeMessageField (fuel : nat) (message : properties) (field : Field)
    (isMapEntry : bool) : M properties :=
  match fuel with
  | O => fun _ => OutOfFuel
  | S fuel' =>
      let* endToken := open_delimiter in
      let* subMessage :=
        if isMapEntry then
          match lookupType (toPascalCase (name field) ++ js "Entry") with
          | Some ty => ret (VMessage ty (create ty))
          | None => TypeError (js "no such type")
          end
        else if repeated field then create_resolved field
        else
          let existing := get message (name field) in
          if truthy existing then ret existing else create_resolved field in
      match subMessage with
      | VMessage ty props =>
          let* props := message_body fuel' endToken ty props in
          if isMapEntry then
            match key_of_value (get props (js "key")) with
            | Some key => set_entry message (name field) key (get props (js "value"))
            | None => TypeError (js "key is not a scalar")
            end
          else if repeated field then
            ret (push message (name field) (VMessage ty props))
          else ret (<[name field := VMessage ty props]> message)
      | other =>
          (* a value that is not a message sits under the field's name:
             an empty body leaves it there, anything else reads members
             of [undefined] *)
          let* close := tryConsume endToken in
          if close then ret (<[name field := other]> message)
          else
            let* tok := get_token in
            if str_eqb tok [] then
              throw (parseError (js "Expected " ++ quoted endToken))
            else TypeError (js "cannot read properties of undefined")
      end
  end

(** [while (!tokenizer.tryConsume(endToken)) { ... mergeField ... }] *)
with message_body (fuel : nat) (endToken : jsstring) (ty : MessageType)
    (props : properties) : M properties :=
  match fuel with
  | O => fun _ => OutOfFuel
  | S fuel' =>
      let* close := tryConsume endToken in
      if close then ret props
      else
        let* tok := get_token in
        if str_eqb tok [] then
          throw (parseError (js "Expected " ++ quoted endToken))
        else
          let* props := mergeField fuel' ty props in
          message_body fuel' endToken ty props
  end

with mergeMapField (fuel : nat) (message : properties) (field : Field)
    : M properties :=
  match fuel with
  | O => fun _ => OutOfFuel
  | S fuel' =>
      let* _ := tryConsume (js ":") in
      let* endToken := open_delimiter in
      (* Maps can be empty *)
      let* empty := tryConsume endToken in
      if empty then ret message
      else
        let* entry := map_entry_loop fuel' field endToken None VUndefined in
        set_entry message (name field) (fst entry) (snd entry)
  end

(** The [while (true)] of [mergeMapField]; [key] and [val] are the local
    variables [key] and [value], [undefined] until assigned. *)
with map_entry_loop (fuel : nat) (field : Field) (endToken : jsstring)
    (key : option scalar) (val : value) : M (option scalar * value) :=
  match fuel with
  | O => fun _ => OutOfFuel
  | S fuel' =>
      let* name := consumeIdentifier in
      do consume (js ":") in
      let* entry :=
        if str_eqb name (js "key") then
          let* k := parseScalar fuel' (keyType field) in
          ret (Some k, val)
        else if str_eqb name (js "value") then
          let valueType := type field in
          let* v :=
            try_catch
              (match lookupType valueType with
               | None => throw (fun _ => Error (js "no such type"))
               | Some resolvedValueType =>
                   let subMessage := create resolvedValueType in
                   (* Create a dummy field for the recursive call *)
                   let dummyField :=
                     mkField (js "value") 2 valueType false false
                       (js "undefined") None (fullName resolvedValueType) in
                   let* subMessage :=
                     mergeMessageField fuel' subMessage dummyField false in
                   ret (VMessage resolvedValueType subMessage)
               end)
              (fun _ =>
                 let* s := parseScalar fuel' valueType in
                 ret (VScalar s)) in
          ret (key, v)
        else
          throw (parseError (js "Unexpected field in map entry: " ++ name)) in
      let* _ := tryConsume (js ",") in
      let* close := tryConsume endToken in
      if close then ret entry
      else map_entry_loop fuel' field endToken (fst entry) (snd entry)
  end.

(** [while (!tokenizer.atEnd()) this.mergeField(tokenizer, message)] *)
Fixpoint parseLines_loop (fuel : nat) (ty : MessageType) (message : properties)
    : M properties :=
  match fuel with
  | O => fun _ => OutOfFuel
  | S fuel' =>
      let* tok := get_token in
      if str_eqb tok [] then ret message
      else
        let* message := mergeField fuel' ty message in
        parseLines_loop fuel' ty message
  end.

Definition parseLines (fuel : nat) (lines : list jsstring) (ty : MessageType)
    (message : properties) : outcome properties :=
  parseLines_loop fuel ty message (new_Tokenizer lines).

(** [parse(text, message)], the message being given by its type and its
    own properties.  The fuel is four units per unit of text; the
    properties of the methods above are stated for any fuel. *)
Definition parse (text : jsstring) (ty : MessageType) (message : properties)
    : outcome properties :=
  parseLines (4 * List.length text + 8) (split_lines text []) ty message.

End Parser.

End Src.

(* ================================================================== *)
(** * [dist/src/parser.js], where it differs from [src/parser.ts] *)
(* ================================================================== *)

Module Dist.
Import JS Lexer Schema.
#[local] Open Scope js_scope.

(** ** Literal consumers of [Tokenizer] *)

(** The [constructor] argument of [parseInteger]: [Number] or [BigInt],
    applied to a string or to a Number ([None] when it throws), and the
    test [typeof result === 'number' && isNaN(result)]. *)
Record Constructor (A : Type) := mkConstructor {
  of_string : jsstring -> option A;
  of_number : number -> option A;
  is_NaN : A -> bool
}.
Arguments of_string {A} _ _.
Arguments of_number {A} _ _.
Arguments is_NaN {A} _ _.

Definition Number : Constructor number :=
  mkConstructor number (fun s => Some (Number_of_string s)) Some isNaN.

Definition BigInt : Constructor Z :=
  mkConstructor Z BigInt_of_string BigInt_of_number (fun _ => false).

(** [/^-?0[0-7]+$/] *)
Definition c_octal_test (text : jsstring) : bool :=
  match snd (strip_minus text) with
  | z :: d :: ds => (z =? 48) && forallb is_octal (d :: ds)
  | _ => false
  end.

(** [Tokenizer.parseInteger]; [None] is its
    [throw new Error(`Couldn't parse integer: ...`)]. *)
Definition parseInteger {A} (text : jsstring) (constructor : Constructor A)
    : option A :=
  let result :=
    if startsWith (js "0x") text || startsWith (js "0X") text then
      (* Hexadecimal: 0x2A, 0X2A *)
      of_string constructor text
    else if startsWith (js "-0x") text || startsWith (js "-0X") text then
      (* Negative hexadecimal: -0x2A, -0X2A *)
      let hexValue := parseInt text 16 in
      of_number constructor hexValue
    else if c_octal_test text then
      (* C-style octal: 052, -052 *)
      let octalValue := parseInt text 8 in
      of_number constructor octalValue
    else
      (* Decimal: 42, -42 *)
      of_string constructor text in
  match result with
  | Some r => if is_NaN constructor r then None else Some r
  | None => None
  end.

Definition consume_integer {A} (constructor : Constructor A) : M A :=
  let* int_str := get_token in
  do advance in
  match parseInteger int_str constructor with
  | Some value => ret value
  | None =>
      throw (parseErrorPreviousToken (js "Couldn't parse integer: " ++ int_str))
  end.

Definition consumeInt32 : M number := consume_integer Number.
  (* TODO: Add range check for int32 *)
Definition consumeUint32 : M number := consume_integer Number.
  (* TODO: Add range check for uint32 *)
Definition consumeInt64 : M Z := consume_integer BigInt.
Definition consumeUint64 : M Z := consume_integer BigInt.

Definition consumeFloat : M number :=
  let* float_str := get_token in
  do advance in
  (* Handle special identifiers (case-insensitive) *)
  let lowerToken := toLowerCase float_str in
  if str_eqb lowerToken (js "inf") || str_eqb lowerToken (js "infinity") then
    ret (Infinity false)
  else if str_eqb lowerToken (js "-inf") || str_eqb lowerToken (js "-infinity")
  then ret (Infinity true)
  else if str_eqb lowerToken (js "nan") then ret NaN
  (* Handle regular numeric values *)
  else if endsWith (js "f") float_str then
    ret (parseFloat (slice_0_m1 float_str))
  else ret (parseFloat float_str).

Definition consumeBool : M bool :=
  let* bool_str := get_token in
  do advance in
  if str_eqb bool_str (js "true") || str_eqb bool_str (js "True")
     || str_eqb bool_str (js "t") || str_eqb bool_str (js "1") then ret true
  else if str_eqb bool_str (js "false") || str_eqb bool_str (js "False")
          || str_eqb bool_str (js "f") || str_eqb bool_str (js "0") then ret false
  else
    throw (parseErrorPreviousToken
             (js "Expected " ++ quoted (js "true") ++ js ", "
              ++ quoted (js "True") ++ js ", " ++ quoted (js "t")
              ++ js ", 1, or " ++ quoted (js "false") ++ js ", "
              ++ quoted (js "False") ++ js ", " ++ quoted (js "f")
              ++ js ", 0; found " ++ quoted bool_str)).

(** ** [cUnescape]: every simple escape now steps over its letter, and
    [\U] reads up to eight units *)
Fixpoint cUnescape_loop (fuel : nat) (source : jsstring) (i : nat)
    (result : jsstring) : jsstring + jsstring :=
  match fuel with
  | O => inl result
  | S fuel' =>
      match nth_error source i with
      | None => inl result
      | Some c =>
          if c =? 92 then
            let i := S i in
            match nth_error source i with
            | None => cUnescape_loop fuel' source i (result ++ js "undefined")
            | Some d =>
                match Src.simple_escape d with
                | Some e =>
                    (* Simple single-character escapes, each with its i++ *)
                    cUnescape_loop fuel' source (S i) (result ++ [e])
                | None =>
                    if is_octal d then
                      let '(octal, i) :=
                        Src.collect_while 3 is_octal source i [] in
                      cUnescape_loop fuel' source i
                        (result ++ fromCharCode (parseInt octal 8))
                    else if d =? 120 then                (* x *)
                      let i := S i in
                      let '(hex, i) := Src.collect_while 2 is_hex source i [] in
                      cUnescape_loop fuel' source i
                        (result ++ fromCharCode (parseInt hex 16))
                    else if d =? 117 then                (* u *)
                      let i := S i in
                      let '(unicode, i) := Src.collect_n 4 source i [] in
                      cUnescape_loop fuel' source i
                        (result ++ fromCharCode (parseInt unicode 16))
                    else if d =? 85 then                 (* U *)
                      let i := S i in
                      let '(unicode, i) :=
                        Src.collect_while 8 (fun _ => true) source i [] in
                      match fromCodePoint (parseInt unicode 16) with
                      | Some s => cUnescape_loop fuel' source i (result ++ s)
                      | None => inr Src.invalid_code_point
                      end
                    else cUnescape_loop fuel' source i (result ++ [d])
                end
            end
          else cUnescape_loop fuel' source (S i) (result ++ [c])
      end
  end.

Definition cUnescape (source : jsstring) : jsstring + jsstring :=
  cUnescape_loop (List.length source) source 0 [].

(** ** String consumers *)

Definition _consumeByteString : M jsstring :=
  let* text := get_token in
  match text with
  | [] => throw (parseError (js "Expected string but found: " ++ text))
  | q :: _ =>
      if negb (is_quote q) then
        throw (parseError (js "Expected string but found: " ++ text))
      else if (List.length text <? 2)%nat
              || negb (bool_decide (last text = Some q)) then
        throw (parseError (js "String missing ending quote: " ++ text))
      else
        match cUnescape (substring 1 (List.length text - 1) text) with
        | inl result => do advance in ret result
        | inr message => throw (parseError message)
        end
  end.

(** [while (this.token && _QUOTES.has(this.token[0]))
      result += this._consumeByteString();] *)
Fixpoint consumeString_loop (fuel : nat) (result : jsstring) : M jsstring :=
  match fuel with
  | O => fun _ => OutOfFuel
  | S fuel' =>
      let* tok := get_token in
      if Src.starts_quoted tok then
        let* part := _consumeByteString in
        consumeString_loop fuel' (result ++ part)
      else ret result
  end.

Definition consumeString (fuel : nat) : M jsstring :=
  let* result := _consumeByteString in
  consumeString_loop fuel result.

Definition consumeByteString (fuel : nat) : M (list N) :=
  let* text := _consumeByteString in
  let* text := consumeString_loop fuel text in
  ret (Src.to_Uint8Array text).

(** [/^[a-zA-Z_][0-9a-zA-Z_+-]*$/] and
    [/^([0-9+-]|(\.[0-9]))[0-9a-zA-Z_.+-]*$/] *)
Definition identifier_shape (tok : jsstring) : bool :=
  match tok with
  | c :: rest => is_ident_start c && forallb is_ident_part rest
  | [] => false
  end.

Definition number_shape (tok : jsstring) : bool :=
  match tok with
  | c :: rest =>
      if is_digit c || (c =? 43) || (c =? 45) then forallb is_number_part rest
      else if c =? 46 then
        match rest with
        | d :: rest' => is_digit d && forallb is_number_part rest'
        | [] => false
        end
      else false
  | [] => false
  end.

Definition tryConsumeAnyScalar (fuel : nat) : M bool :=
  let* token := get_token in
  if str_eqb token [] then ret false
  (* Try to consume string (starts with quote) *)
  else if Src.starts_quoted token then
    try_catch (do consumeString fuel in ret true) (fun _ => ret false)
  (* Try to consume identifier/number/bool *)
  else if identifier_shape token || number_shape token then
    do advance in ret true
  else ret false.

(** ** class [Parser] *)

Section Parser.

Variable options : ParserOptions.
Variable lookupType : jsstring -> option MessageType.
Variable create : MessageType -> properties.
Variable Number_toString : number -> jsstring.

Definition parseScalar (fuel : nat) (type : jsstring) : M scalar :=
  if str_eqb type (js "double") || str_eqb type (js "float") then
    let* x := consumeFloat in ret (SNumber x)
  else if str_eqb type (js "int32") || str_eqb type (js "sint32")
          || str_eqb type (js "sfixed32") then
    let* x := consumeInt32 in ret (SNumber x)
  else if str_eqb type (js "uint32") || str_eqb type (js "fixed32") then
    let* x := consumeUint32 in ret (SNumber x)
  else if str_eqb type (js "int64") || str_eqb type (js "sint64")
          || str_eqb type (js "sfixed64") then
    let* x := consumeInt64 in ret (SBigInt x)
  else if str_eqb type (js "uint64") || str_eqb type (js "fixed64") then
    let* x := consumeUint64 in ret (SBigInt x)
  else if str_eqb type (js "bool") then
    let* x := consumeBool in ret (SBool x)
  else if str_eqb type (js "string") then
    let* x := consumeString fuel in ret (SString x)
  else if str_eqb type (js "bytes") then
    let* x := consumeByteString fuel in ret (SBytes x)
  else throw (parseError (js "Unknown scalar type: " ++ type)).

(** [/^-?(?:0[xX][0-9a-fA-F]+|0[0-7]+|\d+)$/]: the octal alternative is
    covered by the decimal one. *)
Definition enum_number_test (s : jsstring) : bool :=
  let body := snd (strip_minus s) in
  match body with
  | z :: x :: h :: hs =>
      ((z =? 48) && ((x =? 120) || (x =? 88)) && forallb is_hex (h :: hs))
      || all_digits body
  | _ => all_digits body
  end.

Definition parseEnum (enumType : Enum) (value : jsstring) : M number :=
  let by_name :=
    match List.find (fun kv => str_eqb (fst kv) value) (values enumType) with
    | Some (_, enumValue) => ret (of_Z enumValue)
    | None =>
        throw (fun _ =>
          ParseError (js "Enum type " ++ quoted (enum_name enumType)
                      ++ js " has no value named " ++ value ++ js ".")
            None None)
    end in
  (* try as number first (decimal, hex, or octal) *)
  if enum_number_test value then
    match parseInteger value Number with
    | Some num => ret num
    | None => by_name
    end
  else by_name.

Definition mergeScalarField (fuel : nat) (message : properties) (field : Field)
    : M properties :=
  let* value :=
    match resolvedType field with
    | Some (ResolvedEnum enumType) =>
        let* tok := get_token in
        let* enumValueStr :=
          if enum_number_test tok then do advance in ret tok
          else consumeIdentifierOrNumber in
        let* x := parseEnum enumType enumValueStr in
        ret (SNumber x)
    | _ => parseScalar fuel (type field)
    end in
  if repeated field then ret (Src.push message (name field) (VScalar value))
  else ret (<[name field := VScalar value]> message).

(** [if (!Array.isArray(message[name])) message[name] = [];] *)
Definition ensure_array (message : properties) (key : jsstring) : properties :=
  match get message key with
  | VArray _ => message
  | _ => <[key := VArray []]> message
  end.

(** [parseList], [parseItem] working on the message it is handed. *)
Fixpoint parseList_loop (fuel : nat) (parseItem : properties -> M properties)
    (message : properties) : M properties :=
  match fuel with
  | O => fun _ => OutOfFuel
  | S fuel' =>
      let* message := parseItem message in
      let* close := tryConsume (js "]") in
      if close then ret message
      else do consume (js ",") in parseList_loop fuel' parseItem message
  end.

Definition parseList (fuel : nat) (parseItem : properties -> M properties)
    (message : properties) : M properties :=
  let* empty := tryConsume (js "]") in
  if empty then
    (* Empty list - don't set the field *)
    ret message
  else parseList_loop fuel parseItem message.

Definition skipFieldValue (fuel : nat) : M unit :=
  let* ok := tryConsumeAnyScalar fuel in
  if ok then ret tt
  else
    let* tok := get_token in
    throw (parseError (js "Invalid field value: " ++ tok)).

Fixpoint skipField (fuel : nat) : M unit :=
  match fuel with
  | O => fun _ => OutOfFuel
  | S fuel' =>
      (* Consume field name (including extension syntax) *)
      let* bracket := tryConsume (js "[") in
      do (if bracket then
            (* Extension field *)
            let* first := consumeIdentifier in
            let* _ := Src.extension_name_loop fuel' first in
            consume (js "]")
          else
            let* _ := consumeIdentifierOrNumber in ret tt) in
      do skipFieldContents fuel' in
      (* Optional comma or semicolon separator *)
      let* comma := tryConsume (js ",") in
      if comma then ret tt
      else let* _ := tryConsume (js ";") in ret tt
  end

with skipFieldContents (fuel : nat) : M unit :=
  match fuel with
  | O => fun _ => OutOfFuel
  | S fuel' =>
      let* colon := tryConsume (js ":") in
      let* tok := get_token in
      if colon && negb (str_eqb tok (js "{")) && negb (str_eqb tok (js "<")) then
        (* Scalar value or repeated field *)
        if str_eqb tok (js "[") then skipRepeatedFieldValue fuel'
        else skipFieldValue fuel'
      else
        (* Message value *)
        skipFieldMessage fuel'
  end

with skipFieldMessage (fuel : nat) : M unit :=
  match fuel with
  | O => fun _ => OutOfFuel
  | S fuel' =>
      let* delimiter := Src.open_delimiter in
      do skipFieldMessage_loop fuel' in
      consume delimiter
  end

(** [while (!lookingAt('>') && !lookingAt('}')) this.skipField(tokenizer)] *)
with skipFieldMessage_loop (fuel : nat) : M unit :=
  match fuel with
  | O => fun _ => OutOfFuel
  | S fuel' =>
      let* tok := get_token in
      if negb (str_eqb tok (js ">")) && negb (str_eqb tok (js "}")) then
        do skipField fuel' in skipFieldMessage_loop fuel'
      else ret tt
  end

with skipRepeatedFieldValue (fuel : nat) : M unit :=
  match fuel with
  | O => fun _ => OutOfFuel
  | S fuel' =>
      do consume (js "[") in
      let* empty := tryConsume (js "]") in
      if empty then ret tt else skipRepeatedFieldValue_loop fuel'
  end

with skipRepeatedFieldValue_loop (fuel : nat) : M unit :=
  match fuel with
  | O => fun _ => OutOfFuel
  | S fuel' =>
      let* tok := get_token in
      do (if str_eqb tok (js "<") || str_eqb tok (js "{") then
            skipFieldMessage fuel'
          else skipFieldValue fuel') in
      let* close := tryConsume (js "]") in
      if close then ret tt
      else do consume (js ",") in skipRepeatedFieldValue_loop fuel'
  end.

Fixpoint mergeField (fuel : nat) (messageDescriptor : MessageType)
    (message : properties) : M properties :=
  match fuel with
  | O => fun _ => OutOfFuel
  | S fuel' =>
      let* found := Src.resolve_field options fuel' messageDescriptor in
      match found with
      | (None, fieldName) =>
          if allowUnknownField options then
            do skipFieldContents fuel' in ret message
          else
            throw (parseErrorPreviousToken
                     (js "Message type " ++ quoted (fullName messageDescriptor)
                      ++ js " has no field named " ++ quoted fieldName ++ js "."))
      | (Some field, _) =>
          let* message :=
            if field_map field then
              let* _ := tryConsume (js ":") in
              let* list := tryConsume (js "[") in
              if list then
                (* List syntax for map fields *)
                parseList fuel'
                  (fun m => mergeMapFieldEntry fuel' m field) message
              else
                (* Single map entry *)
                mergeMapFieldEntry fuel' message field
            else
              match resolvedType field with
              | Some (ResolvedEnum _) =>
                  (* Enum *)
                  do consume (js ":") in
                  let* list :=
                    if repeated field then tryConsume (js "[") else ret false in
                  if list then
                    parseList fuel'
                      (fun m => mergeScalarField fuel' m field)
                      (ensure_array message (name field))
                  else mergeScalarField fuel' message field
              | Some (ResolvedType _ _) =>
                  (* Message *)
                  let* _ := tryConsume (js ":") in
                  let* list :=
                    if repeated field then tryConsume (js "[") else ret false in
                  if list then
                    parseList fuel'
                      (fun m => mergeMessageField fuel' m field)
                      (ensure_array message (name field))
                  else mergeMessageField fuel' message field
              | None =>
                  (* Scalar *)
                  do consume (js ":") in
                  let* list :=
                    if repeated field then tryConsume (js "[") else ret false in
                  if list then
                    parseList fuel'
                      (fun m => mergeScalarField fuel' m field)
                      (ensure_array message (name field))
                  else mergeScalarField fuel' message field
              end in
          (* consume optional separator *)
          let* _ := tryConsume (js ",") in
          ret message
      end
  end

with mergeMessageField (fuel : nat) (message : properties) (field : Field)
    : M properties :=
  match fuel with
  | O => fun _ => OutOfFuel
  | S fuel' =>
      let* endToken := Src.open_delimiter in
      let* subMessage :=
        if repeated field then Src.create_resolved lookupType create field
        else
          let existing := get message (name field) in
          if truthy existing then ret existing
          else Src.create_resolved lookupType create field in
      match subMessage with
      | VMessage ty props =>
          let* props := message_body fuel' endToken ty props in
          if repeated field then
            ret (Src.push message (name field) (VMessage ty props))
          else ret (<[name field := VMessage ty props]> message)
      | other =>
          let* close := tryConsume endToken in
          if close then ret (<[name field := other]> message)
          else
            let* tok := get_token in
            if str_eqb tok [] then
              throw (parseError (js "Expected " ++ quoted endToken))
            else Src.TypeError (js "cannot read properties of undefined")
      end
  end

with message_body (fuel : nat) (endToken : jsstring) (ty : MessageType)
    (props : properties) : M properties :=
  match fuel with
  | O => fun _ => OutOfFuel
  | S fuel' =>
      let* close := tryConsume endToken in
      if close then ret props
      else
        let* tok := get_token in
        if str_eqb tok [] then
          throw (parseError (js "Expected " ++ quoted endToken))
        else
          let* props := mergeField fuel' ty props in
          message_body fuel' endToken ty props
  end

(** The value of a map entry when it is a message:
    [while (!tokenizer.tryConsume(messageEndToken))
       this.mergeField(tokenizer, subMessage);] *)
with entry_message_body (fuel : nat) (endToken : jsstring) (ty : MessageType)
    (props : properties) : M properties :=
  match fuel with
  | O => fun _ => OutOfFuel
  | S fuel' =>
      let* close := tryConsume endToken in
      if close then ret props
      else
        let* props := mergeField fuel' ty props in
        entry_message_body fuel' endToken ty props
  end

with mergeMapFieldEntry (fuel : nat) (message : properties) (field : Field)
    : M properties :=
  match fuel with
  | O => fun _ => OutOfFuel
  | S fuel' =>
      let* endToken := Src.open_delimiter in
      (* Maps can be empty *)
      let* empty := tryConsume endToken in
      if empty then ret message
      else
        let* entry := map_entry_loop fuel' field endToken None VUndefined in
        Src.set_entry Number_toString message (name field) (fst entry) (snd entry)
  end

with map_entry_loop (fuel : nat) (field : Field) (endToken : jsstring)
    (key : option scalar) (val : value) : M (option scalar * value) :=
  match fuel with
  | O => fun _ => OutOfFuel
  | S fuel' =>
      let* name := consumeIdentifier in
      let* entry :=
        if str_eqb name (js "key") then
          (* Key is always scalar, so ':' is required *)
          do consume (js ":") in
          let* k := parseScalar fuel' (keyType field) in
          ret (Some k, val)
        else if str_eqb name (js "value") then
          let valueType := type field in
          let* v :=
            try_catch
              (match lookupType valueType with
               | None => throw (fun _ => Error (js "no such type"))
               | Some resolvedValueType =>
                   (* This is a message type, so ':' is optional *)
                   let* _ := tryConsume (js ":") in
                   let subMessage := create resolvedValueType in
                   let* messageEndToken := Src.open_delimiter in
                   let* subMessage :=
                     entry_message_body fuel' messageEndToken
                       resolvedValueType subMessage in
                   ret (VMessage resolvedValueType subMessage)
               end)
              (fun _ =>
                 (* This is a scalar type, so ':' is required *)
                 do consume (js ":") in
                 let* s := parseScalar fuel' valueType in
                 ret (VScalar s)) in
          ret (key, v)
        else
          throw (parseError (js "Unexpected field in map entry: " ++ name)) in
      let* _ := tryConsume (js ",") in
      let* close := tryConsume endToken in
      if close then ret entry
      else map_entry_loop fuel' field endToken (fst entry) (snd entry)
  end.

Fixpoint parseLines_loop (fuel : nat) (ty : MessageType) (message : properties)
    : M properties :=
  match fuel with
  | O => fun _ => OutOfFuel
  | S fuel' =>
      let* tok := get_token in
      if str_eqb tok [] then ret message
      else
        let* message := mergeField fuel' ty message in
        parseLines_loop fuel' ty message
  end.

Definition parseLines (fuel : nat) (lines : list jsstring) (ty : MessageType)
    (message : properties) : outcome properties :=
  parseLines_loop fuel ty message (new_Tokenizer lines).

Definition parse (text : jsstring) (ty : MessageType) (message : properties)
    : outcome properties :=
  parseLines (4 * List.length text + 8) (split_lines text []) ty message.

End Parser.

End Dist.

(* ================================================================== *)
(** * A schema to run the parser on: [test.TestMessage] of the tests

    The names and types of the fields are those the tests read; the field
    numbers are arbitrary. *)
(* ================================================================== *)

Module Fixture.
Import JS Lexer Schema Src.

Definition scalar_field (n : string) (i : Z) (t : string) (rep : bool) : Field :=
  mkField (js n) i (js t) rep false (js "undefined") None (js "test.TestMessage").

Definition TestEnum : Enum :=
  mkEnum (js "TestEnum")
    [(js "ENUM_VALUE_ZERO", 0%Z); (js "ENUM_VALUE_ONE", 1%Z);
     (js "ENUM_VALUE_TWO", 2%Z); (js "NEGATIVE_VALUE", (-1)%Z)].

Definition NestedMessage : MessageType :=
  mkType (js "NestedMessage") (js "test.NestedMessage")
    [mkField (js "value") 1 (js "string") false false (js "undefined") None
       (js "test.NestedMessage");
     mkField (js "number") 2 (js "int32") false false (js "undefined") None
       (js "test.NestedMessage")].

Definition nested : option ReflectionObject :=
  Some (ResolvedType (js "NestedMessage") (js "test.NestedMessage")).

Definition TestMessage : MessageType :=
  mkType (js "TestMessage") (js "test.TestMessage")
    [scalar_field "stringField" 1 "string" false;
     scalar_field "bytesField" 2 "bytes" false;
     scalar_field "int32Field" 3 "int32" false;
     scalar_field "int64Field" 4 "int64" false;
     scalar_field "uint32Field" 5 "uint32" false;
     scalar_field "uint64Field" 6 "uint64" false;
     scalar_field "floatField" 13 "float" false;
     scalar_field "doubleField" 14 "double" false;
     scalar_field "boolField" 15 "bool" false;
     mkField (js "enumField") 16 (js "TestEnum") false false (js "undefined")
       (Some (ResolvedEnum TestEnum)) (js "test.TestMessage");
     scalar_field "repeatedString" 17 "string" true;
     scalar_field "repeatedInt32" 18 "int32" true;
     mkField (js "repeatedEnum") 19 (js "TestEnum") true false (js "undefined")
       (Some (ResolvedEnum TestEnum)) (js "test.TestMessage");
     mkField (js "nestedMessage") 20 (js "NestedMessage") false false
       (js "undefined") nested (js "test.TestMessage");
     mkField (js "repeatedNested") 21 (js "NestedMessage") true false
       (js "undefined") nested (js "test.TestMessage");
     mkField (js "stringIntMap") 22 (js "int32") false true (js "string") None
       (js "test.TestMessage");
     mkField (js "intMessageMap") 23 (js "NestedMessage") false true (js "int32")
       nested (js "test.TestMessage")].

Definition lookupType (n : jsstring) : option MessageType :=
  if str_eqb n (js "NestedMessage") || str_eqb n (js "test.NestedMessage")
  then Some NestedMessage
  else if str_eqb n (js "TestMessage") || str_eqb n (js "test.TestMessage")
  then Some TestMessage
  else None.

(** A fresh message of protobufjs owns an empty array for each repeated
    field and an empty object for each map field. *)
Definition create (ty : MessageType) : properties :=
  fold_left
    (fun props f =>
       if field_map f then <[name f := VObject ∅]> props
       else if repeated f then <[name f := VArray []]> props
       else props)
    (fieldsArray ty) ∅.

(** Number::toString on the integers below [10^21]; the keys of the
    examples are such integers. *)
Definition Number_toString (x : number) : jsstring :=
  match x with
  | NaN => js "NaN"
  | Infinity neg => if neg then js "-Infinity" else js "Infinity"
  | Finite neg m _ =>
      if neg && negb (m =? 0) then 45 :: N_to_string m else N_to_string m
  end.

Definition options (unknownField : bool) : ParserOptions :=
  mkOptions false false (fun _ => None) unknownField.

(** Input texts are written with a backquote where the text has a double
    quote ([txt]), and as a list of lines (joined by LF). *)
Definition txt (s : string) : jsstring :=
  List.map (fun c => if c =? 96 then 34 else c) (js s).

Fixpoint join_lines (lines : list jsstring) : jsstring :=
  match lines with
  | [] => []
  | [l] => l
  | l :: rest => l ++ [10] ++ join_lines rest
  end.

(** [parse(text, TestMessage.create(), options)] with [src/parser.ts] *)
Definition run (unknownField : bool) (text : list jsstring)
    : outcome properties :=
  parse (options unknownField) lookupType create Number_toString
    (join_lines text) TestMessage (create TestMessage).

(** The same with [dist/src/parser.js] *)
Definition run_dist (unknownField : bool) (text : list jsstring)
    : outcome properties :=
  Dist.parse (options unknownField) lookupType create Number_toString
    (join_lines text) TestMessage (create TestMessage).

(** The value left under a property, once the parse is over. *)
Definition property (r : outcome properties) (key : string) : option value :=
  match r with
  | Ok props _ => Some (get props (js key))
  | _ => None
  end.

(** The value under a key of the map left under a property. *)
Definition entry (r : outcome properties) (key k : string) : option value :=
  match property r key with
  | Some (VObject entries) => entries !! txt k
  | _ => None
  end.

Definition number (z : Z) : value := VScalar (SNumber (of_Z z)).
Definition bigint (z : Z) : value := VScalar (SBigInt z).
Definition text (s : string) : value := VScalar (SString (txt s)).

(** The tokenizer of a text once [n] tokens have been passed. *)
Definition cursor (n : nat) (text : list jsstring) : Tokenizer :=
  Nat.iter n nextToken (new_Tokenizer (split_lines (join_lines text) [])).

Definition thrown {A} (r : outcome A) : option exn :=
  match r with
  | Throw e _ => Some e
  | _ => None
  end.

(** A [ParseError] built on line 1. *)
Definition error_at (column : Z) (message : string) : option exn :=
  Some (ParseError (txt message) (Some 1%Z) (Some column)).

(** The field [string_int_map], and a message that holds two entries under
    it. *)
Definition stringIntMap : Field :=
  mkField (js "stringIntMap") 22 (js "int32") false true (js "string") None
    (js "test.TestMessage").

Definition two_entries : properties :=
  <[js "stringIntMap" :=
      VObject (<[js "k1" := number 1]> (<[js "k2" := number 2]> ∅))]> ∅.

(** The cursor on the value of [float_field: abc]. *)
Definition float_abc : Tokenizer := cursor 2 [txt "float_field: abc"].

End Fixture.
(* ================================================================== *)
(** * Notions the statements are written with *)
(* ================================================================== *)

Module Position.
Import Lexer.

(** Where the current token starts, and where the one before it did. *)
Definition position (t : Tokenizer) : Z * Z := (_line t, _column t).
Definition previous_position (t : Tokenizer) : Z * Z :=
  (_previous_line t, _previous_column t).

(** (line, column) order: an earlier line, or the same line and a column
    that is not larger. *)
Definition le (p q : Z * Z) : Prop :=
  (fst p < fst q)%Z \/ (fst p = fst q /\ (snd p <= snd q)%Z).

(** The tokenizer of [lines] after [n] calls of [nextToken]. *)
Definition after (n : nat) (lines : list (list N)) : Tokenizer :=
  Nat.iter n nextToken (new_Tokenizer lines).

(** The text at the cursor does not start with white space or a comment. *)
Definition settled (t : Tokenizer) : Prop :=
  _WHITESPACE_OR_COMMENT (skipn (Z.to_nat (_column t)) (_current_line t)) = O.

(** The cursor [n] tokens further. *)
Fixpoint skip_tokens (n : nat) (t : Tokenizer) : Tokenizer :=
  match n with
  | O => t
  | S n' => skip_tokens n' (nextToken t)
  end.

(** The payload of a token that is a closed quoted literal, decoded by
    [unescape]. *)
Definition decoded (unescape : list N -> list N + list N) (tok : list N)
    : option (list N) :=
  match tok with
  | q :: _ =>
      if is_quote q && (2 <=? List.length tok)%nat
         && bool_decide (last tok = Some q) then
        match unescape (JS.substring 1 (List.length tok - 1) tok) with
        | inl payload => Some payload
        | inr _ => None
        end
      else None
  | [] => None
  end.

(** The cursor is on a run of adjacent literals whose payloads are
    [parts], and the token after the run does not start with a quote. *)
Fixpoint literals (unescape : list N -> list N + list N) (t : Tokenizer)
    (parts : list (list N)) : Prop :=
  match parts with
  | [] => Src.starts_quoted (token t) = false
  | p :: rest =>
      decoded unescape (token t) = Some p
      /\ literals unescape (nextToken t) rest
  end.

(** The cursor once an optional [s] has been passed. *)
Definition past (s : list N) (t : Tokenizer) : Tokenizer :=
  if JS.str_eqb (token t) s then nextToken t else t.

(** The map a map field finds on the message: the own properties of the
    plain object the message has under the field's name, or none, when the
    message has a falsy value there and an empty object takes its place. *)
Definition held (message : Schema.properties) (field_name : list N)
    (entries : gmap (list N) Schema.value) : Prop :=
  message !! field_name = Some (Schema.VObject entries)
  \/ (exists v, message !! field_name = Some v
                /\ Schema.truthy v = false /\ entries = ∅).

End Position.

(* ================================================================== *)
(** * Notions of the further properties *)
(* ================================================================== *)

(** ** The cursor and the text *)

Module Cursor.
Import JS Lexer Position.

(** What is left of the current line at the cursor. *)
Definition remaining (t : Tokenizer) : list N :=
  skipn (Z.to_nat (_column t)) (_current_line t).

(** The units the tokenizer has not passed yet: the rest of the current
    line, and the lines to come with their line ends. *)
Definition weight (lines : list (list N)) : nat :=
  fold_right (fun l n => (S (List.length l) + n)%nat) O lines.

Definition measure (t : Tokenizer) : nat :=
  (List.length (remaining t) + weight (_lines t))%nat.

(** The token is the text at the cursor. *)
Definition fits (t : Tokenizer) : Prop :=
  firstn (List.length (token t)) (remaining t) = token t.

(** A cursor that has run out of lines. *)
Definition exhausted (t : Tokenizer) : Prop :=
  _more_lines t = false /\ _current_line t = [] /\ _lines t = [].

(** What [nextToken] relies on. *)
Definition steady (t : Tokenizer) : Prop :=
  (0 <= _column t)%Z /\ (_more_lines t = false -> exhausted t) /\ fits t.

(** What every cursor of a run satisfies: at the end there is no line left
    and the token is empty; before the end the token is not empty, it is
    the text at the cursor, and it starts with no white space and no [#]. *)
Definition ready (t : Tokenizer) : Prop :=
  (0 <= _column t)%Z
  /\ (_more_lines t = false -> exhausted t /\ token t = [])
  /\ (_more_lines t = true ->
        token t <> [] /\ fits t /\ settled t).

(** What a run of [_skipWhitespace] leaves: the token and the previous
    position as they were, and a cursor that is out of lines or on a unit
    of the current line that starts no white space and no comment. *)
Definition skipped (t t' : Tokenizer) : Prop :=
  token t' = token t
  /\ previous_position t' = previous_position t
  /\ (0 <= _column t')%Z
  /\ (measure t' <= measure t)%nat
  /\ (exhausted t'
      \/ (_more_lines t' = true
          /\ (Z.to_nat (_column t') < List.length (_current_line t'))%nat
          /\ settled t')).

(** A line of white space and comments only: the pattern
    [_WHITESPACE_OR_COMMENT] matches all of it. *)
Definition blank_line (l : list N) : bool :=
  (_WHITESPACE_OR_COMMENT l =? List.length l)%nat.

(** Text that can stand between two quotes [q] as it is: no [q], no line
    feed and no backslash. *)
Definition plain_body (q : N) (s : jsstring) : bool :=
  forallb (fun c => negb ((c =? q) || (c =? 10) || (c =? 92))) s.

(** The one-line text that is the literal [q s q]. *)
Definition literal (q : N) (s : jsstring) : jsstring := q :: s ++ [q].

End Cursor.

(** ** Strings and digits *)

Module Text.
Import JS Lexer.

Definition starts_lower (s : jsstring) : bool :=
  match s with c :: _ => is_lower c | [] => false end.

Definition no_underscore (s : jsstring) : bool :=
  forallb (fun c => negb (c =? 95)) s.

Definition no_backslash (s : jsstring) : bool :=
  forallb (fun c => negb (c =? 92)) s.

(** [a] in front of what [cUnescape] returned, an error staying as it is. *)
Definition prepend (a : jsstring) (r : jsstring + jsstring) : jsstring + jsstring :=
  match r with
  | inl s => inl (a ++ s)
  | inr m => inr m
  end.

(** The text has a backslash followed by [U] somewhere. *)
Definition has_U_escape (s : jsstring) : Prop :=
  exists i, nth_error s i = Some 92 /\ nth_error s (S i) = Some 85.

(** The names every object inherits from [Object.prototype]: a lookup by
    one of them in a plain object finds the inherited member, not
    [undefined]. *)
Definition Object_prototype_names : list jsstring :=
  [js "constructor"; js "__proto__"; js "hasOwnProperty"; js "isPrototypeOf";
   js "propertyIsEnumerable"; js "toLocaleString"; js "toString"; js "valueOf";
   js "__defineGetter__"; js "__defineSetter__"; js "__lookupGetter__";
   js "__lookupSetter__"].

Definition inherited_name (s : jsstring) : bool :=
  existsb (str_eqb s) Object_prototype_names.

(** The value of a run of decimal digits, read from the left. *)
Definition decimal_value (ds : jsstring) : N :=
  fold_left (fun acc c => acc * 10 + (c - 48)) ds 0.

(** The value of a hexadecimal digit, and of a run of digits in radix
    [R], read from the left. *)
Definition hex_digit (c : N) : N :=
  if is_digit c then c - 48
  else if in_range 97 102 c then c - 87
  else c - 55.

Definition radix_value (R : N) (ds : jsstring) : N :=
  fold_left (fun acc c => acc * R + hex_digit c) ds 0.

End Text.

(** ** The message *)

Module Store.
Import JS Lexer Schema.

(** The elements a property holds when it is read as an array: those of
    the array that is there, none when something else is. *)
Definition elements (v : value) : list value :=
  match v with VArray l => l | _ => [] end.

(** The cursor is on the items [vs] of a list in the short form, each
    one read by [read] and followed by a comma, the last one by the closing
    bracket; [t_end] is the cursor after the bracket. *)
Fixpoint list_items (read : M scalar) (t : Tokenizer) (vs : list scalar)
    (t_end : Tokenizer) : Prop :=
  match vs with
  | [] => False
  | v :: rest =>
      exists t1,
        read t = Ok v t1
        /\ match rest with
           | [] => token t1 = js "]" /\ t_end = nextToken t1
           | _ :: _ =>
               token t1 = js "," /\ list_items read (nextToken t1) rest t_end
           end
  end.

(** The message differs from the one before at the property [key] only. *)
Definition only_at (key : jsstring) (message message' : properties) : Prop :=
  forall p, p <> key -> message' !! p = message !! p.

End Store.

(** ** Runs that return *)

Module Run.
Import JS Lexer Schema Cursor.

(** [m] run from [t] does not run out of fuel; what it returns satisfies
    [Q], and the cursor a [throw] leaves satisfies [E].  Nothing is asked
    where the model stops on a value it does not represent. *)
Definition wp {A} (m : M A) (t : Tokenizer) (Q : A -> Tokenizer -> Prop)
    (E : Tokenizer -> Prop) : Prop :=
  match m t with
  | Ok a t' => Q a t'
  | Throw _ t' => E t'
  | OutOfFuel => False
  | Unmodelled => True
  end.

(** The cursor is ready and has at most [n] units to pass. *)
Definition lands (n : nat) (t : Tokenizer) : Prop :=
  ready t /\ (measure t <= n)%nat.

Section Descent.

Variable options : ParserOptions.
Variable lookupType : jsstring -> option MessageType.
Variable create : MessageType -> properties.
Variable Number_toString : number -> jsstring.

(** What the five methods of the recursive descent of [src/parser.ts] are
    shown to do, for one amount of fuel: from a cursor with [n] units to
    pass, fuel above [2 * n] is enough, and a method that returns has
    passed one unit at least. *)
Definition descends (fuel : nat) : Prop :=
  (forall ty message t n, lands n t -> (2 * n < fuel)%nat ->
     wp (Src.mergeField options lookupType create Number_toString
           fuel ty message) t
       (fun _ t1 => exists n', n = S n' /\ lands n' t1) (lands n))
  /\ (forall message field isMapEntry t n, lands n t -> (2 * n < fuel)%nat ->
        wp (Src.mergeMessageField options lookupType create Number_toString
              fuel message field isMapEntry) t
          (fun _ t1 => exists n', n = S n' /\ lands n' t1) (lands n))
  /\ (forall endToken ty props, endToken <> [] ->
      forall t n, lands n t -> (2 * n + 1 < fuel)%nat ->
        wp (Src.message_body options lookupType create Number_toString
              fuel endToken ty props) t (fun _ => lands n) (lands n))
  /\ (forall message field t n, lands n t -> (2 * n < fuel)%nat ->
        wp (Src.mergeMapField options lookupType create Number_toString
              fuel message field) t
          (fun _ t1 => exists n', n = S n' /\ lands n' t1) (lands n))
  /\ (forall field endToken key val, endToken <> [] ->
      forall t n, lands n t -> (2 * n < fuel)%nat ->
        wp (Src.map_entry_loop options lookupType create Number_toString
              fuel field endToken key val) t
          (fun _ t1 => exists n', n = S n' /\ lands n' t1) (lands n)).

End Descent.

End Run.

(* ================================================================== *)
(** * Properties *)
(* ================================================================== *)

Import JS Lexer Schema.
#[local] Open Scope js_scope.

(** ** Running the methods *)

Ltac chars :=
  unfold is_ident_start, is_ident_part, is_number_part, is_word, is_alpha,
    is_lower, is_upper, is_digit, is_octal, is_hex, is_space,
    is_line_terminator, is_quote, in_range in *;
  rewrite ?orb_true_iff, ?andb_true_iff, ?orb_false_iff, ?andb_false_iff,
    ?N.leb_le, ?N.leb_gt, ?N.eqb_eq, ?N.eqb_neq in *;
  lia.

Lemma bind_Ok {A B} (m : M A) (k : A -> M B) t b t' :
  bind m k t = Ok b t' -> exists a t1, m t = Ok a t1 /\ k a t1 = Ok b t'.
Proof.
  unfold bind. destruct (m t) as [a t1 | e t1 | |]; try discriminate. eauto.
Qed.

Lemma bind_ok {A B} (m : M A) (k : A -> M B) t a t1 :
  m t = Ok a t1 -> bind m k t = k a t1.
Proof. unfold bind. intros ->. reflexivity. Qed.

Lemma bind_assoc {A B C} (m : M A) (k1 : A -> M B) (k2 : B -> M C) t :
  bind (bind m k1) k2 t = bind m (fun a => bind (k1 a) k2) t.
Proof. unfold bind. destruct (m t); reflexivity. Qed.

Lemma bind_ret {A B} (a : A) (k : A -> M B) t : bind (ret a) k t = k a t.
Proof. reflexivity. Qed.

(** One step of a method whose first call is known to return. *)
Ltac step H :=
  rewrite ?bind_assoc, ?bind_ret; rewrite (bind_ok _ _ _ _ _ H); cbv beta;
  rewrite ?bind_ret.

Lemma tryConsume_hit s t : token t = s -> tryConsume s t = Ok true (nextToken t).
Proof.
  intros H. unfold tryConsume, bind, get_token, advance, ret, str_eqb.
  rewrite bool_decide_eq_true_2 by exact H. reflexivity.
Qed.

Lemma tryConsume_miss s t : token t <> s -> tryConsume s t = Ok false t.
Proof.
  intros H. unfold tryConsume, bind, get_token, advance, ret, str_eqb.
  rewrite bool_decide_eq_false_2 by exact H. reflexivity.
Qed.

Lemma consume_hit s t : token t = s -> consume s t = Ok tt (nextToken t).
Proof.
  intros H. unfold consume. rewrite (bind_ok _ _ _ _ _ (tryConsume_hit s t H)).
  reflexivity.
Qed.

Lemma consumeIdentifier_ok t :
  _IDENTIFIER_test (token t) = true ->
  consumeIdentifier t = Ok (token t) (nextToken t).
Proof.
  intros H. unfold consumeIdentifier, bind, get_token, advance, ret.
  rewrite H. reflexivity.
Qed.

Lemma open_brace t :
  token t = js "{" -> Src.open_delimiter t = Ok (js "}") (nextToken t).
Proof.
  intros H. unfold Src.open_delimiter.
  step (tryConsume_miss (js "<") t ltac:(rewrite H; discriminate)).
  step (consume_hit (js "{") t H).
  reflexivity.
Qed.

(** ** The cursor only moves forward (C9) *)

Section Monotone.
Import Position.

Lemma le_refl p : le p p.
Proof. right. split; [reflexivity | lia]. Qed.

Lemma le_trans p q r : le p q -> le q r -> le p r.
Proof. unfold le. intros [H1 | [H1 H1']] [H2 | [H2 H2']]; lia. Qed.

Lemma _popLine_loop_position lines t :
  le (position t) (position (_popLine_loop lines t)).
Proof.
  revert t. induction lines as [| l ls IH]; intros t; simpl.
  - destruct (_ || _); apply le_refl.
  - destruct (_ || _); [| apply le_refl].
    eapply le_trans; [| apply IH].
    left. simpl. lia.
Qed.

Lemma _popLine_loop_previous lines t :
  previous_position (_popLine_loop lines t) = previous_position t.
Proof.
  revert t. induction lines as [| l ls IH]; intros t; simpl.
  - destruct (_ || _); reflexivity.
  - destruct (_ || _); [| reflexivity]. rewrite IH. reflexivity.
Qed.

Lemma _skipWhitespace_loop_position fuel t :
  le (position t) (position (_skipWhitespace_loop fuel t)).
Proof.
  revert t. induction fuel as [| fuel IH]; intros t; simpl; [apply le_refl |].
  pose proof (_popLine_loop_position (_lines t) t) as Hpop.
  fold (_popLine t) in Hpop.
  destruct (negb (_more_lines (_popLine t))); [exact Hpop |].
  destruct (_WHITESPACE_OR_COMMENT _) as [| n]; [exact Hpop |].
  eapply le_trans; [exact Hpop |].
  eapply le_trans; [| apply IH].
  right. simpl. lia.
Qed.

Lemma _skipWhitespace_loop_previous fuel t :
  previous_position (_skipWhitespace_loop fuel t) = previous_position t.
Proof.
  revert t. induction fuel as [| fuel IH]; intros t; simpl; [reflexivity |].
  pose proof (_popLine_loop_previous (_lines t) t) as Hpop.
  fold (_popLine t) in Hpop.
  destruct (negb (_more_lines (_popLine t))); [exact Hpop |].
  destruct (_WHITESPACE_OR_COMMENT _) as [| n]; [exact Hpop |].
  rewrite IH. exact Hpop.
Qed.

Lemma position_set_token v t : position (set_token v t) = position t.
Proof. reflexivity. Qed.

(** One call: the new token starts at or after the old one, and the old
    start is what the tokenizer remembers as the previous position. *)
Lemma nextToken_position t :
  le (position t) (position (nextToken t))
  /\ previous_position (nextToken t) = position t.
Proof.
  unfold nextToken.
  set (t2 := set_column _ (set_previous _ _ t)).
  assert (H2 : le (position t) (position t2)).
  { right. simpl. lia. }
  assert (Hp : previous_position t2 = position t) by reflexivity.
  pose proof (_skipWhitespace_loop_position
                (2 * List.length (_lines t2) + 3) t2) as H3.
  pose proof (_skipWhitespace_loop_previous
                (2 * List.length (_lines t2) + 3) t2) as Hp3.
  fold (_skipWhitespace t2) in H3, Hp3.
  assert (H : le (position t) (position (_skipWhitespace t2)))
    by (eapply le_trans; eassumption).
  rewrite Hp in Hp3.
  destruct (negb _); [split; assumption |].
  destruct (skipn _ _) as [| c rest]; [split; assumption |].
  destruct (_TOKEN _); split; assumption.
Qed.

Lemma after_S n lines : after (S n) lines = nextToken (after n lines).
Proof. reflexivity. Qed.

(** C9.  On every input, the positions of the tokens seen by successive
    calls of [nextToken] never go back: the token seen after [n + k]
    calls starts at or after the one seen after [n] calls, and the
    position kept as "previous" is the start of the token before. *)
Theorem token_positions_monotone (lines : list (list N)) (n k : nat) :
  le (position (after n lines)) (position (after (n + k) lines))
  /\ previous_position (after (S n) lines) = position (after n lines).
Proof.
  split.
  - induction k as [| k IH].
    + rewrite Nat.add_0_r. apply le_refl.
    + rewrite Nat.add_succ_r, after_S.
      eapply le_trans; [exact IH | apply nextToken_position].
  - rewrite after_S. apply nextToken_position.
Qed.

End Monotone.

(** ** The fuel of [_skipWhitespace] is enough *)

Section SkipWhitespaceFuel.
Import Position.

Lemma ws_scan_stops s b : ws_scan false (skipn (ws_scan b s) s) = O.
Proof.
  revert b. induction s as [| c s IH]; intros b; simpl; [reflexivity |].
  destruct b.
  - destruct (is_line_terminator c); simpl; apply IH.
  - destruct (is_space c) eqn:Hs; simpl; [apply IH |].
    destruct (c =? 35) eqn:Hc; simpl; [apply IH |].
    rewrite Hs, Hc. reflexivity.
Qed.

Lemma _popLine_loop_lines lines t :
  (List.length (_lines (_popLine_loop lines t)) <= List.length lines)%nat.
Proof.
  revert t. induction lines as [| l ls IH]; intros t; simpl.
  - destruct (_ || _); simpl; lia.
  - destruct (_ || _); simpl; [| lia].
    etransitivity; [apply IH | lia].
Qed.

Lemma _popLine_loop_column lines t :
  (0 <= _column t)%Z -> (0 <= _column (_popLine_loop lines t))%Z.
Proof.
  revert t. induction lines as [| l ls IH]; intros t Ht; simpl.
  - destruct (_ || _); simpl; lia.
  - destruct (_ || _); simpl; [| lia]. apply IH. simpl. lia.
Qed.

(** [_popLine] leaves the cursor alone, or runs out of lines, or takes at
    least one line. *)
Lemma _popLine_cases t :
  _popLine t = t
  \/ _more_lines (_popLine t) = false
  \/ (List.length (_lines (_popLine t)) < List.length (_lines t))%nat.
Proof.
  unfold _popLine. destruct t as [lines ln col tok cur more pl pc]; simpl.
  destruct lines as [| l ls]; simpl.
  - destruct (_ || _); simpl; auto.
  - destruct (_ || _); simpl; auto.
    right; right.
    match goal with |- (List.length (_lines (_popLine_loop ls ?t')) < _)%nat =>
      pose proof (_popLine_loop_lines ls t') end.
    lia.
Qed.

Lemma settled_after_match t n :
  (0 <= _column t)%Z ->
  _WHITESPACE_OR_COMMENT (skipn (Z.to_nat (_column t)) (_current_line t)) = S n ->
  settled (set_column (_column t + Z.of_nat (S n)) t).
Proof.
  intros Hc Hn. unfold settled. simpl _column. simpl _current_line.
  replace (Z.to_nat (_column t + Z.of_nat (S n)))
    with (S n + Z.to_nat (_column t))%nat by lia.
  rewrite <- skipn_skipn, <- Hn.
  apply ws_scan_stops.
Qed.

Lemma settled_stable k : forall t m,
  (List.length (_lines t) <= k)%nat -> (0 <= _column t)%Z -> settled t ->
  (2 * k + 1 <= m)%nat ->
  _skipWhitespace_loop m t = _skipWhitespace_loop (2 * k + 1) t.
Proof.
  induction k as [| k IH]; intros t m Hk Hc Hs Hm.
  - destruct m as [| m]; [lia |]. simpl.
    destruct (negb (_more_lines (_popLine t))) eqn:Hmore; [reflexivity |].
    destruct (_popLine_cases t) as [Heq | [Hno | Hlt]].
    + rewrite Heq. rewrite Hs. reflexivity.
    + rewrite Hno in Hmore. discriminate.
    + lia.
  - destruct m as [| m]; [lia |].
    replace (2 * S k + 1)%nat with (S (2 * k + 2))%nat by lia.
    remember (2 * k + 2)%nat as f eqn:Hf.
    simpl _skipWhitespace_loop.
    destruct (negb (_more_lines (_popLine t))) eqn:Hmore; [reflexivity |].
    destruct (_WHITESPACE_OR_COMMENT _) as [| n] eqn:Hws; [reflexivity |].
    destruct (_popLine_cases t) as [Heq | [Hno | Hlt]].
    + rewrite Heq in Hws. rewrite Hs in Hws. discriminate.
    + rewrite Hno in Hmore. discriminate.
    + assert (Hc' : (0 <= _column (_popLine t))%Z)
        by (apply _popLine_loop_column; exact Hc).
      pose proof (settled_after_match _ _ Hc' Hws) as Hs'.
      set (t2 := set_column _ (_popLine t)) in *.
      assert (Hk2 : (List.length (_lines t2) <= k)%nat) by (simpl; lia).
      assert (Hc2 : (0 <= _column t2)%Z) by (simpl; lia).
      rewrite (IH t2 m Hk2 Hc2 Hs') by lia.
      rewrite (IH t2 f Hk2 Hc2 Hs') by lia.
      reflexivity.
Qed.

(** More fuel than [_skipWhitespace] hands to its loop changes nothing:
    the loop has returned by then. *)
Lemma _skipWhitespace_fuel t m :
  (0 <= _column t)%Z ->
  (2 * List.length (_lines t) + 3 <= m)%nat ->
  _skipWhitespace_loop m t = _skipWhitespace t.
Proof.
  intros Hc Hm. unfold _skipWhitespace.
  destruct m as [| m]; [lia |].
  replace (2 * List.length (_lines t) + 3)%nat
    with (S (2 * List.length (_lines t) + 2))%nat by lia.
  remember (2 * List.length (_lines t) + 2)%nat as f eqn:Hf.
  simpl _skipWhitespace_loop.
  destruct (negb (_more_lines (_popLine t))) eqn:Hmore; [reflexivity |].
  destruct (_WHITESPACE_OR_COMMENT _) as [| n] eqn:Hws; [reflexivity |].
  assert (Hc' : (0 <= _column (_popLine t))%Z)
    by (apply _popLine_loop_column; exact Hc).
  pose proof (settled_after_match _ _ Hc' Hws) as Hs'.
  set (t2 := set_column _ (_popLine t)) in *.
  assert (Hk2 : (List.length (_lines t2) <= List.length (_lines t))%nat).
  { simpl. apply _popLine_loop_lines. }
  assert (Hc2 : (0 <= _column t2)%Z) by (simpl; lia).
  rewrite (settled_stable _ t2 m Hk2 Hc2 Hs') by lia.
  rewrite (settled_stable _ t2 f Hk2 Hc2 Hs') by lia.
  reflexivity.
Qed.

End SkipWhitespaceFuel.

(** ** The fuel of [cUnescape] is enough *)

Section UnescapeFuel.

Lemma collect_while_index n p source : forall i acc,
  (i <= snd (Src.collect_while n p source i acc))%nat.
Proof.
  induction n as [| n IH]; intros i acc; simpl; [lia |].
  destruct (nth_error source i) as [c |]; simpl; [| lia].
  destruct (p c); simpl; [| lia].
  specialize (IH (S i) (acc ++ [c])). lia.
Qed.

Lemma collect_n_index n source : forall i acc,
  snd (Src.collect_n n source i acc) = (i + n)%nat.
Proof.
  induction n as [| n IH]; intros i acc; simpl; [lia |].
  rewrite IH. lia.
Qed.

Ltac step_index :=
  match goal with
  | |- context [Src.collect_while ?n ?p ?s ?i ?acc] =>
      let H := fresh "Hidx" in
      pose proof (collect_while_index n p s i acc) as H;
      destruct (Src.collect_while n p s i acc) as [? ?]; simpl in H
  | |- context [Src.collect_n ?n ?s ?i ?acc] =>
      let H := fresh "Hidx" in
      pose proof (collect_n_index n s i acc) as H;
      destruct (Src.collect_n n s i acc) as [? ?]; simpl in H
  end.

(** Once the fuel covers what is left of [source], the loop of
    [src/parser.ts] returns the same with any larger fuel: it has left
    through its [while] test. *)
Lemma Src_cUnescape_fuel fuel : forall source i result m,
  (List.length source <= i + fuel)%nat -> (fuel <= m)%nat ->
  Src.cUnescape_loop m source i result = Src.cUnescape_loop fuel source i result.
Proof.
  induction fuel as [| fuel IH]; intros source i result m Hlen Hm.
  - assert (Hnone : nth_error source i = None)
      by (apply nth_error_None; lia).
    destruct m; simpl; rewrite ?Hnone; reflexivity.
  - destruct m as [| m]; [lia |]. cbn [Src.cUnescape_loop].
    destruct (nth_error source i) as [c |]; [| reflexivity].
    destruct (c =? 92); [| apply IH; lia].
    destruct (nth_error source (S i)) as [d |]; [| apply IH; lia].
    destruct (Src.simple_escape d); [apply IH; lia |].
    destruct (is_octal d); [step_index; apply IH; lia |].
    destruct (d =? 120); [step_index; apply IH; lia |].
    destruct (d =? 117); [step_index; apply IH; lia |].
    destruct (d =? 85); [| apply IH; lia].
    step_index. destruct (fromCodePoint _); [| reflexivity].
    apply IH; destruct (str_eqb _ _); lia.
Qed.

(** The same for the loop of [dist/src/parser.js]. *)
Lemma Dist_cUnescape_fuel fuel : forall source i result m,
  (List.length source <= i + fuel)%nat -> (fuel <= m)%nat ->
  Dist.cUnescape_loop m source i result = Dist.cUnescape_loop fuel source i result.
Proof.
  induction fuel as [| fuel IH]; intros source i result m Hlen Hm.
  - assert (Hnone : nth_error source i = None)
      by (apply nth_error_None; lia).
    destruct m; simpl; rewrite ?Hnone; reflexivity.
  - destruct m as [| m]; [lia |]. cbn [Dist.cUnescape_loop].
    destruct (nth_error source i) as [c |]; [| reflexivity].
    destruct (c =? 92); [| apply IH; lia].
    destruct (nth_error source (S i)) as [d |]; [| apply IH; lia].
    destruct (Src.simple_escape d); [apply IH; lia |].
    destruct (is_octal d); [step_index; apply IH; lia |].
    destruct (d =? 120); [step_index; apply IH; lia |].
    destruct (d =? 117); [step_index; apply IH; lia |].
    destruct (d =? 85); [| apply IH; lia].
    step_index. destruct (fromCodePoint _); [| reflexivity].
    apply IH; lia.
Qed.

End UnescapeFuel.

(** ** [consumeFloat] returns on every token (C10) *)

Section Float.

Lemma ident_start_leads_no_number c :
  is_ident_start c = true -> leads_number c = false.
Proof. intros H. unfold leads_number. chars. Qed.

Lemma no_lead_not_digit10 c : is_digit c = false -> radix_digit 10 c = None.
Proof.
  intros Hd. unfold radix_digit, digit_value. rewrite Hd.
  destruct (is_lower c) eqn:Hl.
  - assert (Hge : (c - 97 + 10 <? 10) = false)
      by (apply N.ltb_ge; unfold is_lower, in_range in Hl;
          rewrite andb_true_iff, !N.leb_le in Hl; lia).
    rewrite Hge. reflexivity.
  - destruct (is_upper c) eqn:Hu; [| reflexivity].
    assert (Hge : (c - 65 + 10 <? 10) = false)
      by (apply N.ltb_ge; unfold is_upper, in_range in Hu;
          rewrite andb_true_iff, !N.leb_le in Hu; lia).
    rewrite Hge. reflexivity.
Qed.

(** [parseFloat] of a text that starts with no white space, sign, dot or
    digit, and is not [Infinity...], is NaN. *)
Lemma parseFloat_no_number c rest :
  leads_number c = false ->
  startsWith (js "Infinity") (c :: rest) = false ->
  parseFloat (c :: rest) = NaN.
Proof.
  intros Hc Hinf. unfold leads_number in Hc.
  rewrite !orb_false_iff in Hc. destruct Hc as [[[[Hs Hd] H43] H45] H46].
  unfold parseFloat. cbn [trim_start]. rewrite Hs.
  unfold scan_decimal. cbn [strip_sign].
  rewrite H45, H43, Hinf. cbn [take_digits].
  rewrite (no_lead_not_digit10 c Hd), H46. reflexivity.
Qed.

Lemma startsWith_removelast p : forall s,
  startsWith p (removelast s) = true -> startsWith p s = true.
Proof.
  induction p as [| a p IH]; intros s H; [reflexivity |].
  destruct s as [| b s]; [discriminate |].
  destruct s as [| b' s]; [discriminate |].
  change (removelast (b :: b' :: s)) with (b :: removelast (b' :: s)) in H.
  cbn [startsWith] in *. apply andb_true_iff in H as [Hab H].
  rewrite Hab. cbn. apply IH. exact H.
Qed.

(** What [consumeFloat] of [src/parser.ts] parses: the token, less a
    trailing [f]. *)
Lemma sliced_no_number c rest :
  leads_number c = false ->
  startsWith (js "Infinity") (c :: rest) = false ->
  parseFloat (slice_0_m1 (c :: rest)) = NaN.
Proof.
  intros Hc Hinf. unfold slice_0_m1.
  destruct rest as [| r rest]; [reflexivity |].
  change (removelast (c :: r :: rest)) with (c :: removelast (r :: rest)).
  apply parseFloat_no_number; [exact Hc |].
  destruct (startsWith (js "Infinity") (c :: removelast (r :: rest))) eqn:E;
    [| reflexivity].
  change (c :: removelast (r :: rest)) with (removelast (c :: r :: rest)) in E.
  apply startsWith_removelast in E. congruence.
Qed.

Lemma consumeFloat_no_number t :
  (token t = []
   \/ exists c rest, token t = c :: rest /\ leads_number c = false
                     /\ startsWith (js "Infinity") (token t) = false) ->
  Src.consumeFloat t = Ok NaN (nextToken t).
Proof.
  unfold Src.consumeFloat, bind, get_token, advance, ret.
  intros [-> | (c & rest & Htok & Hc & Hinf)]; [reflexivity |].
  rewrite Htok in *.
  destruct (endsWith (js "f") (c :: rest)).
  - rewrite sliced_no_number; auto.
  - rewrite parseFloat_no_number; auto.
Qed.

Lemma consumeFloat_total t : exists x, Src.consumeFloat t = Ok x (nextToken t).
Proof.
  unfold Src.consumeFloat, bind, get_token, advance, ret.
  destruct (endsWith _ _); eexists; reflexivity.
Qed.

Lemma parseScalar_float fuel ty t :
  ty = js "float" \/ ty = js "double" ->
  Src.parseScalar fuel ty t
  = match Src.consumeFloat t with
    | Ok x t' => Ok (SNumber x) t'
    | Throw e t' => Throw e t'
    | OutOfFuel => OutOfFuel
    | Unmodelled => Unmodelled
    end.
Proof. intros [-> | ->]; reflexivity. Qed.

(** C10.  [consumeFloat] never throws: on every cursor it returns a
    Number and moves to the next token, and so does [parseScalar] for the
    types [float] and [double].  When the token is empty, or starts with
    no white space, sign, dot or digit and is not [Infinity...] (every
    identifier but [Infinity], every quoted string, every bracket), the
    Number is NaN, and [mergeScalarField] stores it on the message as the
    field's value: no [ParseError] is raised for such a malformed float. *)
Theorem consumeFloat_never_throws (t : Tokenizer) :
  (exists x, Src.consumeFloat t = Ok x (nextToken t))
  /\ (forall fuel ty, ty = js "float" \/ ty = js "double" ->
        exists x, Src.parseScalar fuel ty t = Ok (SNumber x) (nextToken t))
  /\ (token t = []
      \/ (exists c rest, token t = c :: rest /\ leads_number c = false
                         /\ startsWith (js "Infinity") (token t) = false) ->
      Src.consumeFloat t = Ok NaN (nextToken t)
      /\ forall fuel message field,
           resolvedType field = None -> repeated field = false ->
           type field = js "float" \/ type field = js "double" ->
           Src.mergeScalarField fuel message field t
           = Ok (<[name field := VScalar (SNumber NaN)]> message) (nextToken t)).
Proof.
  split; [apply consumeFloat_total |]. split.
  - intros fuel ty Hty. rewrite (parseScalar_float fuel ty t Hty).
    destruct (consumeFloat_total t) as [x ->]. eauto.
  - intros Htok.
    pose proof (consumeFloat_no_number t Htok) as Hnan.
    split; [exact Hnan |].
    intros fuel message field Hres Hrep Hty.
    unfold Src.mergeScalarField. rewrite Hres, Hrep.
    unfold bind at 1. rewrite (parseScalar_float fuel _ t Hty), Hnan.
    reflexivity.
Qed.

(** [dist/src/parser.js] adds the five words; its [consumeFloat] returns
    on every cursor as well. *)
Lemma dist_consumeFloat_total t :
  exists x, Dist.consumeFloat t = Ok x (nextToken t).
Proof.
  unfold Dist.consumeFloat, bind, get_token, advance, ret.
  repeat match goal with |- context [if ?b then _ else _] => destruct b end;
    eexists; reflexivity.
Qed.

End Float.

(** ** Map insertion replaces the value under the same key (C8) *)

Section MapField.
Import Position.

Variable options : ParserOptions.
Variable lookupType : jsstring -> option MessageType.
Variable create : MessageType -> properties.
Variable Number_toString : number -> jsstring.

Lemma get_insert (m : properties) k v : get (<[k := v]> m) k = v.
Proof. unfold get. rewrite lookup_insert_eq. reflexivity. Qed.

(** What [assign] does to the own properties: a value there under the key
    is replaced; a key other than [__proto__] is bound to the value in
    any case; [__proto__], when it is no own property, leaves everything
    as it was; no other key changes. *)
Lemma assign_Some (own own' : gmap jsstring value) k v :
  assign own k v = Some own' ->
  (forall prior, own !! k = Some prior -> own' !! k = Some v)
  /\ (k <> js "__proto__" -> own' !! k = Some v)
  /\ (k = js "__proto__" -> own !! k = None -> own' = own)
  /\ (forall k', k' <> k -> own' !! k' = own !! k').
Proof.
  unfold assign, str_eqb. intros H.
  destruct (own !! k) as [old |] eqn:Hk.
  - injection H as <-.
    split; [intros; apply lookup_insert_eq |].
    split; [intros; apply lookup_insert_eq |].
    split; [discriminate |].
    intros k' Hk'. apply lookup_insert_ne. congruence.
  - destruct (bool_decide (k = js "__proto__")) eqn:Hp.
    + apply bool_decide_eq_true in Hp.
      destruct (is_primitive v); [| discriminate]. injection H as <-.
      split; [intros prior Hprior; congruence |].
      split; [intros Hne; contradiction |].
      split; [reflexivity |]. reflexivity.
    + apply bool_decide_eq_false in Hp. injection H as <-.
      split; [intros; apply lookup_insert_eq |].
      split; [intros; apply lookup_insert_eq |].
      split; [intros Heq; contradiction |].
      intros k' Hk'. apply lookup_insert_ne. congruence.
Qed.

(** [assign] gives up in one case only. *)
Lemma assign_None (own : gmap jsstring value) k v :
  (k = js "__proto__" -> own !! k = None -> is_primitive v = true) ->
  exists own', assign own k v = Some own'.
Proof.
  unfold assign, str_eqb. intros H.
  destruct (own !! k) as [old |] eqn:Hk; [eauto |].
  destruct (bool_decide (k = js "__proto__")) eqn:Hp; [| eauto].
  apply bool_decide_eq_true in Hp. rewrite (H Hp eq_refl). eauto.
Qed.

Lemma falsy_cases (v : value) :
  truthy v = false ->
  match v with
  | VUndefined => True
  | VScalar (SBytes _) | VArray _ | VObject _ | VMessage _ _ => False
  | VScalar _ => True
  end.
Proof. destruct v as [| [x | z | b | s | b] | l | entries | ty props]; simpl; auto; discriminate. Qed.

(** [set_entry] on a message that has a map under the field, or a falsy
    value: it returns when [assign] does, with the map [assign] gives. *)
Lemma set_entry_held message fname key v t entries :
  held message fname entries ->
  Src.set_entry Number_toString message fname key v t
  = match assign entries (to_property_key Number_toString key) v with
    | Some entries' => Ok (<[fname := VObject entries']> message) t
    | None => Unmodelled
    end.
Proof.
  unfold held, Src.set_entry, get.
  intros [-> | (old & -> & Hfalsy & ->)].
  - destruct (assign _ _ _); reflexivity.
  - pose proof (falsy_cases _ Hfalsy) as Hcase.
    destruct old as [| [x | z | b | s | b] | l | entries | ty props];
      try contradiction; cbv beta iota zeta; rewrite ?Hfalsy;
      destruct (assign _ _ _); reflexivity.
Qed.

Lemma mergeMapField_Ok fuel message field t message' t' :
  Src.mergeMapField options lookupType create Number_toString (S fuel) message field t
  = Ok message' t' ->
  message' = message
  \/ exists endToken t3 key v t4,
       Src.map_entry_loop options lookupType create Number_toString
         fuel field endToken None VUndefined t3 = Ok (key, v) t4
       /\ Src.set_entry Number_toString message (name field) key v t4
          = Ok message' t'.
Proof.
  cbn [Src.mergeMapField].
  intros H.
  apply bind_Ok in H as (_ & t1 & _ & H).
  apply bind_Ok in H as (endToken & t2 & _ & H).
  apply bind_Ok in H as (empty & t3 & _ & H).
  destruct empty.
  - left. unfold ret in H. congruence.
  - right. apply bind_Ok in H as ([key v] & t4 & Hloop & H).
    exists endToken, t3, key, v, t4. split; assumption.
Qed.

(** Whenever [mergeMapField] returns on a message that holds a map under
    the field: either the body was empty and the message is as before, or
    the entry loop has read a key and a value, and the field holds the map
    found there after the assignment of the value to the key; the other
    properties of the message are untouched. *)
Lemma mergeMapField_inserts (fuel : nat) (message : properties)
    (field : Field) (t : Tokenizer) (entries : gmap (list N) value)
    (message' : properties) (t' : Tokenizer) :
  held message (name field) entries ->
  Src.mergeMapField options lookupType create Number_toString
    (S fuel) message field t = Ok message' t' ->
  message' = message
  \/ exists endToken t3 key v t4 (entries' : gmap (list N) value),
       Src.map_entry_loop options lookupType create Number_toString
         fuel field endToken None VUndefined t3 = Ok (key, v) t4
       /\ assign entries (to_property_key Number_toString key) v = Some entries'
       /\ message' = <[name field := VObject entries']> message.
Proof.
  intros Hheld H.
  apply mergeMapField_Ok in H as [-> | (endToken & t3 & key & v & t4 & Hloop & H)];
    [auto |].
  right. rewrite (set_entry_held _ _ _ _ _ _ Hheld) in H.
  destruct (assign _ _ _) as [entries' |] eqn:Hassign; [| discriminate].
  injection H as <- _.
  exists endToken, t3, key, v, t4, entries'. auto.
Qed.

(** The entry [{ key: K value: V }] with a scalar value is read and
    inserted. *)

Lemma mergeMapField_S fuel message field :
  Src.mergeMapField options lookupType create Number_toString (S fuel) message field
  = (let* _ := tryConsume (js ":") in
     let* endToken := Src.open_delimiter in
     let* empty := tryConsume endToken in
     if empty then ret message
     else
       let* entry :=
         Src.map_entry_loop options lookupType create Number_toString
           fuel field endToken None VUndefined in
       Src.set_entry Number_toString message (name field) (fst entry) (snd entry)).
Proof. reflexivity. Qed.

Lemma map_entry_loop_S fuel field endToken key val :
  Src.map_entry_loop options lookupType create Number_toString
    (S fuel) field endToken key val
  = (let* name := consumeIdentifier in
     do consume (js ":") in
     let* entry :=
       if str_eqb name (js "key") then
         let* k := Src.parseScalar fuel (keyType field) in
         ret (Some k, val)
       else if str_eqb name (js "value") then
         let valueType := type field in
         let* v :=
           try_catch
             (match lookupType valueType with
              | None => throw (fun _ => Error (js "no such type"))
              | Some resolvedValueType =>
                  let subMessage := create resolvedValueType in
                  let dummyField :=
                    mkField (js "value") 2 valueType false false
                      (js "undefined") None (fullName resolvedValueType) in
                  let* subMessage :=
                    Src.mergeMessageField options lookupType create
                      Number_toString fuel subMessage dummyField false in
                  ret (VMessage resolvedValueType subMessage)
              end)
             (fun _ =>
                let* s := Src.parseScalar fuel valueType in
                ret (VScalar s)) in
         ret (key, v)
       else
         throw (parseError (js "Unexpected field in map entry: " ++ name)) in
     let* _ := tryConsume (js ",") in
     let* close := tryConsume endToken in
     if close then ret entry
     else
       Src.map_entry_loop options lookupType create Number_toString
         fuel field endToken (fst entry) (snd entry)).
Proof. reflexivity. Qed.

Lemma tryConsume_past s t :
  tryConsume s t = Ok (str_eqb (token t) s) (past s t).
Proof.
  unfold tryConsume, past, bind, get_token, advance, ret.
  destruct (str_eqb (token t) s); reflexivity.
Qed.

Lemma open_delimiter_ok t c :
  (token t = js "{" /\ c = js "}") \/ (token t = js "<" /\ c = js ">") ->
  Src.open_delimiter t = Ok c (nextToken t).
Proof.
  intros [[H ->] | [H ->]].
  - apply open_brace. exact H.
  - unfold Src.open_delimiter. step (tryConsume_hit (js "<") t H). reflexivity.
Qed.

(** The entry as a text: an optional colon, the body between braces or
    angle brackets, [key: K] and [value: V] with an optional comma after
    each, [V] being a scalar. *)
Lemma mergeMapField_entry (fuel : nat) (message : properties) (field : Field)
    (t : Tokenizer) (c : jsstring) (k v : scalar) (t4 t7 : Tokenizer)
    (entries entries' : gmap (list N) value) :
  let t1 := nextToken (past (js ":") t) in
  let t5 := past (js ",") t4 in
  (token (past (js ":") t) = js "{" /\ c = js "}")
  \/ (token (past (js ":") t) = js "<" /\ c = js ">") ->
  token t1 = js "key" -> token (nextToken t1) = js ":" ->
  Src.parseScalar (S fuel) (keyType field) (nextToken (nextToken t1)) = Ok k t4 ->
  token t5 = js "value" -> token (nextToken t5) = js ":" ->
  lookupType (type field) = None ->
  Src.parseScalar fuel (type field) (nextToken (nextToken t5)) = Ok v t7 ->
  token (past (js ",") t7) = c ->
  held message (name field) entries ->
  assign entries (to_property_key Number_toString (Some k)) (VScalar v)
  = Some entries' ->
  Src.mergeMapField options lookupType create Number_toString
    (S (S (S fuel))) message field t
  = Ok (<[name field := VObject entries']> message)
       (nextToken (past (js ",") t7)).
Proof.
  intros t1 t5 Hopen H1 H2 Hk H4 H5 Hty Hv H7 Hheld Hassign.
  assert (Hc : c = js "}" \/ c = js ">")
    by (destruct Hopen as [[_ ->] | [_ ->]]; auto).
  rewrite mergeMapField_S.
  step (tryConsume_past (js ":") t).
  step (open_delimiter_ok _ c Hopen). fold t1.
  step (tryConsume_miss c t1
          ltac:(rewrite H1; destruct Hc as [-> | ->]; discriminate)).
  cbv iota.
  (* first turn: key *)
  rewrite map_entry_loop_S.
  step (consumeIdentifier_ok t1 ltac:(rewrite H1; reflexivity)).
  rewrite H1.
  step (consume_hit (js ":") _ H2).
  change (str_eqb (js "key") (js "key")) with true. cbv iota.
  step Hk.
  step (tryConsume_past (js ",") t4). fold t5.
  step (tryConsume_miss c t5
          ltac:(rewrite H4; destruct Hc as [-> | ->]; discriminate)).
  cbv iota. cbn [fst snd].
  (* second turn: value *)
  rewrite map_entry_loop_S.
  step (consumeIdentifier_ok t5 ltac:(rewrite H4; reflexivity)).
  rewrite H4.
  step (consume_hit (js ":") _ H5).
  change (str_eqb (js "value") (js "key")) with false.
  change (str_eqb (js "value") (js "value")) with true. cbv iota zeta.
  rewrite Hty.
  assert (Hval :
    try_catch (throw (fun _ => Error (js "no such type")))
      (fun _ => let* s := Src.parseScalar fuel (type field) in
                ret (VScalar s)) (nextToken (nextToken t5)) = Ok (VScalar v) t7).
  { unfold bind, try_catch, throw. rewrite Hv. reflexivity. }
  step Hval.
  step (tryConsume_past (js ",") t7).
  step (tryConsume_hit c _ H7).
  cbv iota. rewrite ?bind_ret. cbn [fst snd].
  rewrite (set_entry_held _ _ _ _ _ _ Hheld), Hassign. reflexivity.
Qed.

(** C8.  Inserting a parsed map entry replaces the value stored under the
    same key and nothing else.  The message has a map under the field:
    the own properties [entries] of a plain object, none if it has a falsy
    value there.
    (1) Whenever [mergeMapField] returns, either the body was empty and
    the message is as before, or the field holds a map [entries'] that
    differs from [entries] at the key the entry loop has read, and there
    only: a value stored under the key is replaced by the value read; a
    key other than [__proto__] is bound to the value read whether it was
    bound or not; the key [__proto__], when [entries] does not have it,
    is the one that is not stored (the assignment reaches the setter of
    [Object.prototype]); the other properties of the message are
    untouched.
    (2) It does return on an entry [key: K value: V] between braces or
    angle brackets, after a colon or without one, with or without commas,
    whose key and value are scalars that [parseScalar] reads (for the key
    [__proto__] not held yet: a value that is not bytes); the map is then
    as in (1), for [K] and [V]. *)
Theorem map_insertion_replaces (fuel : nat) (message : properties)
    (field : Field) (t : Tokenizer) (entries : gmap (list N) value) :
  held message (name field) entries ->
  (forall (message' : properties) (t' : Tokenizer),
     Src.mergeMapField options lookupType create Number_toString
       (S fuel) message field t = Ok message' t' ->
     message' = message
     \/ exists endToken t3 key v t4 (entries' : gmap (list N) value),
          Src.map_entry_loop options lookupType create Number_toString
            fuel field endToken None VUndefined t3 = Ok (key, v) t4
          /\ get message' (name field) = VObject entries'
          /\ (forall prior,
                entries !! to_property_key Number_toString key = Some prior ->
                entries' !! to_property_key Number_toString key = Some v)
          /\ (to_property_key Number_toString key <> js "__proto__" ->
                entries' !! to_property_key Number_toString key = Some v)
          /\ (to_property_key Number_toString key = js "__proto__" ->
                entries !! to_property_key Number_toString key = None ->
                entries' = entries)
          /\ (forall k', k' <> to_property_key Number_toString key ->
                entries' !! k' = entries !! k')
          /\ (forall p, p <> name field -> message' !! p = message !! p))
  /\ (forall (c : jsstring) (k v : scalar) (t4 t7 : Tokenizer),
        (token (past (js ":") t) = js "{" /\ c = js "}")
        \/ (token (past (js ":") t) = js "<" /\ c = js ">") ->
        token (nextToken (past (js ":") t)) = js "key" ->
        token (nextToken (nextToken (past (js ":") t))) = js ":" ->
        Src.parseScalar (S fuel) (keyType field)
          (nextToken (nextToken (nextToken (past (js ":") t)))) = Ok k t4 ->
        token (past (js ",") t4) = js "value" ->
        token (nextToken (past (js ",") t4)) = js ":" ->
        lookupType (type field) = None ->
        Src.parseScalar fuel (type field)
          (nextToken (nextToken (past (js ",") t4))) = Ok v t7 ->
        token (past (js ",") t7) = c ->
        (to_property_key Number_toString (Some k) = js "__proto__" ->
           entries !! to_property_key Number_toString (Some k) = None ->
           is_primitive (VScalar v) = true) ->
        exists (message' : properties) (entries' : gmap (list N) value),
          Src.mergeMapField options lookupType create Number_toString
            (S (S (S fuel))) message field t
          = Ok message' (nextToken (past (js ",") t7))
          /\ get message' (name field) = VObject entries'
          /\ (forall prior,
                entries !! to_property_key Number_toString (Some k) = Some prior ->
                entries' !! to_property_key Number_toString (Some k)
                = Some (VScalar v))
          /\ (to_property_key Number_toString (Some k) <> js "__proto__" ->
                entries' !! to_property_key Number_toString (Some k)
                = Some (VScalar v))
          /\ (to_property_key Number_toString (Some k) = js "__proto__" ->
                entries !! to_property_key Number_toString (Some k) = None ->
                entries' = entries)
          /\ (forall k', k' <> to_property_key Number_toString (Some k) ->
                entries' !! k' = entries !! k')
          /\ (forall p, p <> name field -> message' !! p = message !! p)).
Proof.
  intros Hheld. split.
  - intros message' t' H.
    destruct (mergeMapField_inserts fuel message field t entries message' t'
                Hheld H)
      as [-> | (endToken & t3 & key & v & t4 & entries' & Hloop & Hassign & ->)];
      [auto |].
    right. exists endToken, t3, key, v, t4, entries'.
    destruct (assign_Some _ _ _ _ Hassign) as (Hprior & Hbound & Hproto & Hother).
    split; [exact Hloop |]. split; [apply get_insert |].
    split; [exact Hprior |]. split; [exact Hbound |].
    split; [exact Hproto |]. split; [exact Hother |].
    intros p Hp. apply lookup_insert_ne. congruence.
  - intros c k v t4 t7 Hopen H1 H2 Hk H4 H5 Hty Hv H7 Hprim.
    destruct (assign_None entries _ (VScalar v) Hprim) as [entries' Hassign].
    destruct (assign_Some _ _ _ _ Hassign) as (Hprior & Hbound & Hproto & Hother).
    exists (<[name field := VObject entries']> message), entries'.
    split.
    + apply (mergeMapField_entry fuel message field t c k v t4 t7 entries entries');
        assumption.
    + split; [apply get_insert |].
      split; [exact Hprior |]. split; [exact Hbound |].
      split; [exact Hproto |]. split; [exact Hother |].
      intros p Hp. apply lookup_insert_ne. congruence.
Qed.

End MapField.

(** ** Evaluations on [test.TestMessage] *)

Section Evaluations.
Import Fixture Position.

(** The last step of the scenario of the specification: on the message
    that holds [k1 -> 1] and [k2 -> 2], with the cursor after the name of
    the field, the entry [: { key:"k1" value: 9 }] is read and leaves
    [k1 -> 9] and [k2 -> 2]. *)
Lemma map_insertion_replaces_witness :
  exists (message' : properties) (entries' : gmap (list N) value),
    Src.mergeMapField (options false) lookupType create Number_toString
      6 two_entries stringIntMap
      (cursor 1 [txt "string_int_map: { key:`k1` value: 9 }"])
    = Ok message' (cursor 10 [txt "string_int_map: { key:`k1` value: 9 }"])
    /\ get message' (js "stringIntMap") = VObject entries'
    /\ entries' !! js "k1" = Some (number 9)
    /\ entries' !! js "k2" = Some (number 2).
Proof.
  destruct (proj2 (map_insertion_replaces (options false) lookupType create
                     Number_toString 3 two_entries stringIntMap
                     (cursor 1 [txt "string_int_map: { key:`k1` value: 9 }"])
                     (<[js "k1" := number 1]> (<[js "k2" := number 2]> ∅))
                     (or_introl eq_refl))
              (js "}") (SString (js "k1")) (SNumber (of_Z 9))
              (cursor 6 [txt "string_int_map: { key:`k1` value: 9 }"])
              (cursor 9 [txt "string_int_map: { key:`k1` value: 9 }"]))
    as (message' & entries' & Hrun & Hget & Hk1 & _ & _ & Hother & _).
  - left. split; vm_compute; reflexivity.
  - vm_compute. reflexivity.
  - vm_compute. reflexivity.
  - vm_compute. reflexivity.
  - vm_compute. reflexivity.
  - vm_compute. reflexivity.
  - vm_compute. reflexivity.
  - vm_compute. reflexivity.
  - vm_compute. reflexivity.
  - intros _ _. reflexivity.
  - exists message', entries'. split; [rewrite Hrun; vm_compute; reflexivity |].
    split; [exact Hget |]. split.
    + apply (Hk1 (number 1)). vm_compute. reflexivity.
    + rewrite (Hother (js "k2")) by discriminate.
      vm_compute. reflexivity.
Defined.

(** The scenario of the specification: after the entries for [k1] and
    [k2], a further entry for [k1] leaves [k2 -> 2] and [k1 -> 9]. *)
Lemma map_scenario :
  let r := run false [txt "string_int_map: { key: `k1` value: 1 }";
                      txt "string_int_map: { key: `k2` value: 2 }";
                      txt "string_int_map: { key:`k1` value: 9 }"] in
  entry r "stringIntMap" "k1" = Some (number 9)
  /\ entry r "stringIntMap" "k2" = Some (number 2).
Proof. split; vm_compute; reflexivity. Qed.

(** [two_entries] is what the first two lines of the scenario leave under
    the field. *)
Lemma two_entries_parsed :
  property (run false [txt "string_int_map: { key: `k1` value: 1 }";
                       txt "string_int_map: { key: `k2` value: 2 }"])
    "stringIntMap"
  = Some (get two_entries (js "stringIntMap")).
Proof. vm_compute. reflexivity. Qed.

(** The key [__proto__] is the one key a plain object does not take: the
    entry is read, and the map is as it was. *)
Lemma proto_entry_is_not_stored :
  let r := run false [txt "string_int_map: { key: `k1` value: 1 }";
                      txt "string_int_map: { key: `__proto__` value: 2 }"] in
  entry r "stringIntMap" "k1" = Some (number 1)
  /\ entry r "stringIntMap" "__proto__" = None
  /\ thrown r = None.
Proof. repeat split; vm_compute; reflexivity. Qed.

Lemma consumeFloat_never_throws_witness :
  Src.consumeFloat float_abc = Ok NaN (nextToken float_abc)
  /\ Src.mergeScalarField 1 ∅ (scalar_field "floatField" 13 "float" false) float_abc
     = Ok (<[js "floatField" := VScalar (SNumber NaN)]> ∅) (nextToken float_abc).
Proof.
  destruct (proj2 (proj2 (consumeFloat_never_throws float_abc))) as [H1 H2].
  - right. exists 97, (js "bc"). repeat split; vm_compute; reflexivity.
  - split; [exact H1 |].
    apply H2; try reflexivity. left. reflexivity.
Defined.

(** *** Integers (C1, C2) *)

(** C1 on [src/parser.ts].  The 32-bit consumers call [parseInt(token, 10)]
    and the 64-bit ones [BigInt(token)]: [042] is read as 42, [0x2A] as 0
    in a 32-bit field, and [-0x2A] is -0 in a 32-bit field and an error in
    a 64-bit field.  Only [42] is read as the claim says. *)
Theorem src_integers_ignore_the_base :
  property (run false [txt "int32_field: 042"]) "int32Field" = Some (number 42)
  /\ property (run false [txt "uint32_field: 042"]) "uint32Field" = Some (number 42)
  /\ property (run false [txt "int64_field: 042"]) "int64Field" = Some (bigint 42)
  /\ property (run false [txt "uint64_field: 042"]) "uint64Field" = Some (bigint 42)
  /\ property (run false [txt "int32_field: 0x2A"]) "int32Field" = Some (number 0)
  /\ property (run false [txt "int32_field: -0x2A"]) "int32Field"
     = Some (VScalar (SNumber (Finite true 0 0)))
  /\ thrown (run false [txt "int64_field: -0x2A"])
     = error_at 14 "Couldn't parse integer: -0x2A"
  /\ property (run false [txt "int32_field: 42"]) "int32Field" = Some (number 42).
Proof. repeat split; vm_compute; reflexivity. Qed.

(** The later revision [dist/src/parser.js] reads them through
    [parseInteger], in the base their text shows. *)
Lemma dist_integers_detect_the_base :
  property (run_dist false [txt "int32_field: 042"]) "int32Field" = Some (number 34)
  /\ property (run_dist false [txt "int32_field: 0x2A"]) "int32Field" = Some (number 42)
  /\ property (run_dist false [txt "int32_field: -0x2A"]) "int32Field"
     = Some (number (-42))
  /\ property (run_dist false [txt "int32_field: 42"]) "int32Field" = Some (number 42)
  /\ property (run_dist false [txt "uint32_field: 042"]) "uint32Field" = Some (number 34)
  /\ property (run_dist false [txt "uint32_field: 0X2a"]) "uint32Field" = Some (number 42)
  /\ property (run_dist false [txt "int64_field: 042"]) "int64Field" = Some (bigint 34)
  /\ property (run_dist false [txt "int64_field: 0x2A"]) "int64Field" = Some (bigint 42)
  /\ property (run_dist false [txt "int64_field: -0x2A"]) "int64Field"
     = Some (bigint (-42))
  /\ property (run_dist false [txt "int64_field: 42"]) "int64Field" = Some (bigint 42)
  /\ property (run_dist false [txt "uint64_field: 042"]) "uint64Field" = Some (bigint 34)
  /\ property (run_dist false [txt "uint64_field: 0x2A"]) "uint64Field"
     = Some (bigint 42).
Proof. repeat split; vm_compute; reflexivity. Qed.

(** On any cursor, whatever surrounds the token. *)
Lemma dist_consume_integer_examples t :
  (token t = js "042" ->
     Dist.consumeInt32 t = Ok (of_Z 34) (nextToken t)
     /\ Dist.consumeInt64 t = Ok 34%Z (nextToken t))
  /\ (token t = js "0x2A" ->
        Dist.consumeInt32 t = Ok (of_Z 42) (nextToken t)
        /\ Dist.consumeInt64 t = Ok 42%Z (nextToken t))
  /\ (token t = js "-0x2A" ->
        Dist.consumeInt32 t = Ok (of_Z (-42)) (nextToken t)
        /\ Dist.consumeInt64 t = Ok (-42)%Z (nextToken t))
  /\ (token t = js "42" ->
        Dist.consumeInt32 t = Ok (of_Z 42) (nextToken t)
        /\ Dist.consumeInt64 t = Ok 42%Z (nextToken t)).
Proof.
  unfold Dist.consumeInt32, Dist.consumeInt64, Dist.consume_integer,
    bind, get_token, advance, ret.
  repeat match goal with
         | |- _ /\ _ => split
         | |- _ -> _ => intros ->
         end; reflexivity.
Qed.

(** C2.  Neither revision checks the range (both carry the comment
    [TODO: Add range check]): a token outside the field's domain is
    returned as it is. *)
Theorem integers_out_of_range_are_accepted :
  property (run false [txt "int32_field: 4294967296"]) "int32Field"
  = Some (number 4294967296)
  /\ property (run false [txt "uint32_field: -1"]) "uint32Field" = Some (number (-1))
  /\ property (run false [txt "int64_field: 9223372036854775808"]) "int64Field"
     = Some (bigint 9223372036854775808)
  /\ property (run false [txt "uint64_field: -1"]) "uint64Field" = Some (bigint (-1))
  /\ property (run_dist false [txt "int32_field: 4294967296"]) "int32Field"
     = Some (number 4294967296)
  /\ property (run_dist false [txt "uint32_field: -1"]) "uint32Field"
     = Some (number (-1))
  /\ property (run_dist false [txt "int64_field: 9223372036854775808"]) "int64Field"
     = Some (bigint 9223372036854775808)
  /\ property (run_dist false [txt "uint64_field: -1"]) "uint64Field"
     = Some (bigint (-1)).
Proof. repeat split; vm_compute; reflexivity. Qed.

End Evaluations.

(** What the claim says of the error is so: a token that is no integer is
    reported as [Couldn't parse integer: <token>] at the position of that
    token, which is by then the previous one. *)
Lemma consumeInt32_error t :
  parseInt (token t) 10 = NaN ->
  Src.consumeInt32 t
  = Throw (ParseError (js "Couldn't parse integer: " ++ token t)
             (Some (_line t + 1)%Z) (Some (_column t + 1)%Z))
      (nextToken t).
Proof.
  intros H. unfold Src.consumeInt32, bind, get_token, advance, throw.
  rewrite H. cbn [isNaN]. unfold parseErrorPreviousToken.
  pose proof (proj2 (nextToken_position t)) as Hp.
  unfold Position.previous_position, Position.position in Hp.
  injection Hp as -> ->. reflexivity.
Qed.

Lemma consumeInt64_error t :
  BigInt_of_string (token t) = None ->
  Src.consumeInt64 t
  = Throw (ParseError (js "Couldn't parse integer: " ++ token t)
             (Some (_line t + 1)%Z) (Some (_column t + 1)%Z))
      (nextToken t).
Proof.
  intros H. unfold Src.consumeInt64, bind, get_token, advance, throw.
  rewrite H. unfold parseErrorPreviousToken.
  pose proof (proj2 (nextToken_position t)) as Hp.
  unfold Position.previous_position, Position.position in Hp.
  injection Hp as -> ->. reflexivity.
Qed.

Section MoreEvaluations.
Import Fixture.

(** *** Floats (C3) *)

(** C3 on [src/parser.ts].  [consumeFloat] hands the token to
    [parseFloat], which knows no [inf], [infinity] or [nan]: the tokens
    [inf], [-inf], [infinity] and [-infinity] all give NaN.  A trailing
    [f] is sliced off; a trailing [F] is left to [parseFloat], which stops
    in front of it. *)
Theorem src_float_has_no_inf :
  property (run false [txt "float_field: inf"]) "floatField"
  = Some (VScalar (SNumber NaN))
  /\ property (run false [txt "float_field: -inf"]) "floatField"
     = Some (VScalar (SNumber NaN))
  /\ property (run false [txt "float_field: Infinity"]) "floatField"
     = Some (VScalar (SNumber (Infinity false)))
  /\ property (run false [txt "float_field: infinity"]) "floatField"
     = Some (VScalar (SNumber NaN))
  /\ property (run false [txt "double_field: -INF"]) "doubleField"
     = Some (VScalar (SNumber NaN))
  /\ property (run false [txt "float_field: nan"]) "floatField"
     = Some (VScalar (SNumber NaN))
  /\ property (run false [txt "float_field: 3.14f"]) "floatField"
     = Some (VScalar (SNumber (Finite false 314 (-2))))
  /\ property (run false [txt "float_field: 3.14F"]) "floatField"
     = Some (VScalar (SNumber (Finite false 314 (-2)))).
Proof. repeat split; vm_compute; reflexivity. Qed.


Lemma dist_float_examples :
  property (run_dist false [txt "float_field: inf"]) "floatField"
  = Some (VScalar (SNumber (Infinity false)))
  /\ property (run_dist false [txt "float_field: -Inf"]) "floatField"
     = Some (VScalar (SNumber (Infinity true)))
  /\ property (run_dist false [txt "float_field: INFINITY"]) "floatField"
     = Some (VScalar (SNumber (Infinity false)))
  /\ property (run_dist false [txt "float_field: -infinity"]) "floatField"
     = Some (VScalar (SNumber (Infinity true)))
  /\ property (run_dist false [txt "float_field: NaN"]) "floatField"
     = Some (VScalar (SNumber NaN))
  /\ property (run_dist false [txt "float_field: 3.14f"]) "floatField"
     = Some (VScalar (SNumber (Finite false 314 (-2))))
  /\ property (run_dist false [txt "float_field: 3.14F"]) "floatField"
     = Some (VScalar (SNumber (Finite false 314 (-2)))).
Proof. repeat split; vm_compute; reflexivity. Qed.

(** *** Adjacent literals (C4) *)

(** C4 on [src/parser.ts].  [consumeString] loops over the adjacent
    literals, [consumeByteString] reads one: for a [bytes] field the second
    literal is left for [mergeField], which takes it for a field name and
    throws. *)
Theorem src_bytes_take_one_literal :
  property (run false [txt "string_field: `a` `b`"]) "stringField"
  = Some (text "ab")
  /\ property (run false [txt "string_field: `a` 'b'"]) "stringField"
     = Some (text "ab")
  /\ property (run false [txt "bytes_field: `ab`"]) "bytesField"
     = Some (VScalar (SBytes [97; 98]))
  /\ thrown (run false [txt "bytes_field: `a` `b`"])
     = error_at 18 "Expected identifier or number, got `b`.".
Proof. repeat split; vm_compute; reflexivity. Qed.

Lemma dist_adjacent_literals :
  property (run_dist false [txt "string_field: `a` `b`"]) "stringField"
  = property (run_dist false [txt "string_field: `ab`"]) "stringField"
  /\ property (run_dist false [txt "string_field: `a` 'b'"]) "stringField"
     = Some (text "ab")
  /\ property (run_dist false [txt "bytes_field: `a` `b`"]) "bytesField"
     = property (run_dist false [txt "bytes_field: `ab`"]) "bytesField"
  /\ property (run_dist false [txt "bytes_field: 'a' `b`"]) "bytesField"
     = Some (VScalar (SBytes [97; 98])).
Proof. repeat split; vm_compute; reflexivity. Qed.

(** *** Escapes (C5) *)

(** C5.  In [src/parser.ts] a simple escape adds its character and leaves
    the index on the letter, which the next turn adds as well: [\n] gives
    LF and [n], [\t] TAB and [t], and [\\] goes on to read past the end.
    [\U0010FFFF] gives U+FFFF.  In both revisions the [default] case does
    the same for any other [\c]: [\q] gives [qq]. *)
Theorem escapes_are_doubled :
  Src.cUnescape (js "\n") = inl [10; 110]
  /\ Src.cUnescape (js "\t") = inl [9; 116]
  /\ Src.cUnescape (js "\\") = inl (92 :: js "undefined")
  /\ Src.cUnescape (js "\U0010FFFF") = inl [0xFFFF]
  /\ property (run false [txt "string_field: `\n`"]) "stringField"
     = Some (VScalar (SString [10; 110]))
  /\ Src.cUnescape (js "\q") = inl (js "qq")
  /\ Dist.cUnescape (js "\q") = inl (js "qq")
  /\ property (run_dist false [txt "string_field: `\q`"]) "stringField"
     = Some (text "qq").
Proof. repeat split; vm_compute; reflexivity. Qed.

(** The four examples of the claim hold in both revisions, and so do the
    simple escapes in [dist/src/parser.js]. *)
Lemma escape_examples :
  Src.cUnescape (js "\1234") = inl [0x53; 52]
  /\ Src.cUnescape (js "\x213") = inl [0x21; 51]
  /\ Src.cUnescape (js "\xFHello") = inl (0x0F :: js "Hello")
  /\ Src.cUnescape (js "\0") = inl [0]
  /\ Src.cUnescape (js "\0z") = inl [0; 122]
  /\ Dist.cUnescape (js "\1234") = inl [0x53; 52]
  /\ Dist.cUnescape (js "\x213") = inl [0x21; 51]
  /\ Dist.cUnescape (js "\xFHello") = inl (0x0F :: js "Hello")
  /\ Dist.cUnescape (js "\0") = inl [0]
  /\ Dist.cUnescape (js "\a\b\f\n\r\t\v\?\\\'") = inl [7; 8; 12; 10; 13; 9; 11; 63; 92; 39]
  /\ Dist.cUnescape [92; 34] = inl [34]
  /\ Dist.cUnescape (js "\u20AC") = inl [0x20AC]
  /\ Dist.cUnescape (js "\U0001F600") = inl [0xD83D; 0xDE00]
  /\ Dist.cUnescape (js "\U0010FFFF") = inl [0xDBFF; 0xDFFF].
Proof. repeat split; vm_compute; reflexivity. Qed.

(** *** Unknown fields (C6) *)

(** C6 on [src/parser.ts].  After the colon [skipField] asks for an
    identifier or number: a quoted string, a signed or fractional number
    and a list all throw, and a body may hold nothing but bodies. *)
Theorem src_skipField_rejects_strings :
  thrown (run true [txt "unknown_field: `x`"; txt "string_field: `y`"])
  = error_at 16 "Expected identifier or number, got `x`."
  /\ thrown (run true [txt "unknown_field: -1"])
     = error_at 16 "Expected identifier or number, got -1."
  /\ thrown (run true [txt "unknown_field: [1, 2]"])
     = error_at 16 "Expected identifier or number, got [."
  /\ thrown (run true [txt "unknown_field { a: 1 }"])
     = error_at 17 "Expected `{`."
  /\ property (run true [txt "unknown_field: x"; txt "string_field: `y`"])
       "stringField" = Some (text "y")
  /\ property (run true [txt "unknown_field { < > }"; txt "string_field: `y`"])
       "stringField" = Some (text "y").
Proof. repeat split; vm_compute; reflexivity. Qed.

Lemma dist_skips_unknown_fields :
  property (run_dist true [txt "unknown_field: `x`"; txt "string_field: `y`"])
    "stringField" = Some (text "y")
  /\ property (run_dist true [txt "unknown_field: -1.5e3"; txt "string_field: `y`"])
       "stringField" = Some (text "y")
  /\ property (run_dist true [txt "unknown_field: ident"; txt "string_field: `y`"])
       "stringField" = Some (text "y")
  /\ property (run_dist true [txt "unknown_field: [1, `two`, { a: 1 }]";
                              txt "string_field: `y`"])
       "stringField" = Some (text "y")
  /\ property (run_dist true [txt "unknown_field { a: 1 b < c: 'x' > }";
                              txt "string_field: `y`"])
       "stringField" = Some (text "y")
  /\ thrown (run_dist true [txt "unknown_field: `x`"; txt "string_field: `y`"])
     = None.
Proof. repeat split; vm_compute; reflexivity. Qed.

(** *** Repeated enums (C7) *)

(** C7 on [src/parser.ts].  The enum branch of [mergeField] has the colon
    and one value; the list form is in the scalar branch only.  The
    bracket of a repeated enum is taken for the value and refused. *)
Theorem src_enum_has_no_list_form :
  thrown (run false [txt "repeated_enum: [ENUM_VALUE_ONE, ENUM_VALUE_TWO]"])
  = error_at 16 "Expected identifier or number, got [."
  /\ property (run false [txt "repeated_int32: [1, 2]"]) "repeatedInt32"
     = Some (VArray [number 1; number 2])
  /\ property (run false [txt "repeated_enum: ENUM_VALUE_ONE";
                          txt "repeated_enum: ENUM_VALUE_TWO"]) "repeatedEnum"
     = Some (VArray [number 1; number 2])
  /\ thrown (run false [txt "repeated_enum ENUM_VALUE_ONE"])
     = error_at 15 "Expected `:`.".
Proof. repeat split; vm_compute; reflexivity. Qed.

Lemma dist_enum_list_form :
  property (run_dist false [txt "repeated_enum: [ENUM_VALUE_ONE, ENUM_VALUE_TWO]"])
    "repeatedEnum" = Some (VArray [number 1; number 2])
  /\ property (run_dist false [txt "repeated_enum: ENUM_VALUE_ZERO";
                               txt "repeated_enum: [ENUM_VALUE_ONE, 2, NEGATIVE_VALUE]"])
       "repeatedEnum"
     = Some (VArray [number 0; number 1; number 2; number (-1)])
  /\ thrown (run_dist false [txt "repeated_enum [ENUM_VALUE_ONE]"])
     = error_at 15 "Expected `:`.".
Proof. repeat split; vm_compute; reflexivity. Qed.

End MoreEvaluations.

(** ** Adjacent literals are concatenated (the part of C4 that holds) *)

Section AdjacentLiterals.
Import Position.

Lemma decoded_starts_quoted unescape tok p :
  decoded unescape tok = Some p -> Src.starts_quoted tok = true.
Proof.
  unfold decoded, Src.starts_quoted. destruct tok as [| q tok]; [discriminate |].
  destruct (is_quote q); [reflexivity | discriminate].
Qed.

Lemma Src__consumeByteString_decoded t p :
  decoded Src.cUnescape (token t) = Some p ->
  Src._consumeByteString t = Ok p (nextToken t).
Proof.
  unfold decoded, Src._consumeByteString, bind, get_token, advance, ret.
  destruct (token t) as [| q tok] eqn:Htok; [discriminate |].
  destruct (is_quote q); cbn [negb andb]; [| discriminate].
  destruct (2 <=? List.length (q :: tok))%nat eqn:Hlen; cbn [andb];
    [| discriminate].
  destruct (bool_decide (last (q :: tok) = Some q)); [| discriminate].
  assert (Hlt : (List.length (q :: tok) <? 2)%nat = false)
    by (apply Nat.ltb_ge; apply Nat.leb_le in Hlen; exact Hlen).
  rewrite Hlt. cbn [negb orb].
  destruct (Src.cUnescape _); [| discriminate].
  intros [= ->]. reflexivity.
Qed.

Lemma Dist__consumeByteString_decoded t p :
  decoded Dist.cUnescape (token t) = Some p ->
  Dist._consumeByteString t = Ok p (nextToken t).
Proof.
  unfold decoded, Dist._consumeByteString, bind, get_token, advance, ret.
  destruct (token t) as [| q tok] eqn:Htok; [discriminate |].
  destruct (is_quote q); cbn [negb andb]; [| discriminate].
  destruct (2 <=? List.length (q :: tok))%nat eqn:Hlen; cbn [andb];
    [| discriminate].
  destruct (bool_decide (last (q :: tok) = Some q)); [| discriminate].
  assert (Hlt : (List.length (q :: tok) <? 2)%nat = false)
    by (apply Nat.ltb_ge; apply Nat.leb_le in Hlen; exact Hlen).
  rewrite Hlt. cbn [negb orb].
  destruct (Dist.cUnescape _); [| discriminate].
  intros [= ->]. reflexivity.
Qed.

Lemma Src_consumeString_loop_literals parts : forall fuel result t,
  literals Src.cUnescape t parts ->
  (List.length parts < fuel)%nat ->
  Src.consumeString_loop fuel result t
  = Ok (result ++ concat parts) (skip_tokens (List.length parts) t).
Proof.
  induction parts as [| p parts IH]; intros fuel result t Hrun Hfuel;
    (destruct fuel as [| fuel]; [simpl in Hfuel; lia |]);
    cbn [Src.consumeString_loop literals] in *.
  - unfold bind, get_token, ret. rewrite Hrun.
    cbn [concat]. rewrite app_nil_r. reflexivity.
  - destruct Hrun as [Hp Hrest].
    unfold bind at 1. unfold get_token.
    rewrite (decoded_starts_quoted _ _ _ Hp).
    rewrite (bind_ok _ _ _ _ _ (Src__consumeByteString_decoded t p Hp)).
    rewrite (IH fuel (result ++ p) (nextToken t) Hrest)
      by (simpl in Hfuel; lia).
    cbn [concat List.length skip_tokens]. rewrite app_assoc. reflexivity.
Qed.

Lemma Dist_consumeString_loop_literals parts : forall fuel result t,
  literals Dist.cUnescape t parts ->
  (List.length parts < fuel)%nat ->
  Dist.consumeString_loop fuel result t
  = Ok (result ++ concat parts) (skip_tokens (List.length parts) t).
Proof.
  induction parts as [| p parts IH]; intros fuel result t Hrun Hfuel;
    (destruct fuel as [| fuel]; [simpl in Hfuel; lia |]);
    cbn [Dist.consumeString_loop literals] in *.
  - unfold bind, get_token, ret. rewrite Hrun.
    cbn [concat]. rewrite app_nil_r. reflexivity.
  - destruct Hrun as [Hp Hrest].
    unfold bind at 1. unfold get_token.
    rewrite (decoded_starts_quoted _ _ _ Hp).
    rewrite (bind_ok _ _ _ _ _ (Dist__consumeByteString_decoded t p Hp)).
    rewrite (IH fuel (result ++ p) (nextToken t) Hrest)
      by (simpl in Hfuel; lia).
    cbn [concat List.length skip_tokens]. rewrite app_assoc. reflexivity.
Qed.

(** X6. [consumeString] of [src/parser.ts]: a run of adjacent literals, in
    either quote style, gives the concatenation of their payloads and
    leaves the cursor after the run. *)
Lemma Src_consumeString_concatenates t p parts fuel :
  literals Src.cUnescape t (p :: parts) ->
  (List.length parts < fuel)%nat ->
  Src.consumeString fuel t
  = Ok (concat (p :: parts)) (skip_tokens (S (List.length parts)) t).
Proof.
  intros [Hp Hrest] Hfuel. unfold Src.consumeString.
  rewrite (bind_ok _ _ _ _ _ (Src__consumeByteString_decoded t p Hp)).
  apply Src_consumeString_loop_literals; assumption.
Qed.

(** X7. [consumeString] and [consumeByteString] of [dist/src/parser.js]: a
    run of adjacent literals gives the concatenation of their payloads and
    leaves the cursor after the run, the bytes being the units of the
    concatenation modulo 256, which are the bytes of the parts one after
    the other. *)
Lemma Dist_consumeString_concatenates t p parts fuel :
  literals Dist.cUnescape t (p :: parts) ->
  (List.length parts < fuel)%nat ->
  Dist.consumeString fuel t
  = Ok (concat (p :: parts)) (skip_tokens (S (List.length parts)) t)
  /\ Dist.consumeByteString fuel t
     = Ok (concat (List.map Src.to_Uint8Array (p :: parts)))
         (skip_tokens (S (List.length parts)) t).
Proof.
  intros [Hp Hrest] Hfuel. unfold Dist.consumeString, Dist.consumeByteString.
  split.
  - rewrite (bind_ok _ _ _ _ _ (Dist__consumeByteString_decoded t p Hp)).
    apply Dist_consumeString_loop_literals; assumption.
  - rewrite (bind_ok _ _ _ _ _ (Dist__consumeByteString_decoded t p Hp)).
    rewrite (bind_ok _ _ _ _ _
               (Dist_consumeString_loop_literals parts fuel p (nextToken t)
                  Hrest Hfuel)).
    unfold ret. f_equal.
    unfold Src.to_Uint8Array. cbn [concat List.map].
    rewrite List.map_app, List.concat_map. reflexivity.
Qed.

(** [consumeByteString] of [src/parser.ts] stops after the first literal
    of the run. *)
Lemma Src_consumeByteString_first_only t p parts :
  literals Src.cUnescape t (p :: parts) ->
  Src.consumeByteString t = Ok (Src.to_Uint8Array p) (nextToken t).
Proof.
  intros [Hp _]. unfold Src.consumeByteString.
  rewrite (bind_ok _ _ _ _ _ (Src__consumeByteString_decoded t p Hp)).
  reflexivity.
Qed.

End AdjacentLiterals.

(** ** Map insertion in [dist/src/parser.js] *)

Section DistMapField.
Import Position.

Variable options : ParserOptions.
Variable lookupType : jsstring -> option MessageType.
Variable create : MessageType -> properties.
Variable Number_toString : number -> jsstring.

Lemma dist_mergeMapFieldEntry_Ok fuel message field t message' t' :
  Dist.mergeMapFieldEntry options lookupType create Number_toString
    fuel message field t = Ok message' t' ->
  message' = message
  \/ exists key v t1,
       Src.set_entry Number_toString message (name field) key v t1
       = Ok message' t'.
Proof.
  destruct fuel as [| fuel]; [discriminate |].
  cbn [Dist.mergeMapFieldEntry].
  intros H.
  apply bind_Ok in H as (endToken & t2 & _ & H).
  apply bind_Ok in H as (empty & t3 & _ & H).
  destruct empty.
  - left. unfold ret in H. congruence.
  - right. apply bind_Ok in H as ([key v] & t4 & _ & H). eauto.
Qed.


End DistMapField.

(** ** Columns are never negative *)

Section Columns.
Import Position.

Lemma _skipWhitespace_loop_column fuel : forall t,
  (0 <= _column t)%Z -> (0 <= _column (_skipWhitespace_loop fuel t))%Z.
Proof.
  induction fuel as [| fuel IH]; intros t Ht; simpl; [exact Ht |].
  pose proof (_popLine_loop_column (_lines t) t Ht) as Hpop.
  fold (_popLine t) in Hpop.
  destruct (negb (_more_lines (_popLine t))); [exact Hpop |].
  destruct (_WHITESPACE_OR_COMMENT _) as [| n]; [exact Hpop |].
  apply IH. simpl. lia.
Qed.

Lemma nextToken_column t : (0 <= _column t)%Z -> (0 <= _column (nextToken t))%Z.
Proof.
  intros Ht. unfold nextToken.
  set (t2 := set_column _ (set_previous _ _ t)).
  assert (H2 : (0 <= _column t2)%Z) by (simpl; lia).
  pose proof (_skipWhitespace_loop_column
                (2 * List.length (_lines t2) + 3) t2 H2) as H3.
  fold (_skipWhitespace t2) in H3.
  destruct (negb _); [exact H3 |].
  destruct (skipn _ _) as [| c rest]; [exact H3 |].
  destruct (_TOKEN _); exact H3.
Qed.

(** Every cursor a run of the tokenizer goes through has a column that is
    not negative, which is what [_skipWhitespace_fuel] asks for. *)
Lemma after_column n lines : (0 <= _column (after n lines))%Z.
Proof.
  induction n as [| n IH].
  - unfold after, Nat.iter, nat_rect, new_Tokenizer.
    apply nextToken_column. apply _popLine_loop_column. simpl. lia.
  - rewrite after_S. apply nextToken_column. exact IH.
Qed.

End Columns.

Section LiteralRuns.
Import Fixture Position.

(** A run of three literals in mixed quote styles, on the cursor after
    [string_field] and the colon. *)
Lemma Src_consumeString_concatenates_witness :
  let t := cursor 2 [txt "string_field: `Hello, ` 'wor' `ld` int32_field: 1"] in
  Src.consumeString 3 t
  = Ok (concat [js "Hello, "; js "wor"; js "ld"]) (skip_tokens 3 t).
Proof.
  cbv zeta.
  apply (Src_consumeString_concatenates _ (js "Hello, ") [js "wor"; js "ld"] 3).
  - repeat split; vm_compute; reflexivity.
  - simpl. lia.
Defined.

Lemma Dist_consumeString_concatenates_witness :
  let t := cursor 2 [txt "bytes_field: `a` 'b'"] in
  Dist.consumeByteString 2 t = Ok [97; 98] (skip_tokens 2 t).
Proof.
  cbv zeta.
  apply (Dist_consumeString_concatenates _ (js "a") [js "b"] 2).
  - repeat split; vm_compute; reflexivity.
  - simpl. lia.
Defined.

End LiteralRuns.

(* ================================================================== *)
(** * Further properties *)
(* ================================================================== *)

Import Cursor Text Store Run.

(** ** Field names: [toCamelCase] and [toPascalCase] *)

Section CamelCase.

Lemma upper_unit_not_lower d : is_lower d = true -> is_lower (upper_unit d) = false.
Proof. unfold upper_unit. intros H. rewrite H. chars. Qed.

Lemma upper_unit_not_underscore d : is_lower d = true -> (upper_unit d =? 95) = false.
Proof. unfold upper_unit. intros H. rewrite H. chars. Qed.

Lemma toCamelCase_head s :
  starts_lower s = false -> starts_lower (toCamelCase s) = false.
Proof.
  destruct s as [| c rest]; [reflexivity |]. cbn [starts_lower toCamelCase].
  intros Hc. destruct (c =? 95) eqn:E; [| exact Hc].
  destruct rest as [| d rest']; [exact Hc |].
  destruct (is_lower d) eqn:Hd; [| exact Hc].
  cbn [starts_lower]. apply upper_unit_not_lower. exact Hd.
Qed.

Lemma toCamelCase_underscore x :
  starts_lower x = false -> toCamelCase (95 :: x) = 95 :: toCamelCase x.
Proof.
  destruct x as [| d x]; [reflexivity |]. cbn [starts_lower].
  intros Hd. cbn [toCamelCase]. change (95 =? 95) with true. cbv iota.
  rewrite Hd. reflexivity.
Qed.

Lemma toCamelCase_idem_bounded n : forall s,
  (List.length s <= n)%nat -> toCamelCase (toCamelCase s) = toCamelCase s.
Proof.
  induction n as [| n IH]; intros s Hn.
  - destruct s; [reflexivity | simpl in Hn; lia].
  - destruct s as [| c rest]; [reflexivity |].
    simpl in Hn. cbn [toCamelCase].
    destruct (c =? 95) eqn:Ec.
    + apply N.eqb_eq in Ec. subst c.
      destruct rest as [| d rest']; [reflexivity |].
      destruct (is_lower d) eqn:Hd.
      * cbn [toCamelCase]. rewrite (upper_unit_not_underscore d Hd).
        f_equal. apply IH. simpl in Hn. lia.
      * rewrite toCamelCase_underscore
          by (apply toCamelCase_head; exact Hd).
        f_equal. apply IH. lia.
    + cbn [toCamelCase]. rewrite Ec. f_equal. apply IH. lia.
Qed.

Lemma toCamelCase_plain s :
  forallb (fun c => negb (c =? 95)) s = true -> toCamelCase s = s.
Proof.
  induction s as [| c s IH]; [reflexivity |].
  cbn [forallb toCamelCase]. intros H. apply andb_true_iff in H as [Hc Hs].
  apply negb_true_iff in Hc. rewrite Hc. f_equal. apply IH. exact Hs.
Qed.

(** X15. [toCamelCase] applied twice gives what it gives once; a name
    without an underscore is left as it is; the result is never longer
    than the name. *)
Theorem toCamelCase_settles (s : jsstring) :
  toCamelCase (toCamelCase s) = toCamelCase s
  /\ (no_underscore s = true -> toCamelCase s = s)
  /\ (List.length (toCamelCase s) <= List.length s)%nat.
Proof.
  split; [apply (toCamelCase_idem_bounded (List.length s)); lia |].
  split; [apply toCamelCase_plain |].
  assert (H : forall n s, (List.length s <= n)%nat ->
                (List.length (toCamelCase s) <= List.length s)%nat).
  { clear s. induction n as [| n IH]; intros s Hn.
    - destruct s; simpl in *; lia.
    - destruct s as [| c rest]; [simpl; lia |]. simpl in Hn.
      cbn [toCamelCase]. destruct (c =? 95).
      + destruct rest as [| d rest']; [simpl; lia |].
        destruct (is_lower d).
        * simpl in *. specialize (IH rest' ltac:(lia)). lia.
        * specialize (IH (d :: rest') ltac:(simpl in *; lia)).
          cbn [List.length] in *. lia.
      + specialize (IH rest ltac:(lia)). cbn [List.length]. lia. }
  apply (H (List.length s)). lia.
Qed.

Lemma toPascalCase_from_no_underscore s : forall up,
  forallb (fun c => negb (c =? 95)) (toPascalCase_from up s) = true.
Proof.
  induction s as [| c s IH]; intros up; [reflexivity |].
  cbn [toPascalCase_from]. destruct (c =? 95) eqn:Ec; [apply IH |].
  cbn [forallb]. rewrite IH, andb_true_r.
  destruct up; [| rewrite Ec; reflexivity].
  unfold upper_unit. destruct (is_lower c) eqn:Hl; [| rewrite Ec; reflexivity].
  apply negb_true_iff. chars.
Qed.

Lemma toPascalCase_from_length s : forall up,
  (List.length (toPascalCase_from up s) <= List.length s)%nat.
Proof.
  induction s as [| c s IH]; intros up; [reflexivity |].
  cbn [toPascalCase_from]. destruct (c =? 95).
  - specialize (IH true). simpl. lia.
  - specialize (IH false). simpl. lia.
Qed.


End CamelCase.

(** ** [cUnescape] on plain text, from left to right, and its one error *)

Section Unescape.

Lemma nth_error_skipn_cons {A} (s : list A) i c :
  nth_error s i = Some c -> skipn i s = c :: skipn (S i) s.
Proof.
  revert i. induction s as [| a s IH]; intros [| i] H; try discriminate.
  - injection H as ->. reflexivity.
  - simpl in H. apply IH in H. exact H.
Qed.

Lemma no_backslash_nth s i c :
  no_backslash s = true -> nth_error s i = Some c -> (c =? 92) = false.
Proof.
  unfold no_backslash. rewrite List.forallb_forall. intros H Hn.
  apply negb_true_iff. apply H. eapply nth_error_In. exact Hn.
Qed.

Lemma Src_cUnescape_loop_plain s : forall fuel i result,
  no_backslash s = true -> (List.length s <= i + fuel)%nat ->
  Src.cUnescape_loop fuel s i result = inl (result ++ skipn i s).
Proof.
  induction fuel as [| fuel IH]; intros i result Hs Hlen.
  - rewrite skipn_all2 by lia. rewrite app_nil_r. reflexivity.
  - cbn [Src.cUnescape_loop].
    destruct (nth_error s i) as [c |] eqn:Hn.
    + rewrite (no_backslash_nth s i c Hs Hn).
      rewrite IH by (auto; lia).
      rewrite (nth_error_skipn_cons s i c Hn), <- app_assoc. reflexivity.
    + apply nth_error_None in Hn. rewrite skipn_all2 by lia.
      rewrite app_nil_r. reflexivity.
Qed.

Lemma Dist_cUnescape_loop_plain s : forall fuel i result,
  no_backslash s = true -> (List.length s <= i + fuel)%nat ->
  Dist.cUnescape_loop fuel s i result = inl (result ++ skipn i s).
Proof.
  induction fuel as [| fuel IH]; intros i result Hs Hlen.
  - rewrite skipn_all2 by lia. rewrite app_nil_r. reflexivity.
  - cbn [Dist.cUnescape_loop].
    destruct (nth_error s i) as [c |] eqn:Hn.
    + rewrite (no_backslash_nth s i c Hs Hn).
      rewrite IH by (auto; lia).
      rewrite (nth_error_skipn_cons s i c Hn), <- app_assoc. reflexivity.
    + apply nth_error_None in Hn. rewrite skipn_all2 by lia.
      rewrite app_nil_r. reflexivity.
Qed.

(** X8. A text without a backslash is its own decoding, in both
    revisions of [cUnescape]. *)
Theorem cUnescape_plain_text (s : jsstring) :
  no_backslash s = true ->
  Src.cUnescape s = inl s /\ Dist.cUnescape s = inl s.
Proof.
  intros Hs. unfold Src.cUnescape, Dist.cUnescape.
  rewrite Src_cUnescape_loop_plain, Dist_cUnescape_loop_plain by (auto; lia).
  split; reflexivity.
Qed.

End Unescape.

Section Compose.

Lemma prepend_app a b r : prepend (a ++ b) r = prepend a (prepend b r).
Proof. destruct r; simpl; [rewrite app_assoc |]; reflexivity. Qed.

Lemma collect_while_shift n p (a b : jsstring) : forall i acc,
  Src.collect_while n p (a ++ b) (List.length a + i) acc
  = (fst (Src.collect_while n p b i acc),
     (List.length a + snd (Src.collect_while n p b i acc))%nat).
Proof.
  induction n as [| n IH]; intros i acc; cbn [Src.collect_while]; [reflexivity |].
  rewrite nth_error_app2 by lia.
  replace (List.length a + i - List.length a)%nat with i by lia.
  destruct (nth_error b i) as [c |]; [| reflexivity].
  destruct (p c); [| reflexivity].
  rewrite <- IH. f_equal. lia.
Qed.

Lemma collect_n_shift n (a b : jsstring) : forall i acc,
  Src.collect_n n (a ++ b) (List.length a + i) acc
  = (fst (Src.collect_n n b i acc),
     (List.length a + snd (Src.collect_n n b i acc))%nat).
Proof.
  induction n as [| n IH]; intros i acc; cbn [Src.collect_n]; [reflexivity |].
  unfold Src.append_at. rewrite nth_error_app2 by lia.
  replace (List.length a + i - List.length a)%nat with i by lia.
  replace (S (List.length a + i)) with (List.length a + S i)%nat by lia.
  apply IH.
Qed.

Lemma Dist_cUnescape_loop_shift (a b : jsstring) : forall fuel i result,
  Dist.cUnescape_loop fuel (a ++ b) (List.length a + i) result
  = Dist.cUnescape_loop fuel b i result.
Proof.
  induction fuel as [| fuel IH]; intros i result; [reflexivity |].
  cbn [Dist.cUnescape_loop].
  rewrite nth_error_app2 by lia.
  replace (List.length a + i - List.length a)%nat with i by lia.
  destruct (nth_error b i) as [c |]; [| reflexivity].
  replace (S (List.length a + i)) with (List.length a + S i)%nat by lia.
  destruct (c =? 92); [| apply IH].
  rewrite nth_error_app2 by lia.
  replace (List.length a + S i - List.length a)%nat with (S i) by lia.
  destruct (nth_error b (S i)) as [d |]; [| apply IH].
  replace (S (List.length a + S i)) with (List.length a + S (S i))%nat by lia.
  destruct (Src.simple_escape d); [apply IH |].
  rewrite !collect_while_shift, !collect_n_shift.
  destruct (is_octal d).
  { destruct (Src.collect_while 3 is_octal b (S i) []) as [o j]. apply IH. }
  destruct (d =? 120).
  { destruct (Src.collect_while 2 is_hex b (S (S i)) []) as [o j]. apply IH. }
  destruct (d =? 117).
  { destruct (Src.collect_n 4 b (S (S i)) []) as [o j]. apply IH. }
  destruct (d =? 85); [| apply IH].
  destruct (Src.collect_while 8 _ b (S (S i)) []) as [o j]. cbn [fst snd].
  destruct (fromCodePoint _); [apply IH | reflexivity].
Qed.

Lemma Dist_cUnescape_loop_acc source : forall fuel i result,
  Dist.cUnescape_loop fuel source i result
  = prepend result (Dist.cUnescape_loop fuel source i []).
Proof.
  induction fuel as [| fuel IH]; intros i result;
    [simpl; rewrite app_nil_r; reflexivity |].
  cbn [Dist.cUnescape_loop].
  destruct (nth_error source i) as [c |];
    [| simpl; rewrite app_nil_r; reflexivity].
  assert (Hstep : forall j x,
            Dist.cUnescape_loop fuel source j (result ++ x)
            = prepend result (Dist.cUnescape_loop fuel source j ([] ++ x))).
  { intros j x. rewrite (IH j (result ++ x)), (IH j ([] ++ x)).
    rewrite <- prepend_app. reflexivity. }
  destruct (c =? 92); [| apply Hstep].
  destruct (nth_error source (S i)) as [d |]; [| apply Hstep].
  destruct (Src.simple_escape d); [apply Hstep |].
  destruct (is_octal d).
  { destruct (Src.collect_while 3 is_octal source (S i) []). apply Hstep. }
  destruct (d =? 120).
  { destruct (Src.collect_while 2 is_hex source (S (S i)) []). apply Hstep. }
  destruct (d =? 117).
  { destruct (Src.collect_n 4 source (S (S i)) []). apply Hstep. }
  destruct (d =? 85); [| apply Hstep].
  destruct (Src.collect_while 8 _ source (S (S i)) []).
  destruct (fromCodePoint _); [apply Hstep | reflexivity].
Qed.

Lemma Dist_cUnescape_after (a b : jsstring) fuel result :
  (List.length b <= fuel)%nat ->
  Dist.cUnescape_loop fuel (a ++ b) (List.length a) result
  = prepend result (Dist.cUnescape b).
Proof.
  intros Hfuel.
  replace (List.length a) with (List.length a + 0)%nat at 1 by lia.
  rewrite Dist_cUnescape_loop_shift, Dist_cUnescape_loop_acc.
  unfold Dist.cUnescape.
  rewrite (Dist_cUnescape_fuel (List.length b) b 0 [] fuel) by lia.
  reflexivity.
Qed.

(** X10. [cUnescape] of [dist/src/parser.js] decodes from left to right:
    text without a backslash is copied and the rest decoded on its own,
    and a simple escape gives its character, the rest being decoded on its
    own; an error of the rest is the error of the whole. *)
Theorem Dist_cUnescape_left_to_right (a b : jsstring) (d e : N) :
  (no_backslash a = true ->
     Dist.cUnescape (a ++ b) = prepend a (Dist.cUnescape b))
  /\ (Src.simple_escape d = Some e ->
        Dist.cUnescape (92 :: d :: b) = prepend [e] (Dist.cUnescape b)).
Proof.
  split.
  - intros Ha. unfold Dist.cUnescape at 1.
    assert (Hcopy : forall n i result,
              (i + n = List.length a)%nat ->
              Dist.cUnescape_loop (n + List.length b) (a ++ b) i result
              = Dist.cUnescape_loop (List.length b) (a ++ b) (List.length a)
                  (result ++ skipn i a)).
    { induction n as [| n IH]; intros i result Hi.
      - replace i with (List.length a) by lia.
        rewrite skipn_all, app_nil_r. reflexivity.
      - cbn [Nat.add Dist.cUnescape_loop].
        assert (Hlt : (i < List.length a)%nat) by lia.
        destruct (nth_error a i) as [c |] eqn:Hn;
          [| apply nth_error_None in Hn; lia].
        rewrite nth_error_app1 by lia. rewrite Hn.
        rewrite (no_backslash_nth a i c Ha Hn).
        rewrite IH by lia.
        rewrite (nth_error_skipn_cons a i c Hn), <- app_assoc. reflexivity. }
    rewrite length_app. rewrite (Hcopy (List.length a) 0%nat []) by lia.
    apply Dist_cUnescape_after. lia.
  - intros Hd. unfold Dist.cUnescape at 1.
    change (List.length (92 :: d :: b)) with (S (S (List.length b))).
    remember (S (List.length b)) as f eqn:Hf.
    cbn [Dist.cUnescape_loop nth_error].
    change (92 =? 92) with true. cbv iota. rewrite Hd.
    apply (Dist_cUnescape_after [92; d] b). lia.
Qed.

End Compose.

Section Failure.

Lemma Src_cUnescape_loop_inr s : forall fuel i result m,
  Src.cUnescape_loop fuel s i result = inr m -> has_U_escape s.
Proof.
  induction fuel as [| fuel IH]; intros i result m; [discriminate |].
  cbn [Src.cUnescape_loop].
  destruct (nth_error s i) as [c |] eqn:Hc; [| discriminate].
  destruct (c =? 92) eqn:Ec; [| apply IH].
  destruct (nth_error s (S i)) as [d |] eqn:Hd; [| apply IH].
  destruct (Src.simple_escape d); [apply IH |].
  destruct (is_octal d).
  { destruct (Src.collect_while 3 is_octal s (S i) []). apply IH. }
  destruct (d =? 120).
  { destruct (Src.collect_while 2 is_hex s (S (S i)) []). apply IH. }
  destruct (d =? 117).
  { destruct (Src.collect_n 4 s (S (S i)) []). apply IH. }
  destruct (d =? 85) eqn:Ed; [| apply IH].
  destruct (Src.collect_n _ s _ []).
  destruct (fromCodePoint _); [apply IH |].
  intros _.
  exists i. apply N.eqb_eq in Ec, Ed. subst. auto.
Qed.

Lemma Dist_cUnescape_loop_inr s : forall fuel i result m,
  Dist.cUnescape_loop fuel s i result = inr m -> has_U_escape s.
Proof.
  induction fuel as [| fuel IH]; intros i result m; [discriminate |].
  cbn [Dist.cUnescape_loop].
  destruct (nth_error s i) as [c |] eqn:Hc; [| discriminate].
  destruct (c =? 92) eqn:Ec; [| apply IH].
  destruct (nth_error s (S i)) as [d |] eqn:Hd; [| apply IH].
  destruct (Src.simple_escape d); [apply IH |].
  destruct (is_octal d).
  { destruct (Src.collect_while 3 is_octal s (S i) []). apply IH. }
  destruct (d =? 120).
  { destruct (Src.collect_while 2 is_hex s (S (S i)) []). apply IH. }
  destruct (d =? 117).
  { destruct (Src.collect_n 4 s (S (S i)) []). apply IH. }
  destruct (d =? 85) eqn:Ed; [| apply IH].
  destruct (Src.collect_while _ _ s _ []).
  destruct (fromCodePoint _); [apply IH |].
  intros _.
  exists i. apply N.eqb_eq in Ec, Ed. subst. auto.
Qed.

(** X9. [cUnescape] raises an error, in either revision, only on a text
    that has a [\U] escape. *)
Theorem cUnescape_fails_only_on_U (s m : jsstring) :
  Src.cUnescape s = inr m \/ Dist.cUnescape s = inr m -> has_U_escape s.
Proof.
  intros [H | H].
  - exact (Src_cUnescape_loop_inr s _ _ _ _ H).
  - exact (Dist_cUnescape_loop_inr s _ _ _ _ H).
Qed.

End Failure.

(** ** Decimal integers, written and read back *)

Section Decimal.

Lemma decimal_value_snoc ds c :
  decimal_value (ds ++ [c]) = decimal_value ds * 10 + (c - 48).
Proof. unfold decimal_value. rewrite fold_left_app. reflexivity. Qed.

Lemma pow10_gt_0 n : 0 < 10 ^ n.
Proof. apply N.neq_0_lt_0. apply N.pow_nonzero. discriminate. Qed.

(** [digits_of] with enough fuel writes the decimal digits of [n] in front
    of [acc]: at least one digit, no leading zero but for [0] itself. *)
Lemma digits_of_spec fuel : forall n acc,
  n < 10 ^ N.of_nat fuel -> (0 < fuel)%nat ->
  exists ds,
    digits_of fuel n acc = ds ++ acc
    /\ ds <> []
    /\ forallb is_digit ds = true
    /\ decimal_value ds = n
    /\ (hd 0 ds = 48 -> ds = [48]).
Proof.
  induction fuel as [| fuel IH]; intros n acc Hn Hfuel; [lia |].
  cbn [digits_of].
  assert (Hd : is_digit (48 + n mod 10) = true).
  { pose proof (N.mod_upper_bound n 10 ltac:(discriminate)) as Hm.
    clear - Hm. unfold is_digit, in_range.
    rewrite andb_true_iff, !N.leb_le.
    remember (n mod 10) as r. lia. }
  destruct (n <? 10) eqn:Hlt.
  - apply N.ltb_lt in Hlt. exists [48 + n mod 10].
    rewrite N.mod_small by exact Hlt.
    rewrite N.mod_small in Hd by exact Hlt.
    split; [reflexivity |]. split; [discriminate |].
    split; [cbn [forallb]; rewrite Hd; reflexivity |].
    split; [unfold decimal_value; simpl; lia |].
    simpl. intros ->. reflexivity.
  - apply N.ltb_ge in Hlt.
    assert (Hfuel' : (0 < fuel)%nat).
    { destruct fuel; [| lia]. simpl in Hn. lia. }
    assert (Hdiv : n / 10 < 10 ^ N.of_nat fuel).
    { apply N.Div0.div_lt_upper_bound.
      replace (N.of_nat (S fuel)) with (N.succ (N.of_nat fuel)) in Hn by lia.
      rewrite N.pow_succ_r' in Hn. exact Hn. }
    destruct (IH (n / 10) ((48 + n mod 10) :: acc) Hdiv Hfuel')
      as (ds & Heq & Hne & Hall & Hval & Hhd).
    exists (ds ++ [48 + n mod 10]).
    split; [rewrite Heq, <- app_assoc; reflexivity |].
    split; [destruct ds; discriminate |].
    split; [rewrite forallb_app, Hall; cbn [forallb]; rewrite Hd; reflexivity |].
    split.
    + rewrite decimal_value_snoc, Hval.
      replace (48 + n mod 10 - 48) with (n mod 10)
        by (remember (n mod 10) as r; lia).
      pose proof (N.div_mod n 10 ltac:(discriminate)) as Hdm.
      remember (n / 10) as q. remember (n mod 10) as r. lia.
    + destruct ds as [| d ds]; [congruence |]. cbn [hd app]. intros H48.
      specialize (Hhd H48). injection Hhd as -> ->.
      assert (Hq : n / 10 <> 0).
      { intros Hz. apply N.div_small_iff in Hz; [lia | discriminate]. }
      exfalso. apply Hq. rewrite <- Hval. reflexivity.
Qed.

Lemma N_to_string_spec n :
  exists ds,
    N_to_string n = ds
    /\ ds <> []
    /\ forallb is_digit ds = true
    /\ decimal_value ds = n
    /\ (hd 0 ds = 48 -> ds = [48]).
Proof.
  unfold N_to_string.
  destruct (digits_of_spec (S (N.to_nat (N.size n))) n []) as (ds & H & Hrest).
  - replace (N.of_nat (S (N.to_nat (N.size n)))) with (N.succ (N.size n)) by lia.
    eapply N.lt_le_trans; [apply N.size_gt |].
    rewrite N.pow_succ_r'.
    assert (2 ^ N.size n <= 10 ^ N.size n)
      by (apply N.pow_le_mono_l; lia).
    pose proof (pow10_gt_0 (N.size n)). lia.
  - lia.
  - exists ds. rewrite H, app_nil_r. auto.
Qed.

Lemma radix_digit_10 c : is_digit c = true -> radix_digit 10 c = Some (c - 48).
Proof.
  intros H. unfold radix_digit, digit_value. rewrite H.
  assert (Hlt : (c - 48 <? 10) = true) by (apply N.ltb_lt; chars).
  rewrite Hlt. reflexivity.
Qed.

Lemma take_digits_all ds :
  forallb is_digit ds = true ->
  take_digits 10 ds = (List.map (fun c => c - 48) ds, []).
Proof.
  induction ds as [| c ds IH]; [reflexivity |].
  cbn [forallb]. intros H. apply andb_true_iff in H as [Hc Hds].
  cbn [take_digits]. rewrite (radix_digit_10 c Hc), (IH Hds). reflexivity.
Qed.

Lemma digits_value_map ds : forall acc,
  fold_left (fun acc d => acc * 10 + d) (List.map (fun c => c - 48) ds) acc
  = fold_left (fun acc c => acc * 10 + (c - 48)) ds acc.
Proof. induction ds as [| c ds IH]; intros acc; [reflexivity | apply IH]. Qed.

Lemma digit_not_space c : is_digit c = true -> is_space c = false.
Proof. intros H. chars. Qed.

Lemma trim_start_digit c s : is_digit c = true -> trim_start (c :: s) = c :: s.
Proof. intros H. cbn [trim_start]. rewrite (digit_not_space c H). reflexivity. Qed.

Lemma trim_end_digits s :
  s <> [] -> forallb is_digit s = true -> trim_end s = s.
Proof.
  intros Hne Hall. unfold trim_end.
  destruct (rev s) as [| c r] eqn:Hr.
  - apply (f_equal (@rev N)) in Hr. rewrite rev_involutive in Hr. contradiction.
  - assert (Hc : is_digit c = true).
    { rewrite List.forallb_forall in Hall. apply Hall.
      apply in_rev. rewrite Hr. left. reflexivity. }
    rewrite (trim_start_digit c r Hc), <- Hr. apply rev_involutive.
Qed.

Lemma digits_value_decimal ds :
  digits_value 10 (List.map (fun c => c - 48) ds) = decimal_value ds.
Proof. apply digits_value_map. Qed.

Lemma digit_head c : is_digit c = true -> (c =? 45) = false /\ (c =? 43) = false.
Proof. intros H. split; chars. Qed.

(** The text of an integer: an optional minus and the digits. *)
Lemma Z_to_string_shape z :
  exists c ds,
    N_to_string (Z.abs_N z) = c :: ds
    /\ forallb is_digit (c :: ds) = true
    /\ decimal_value (c :: ds) = Z.abs_N z
    /\ (c = 48 -> ds = [])
    /\ Z_to_string z = if (z <? 0)%Z then 45 :: c :: ds else c :: ds.
Proof.
  destruct (N_to_string_spec (Z.abs_N z)) as (ds & Heq & Hne & Hall & Hval & Hhd).
  destruct ds as [| c ds]; [congruence |].
  exists c, ds. repeat split; auto.
  - intros ->. specialize (Hhd eq_refl). congruence.
  - unfold Z_to_string. rewrite Heq. reflexivity.
Qed.

Lemma parseInt_decimal z :
  parseInt (Z_to_string z) 10 = number_of_int (z <? 0)%Z (Z.abs_N z).
Proof.
  destruct (Z_to_string_shape z) as (c & ds & _ & Hall & Hval & _ & ->).
  pose proof Hall as Hc. cbn [forallb] in Hc. apply andb_true_iff in Hc as [Hc _].
  destruct (digit_head c Hc) as [H45 H43].
  unfold parseInt.
  assert (Hsign : strip_sign (trim_start (if (z <? 0)%Z then 45 :: c :: ds else c :: ds))
                  = ((z <? 0)%Z, c :: ds)).
  { destruct (z <? 0)%Z.
    - reflexivity.
    - rewrite (trim_start_digit c ds Hc). cbn [strip_sign]. rewrite H45, H43.
      reflexivity. }
  rewrite Hsign. change (10 =? 16) with false. cbv iota.
  rewrite (take_digits_all _ Hall). cbn [fst].
  rewrite <- Hval, <- digits_value_decimal. reflexivity.
Qed.

Lemma safe_integer z :
  (Z.abs z < 2 ^ 53)%Z -> number_of_int (z <? 0)%Z (Z.abs_N z) = of_Z z.
Proof.
  intros Hz. unfold number_of_int, of_Z.
  assert (Hlt : (overflow_threshold <=? Z.abs_N z) = false).
  { apply N.leb_gt. unfold overflow_threshold.
    assert (H53 : Z.abs_N z < 2 ^ 53) by lia.
    eapply N.lt_le_trans; [exact H53 |]. vm_compute. discriminate. }
  rewrite Hlt. reflexivity.
Qed.

Lemma non_decimal_digits c ds :
  forallb is_digit (c :: ds) = true -> non_decimal_literal (c :: ds) = None.
Proof.
  intros H. unfold non_decimal_literal.
  destruct ds as [| d ds]; [reflexivity |].
  destruct (negb (c =? 48)); [reflexivity |].
  cbn [forallb] in H. apply andb_true_iff in H as [_ H].
  apply andb_true_iff in H as [Hd _].
  assert (Hx : ((d =? 120) || (d =? 88)) = false) by chars.
  assert (Ho : ((d =? 111) || (d =? 79)) = false) by chars.
  assert (Hb : ((d =? 98) || (d =? 66)) = false) by chars.
  rewrite Hx, Ho, Hb. reflexivity.
Qed.

Lemma trim_signed c ds (neg : bool) :
  forallb is_digit (c :: ds) = true ->
  trim (if neg then 45 :: c :: ds else c :: ds)
  = if neg then 45 :: c :: ds else c :: ds.
Proof.
  intros Hall. pose proof Hall as Hc. cbn [forallb] in Hc.
  apply andb_true_iff in Hc as [Hc _].
  unfold trim. destruct neg.
  - change (trim_start (45 :: c :: ds)) with (45 :: c :: ds).
    unfold trim_end.
    change (rev (45 :: c :: ds)) with (rev (c :: ds) ++ [45]).
    destruct (rev (c :: ds)) as [| e r] eqn:Hr.
    + apply (f_equal (@rev N)) in Hr. rewrite rev_involutive in Hr. discriminate.
    + assert (He : is_digit e = true).
      { rewrite List.forallb_forall in Hall. apply Hall.
        apply in_rev. rewrite Hr. left. reflexivity. }
      change ((e :: r) ++ [45]) with (e :: (r ++ [45])).
      rewrite (trim_start_digit e _ He).
      change (e :: (r ++ [45])) with ((e :: r) ++ [45]).
      rewrite <- Hr, rev_app_distr, rev_involutive. reflexivity.
  - rewrite (trim_start_digit c ds Hc). apply trim_end_digits; [discriminate | exact Hall].
Qed.

Lemma BigInt_decimal z : BigInt_of_string (Z_to_string z) = Some z.
Proof.
  destruct (Z_to_string_shape z) as (c & ds & _ & Hall & Hval & _ & ->).
  pose proof Hall as Hc. cbn [forallb] in Hc. apply andb_true_iff in Hc as [Hc _].
  destruct (digit_head c Hc) as [H45 H43].
  unfold BigInt_of_string. rewrite (trim_signed c ds _ Hall).
  destruct (z <? 0)%Z eqn:Hneg.
  - assert (Hnd : non_decimal_literal (45 :: c :: ds) = None) by reflexivity.
    rewrite Hnd. cbn [strip_sign]. change (45 =? 45) with true. cbv iota.
    rewrite (take_digits_all _ Hall). cbn [List.map].
    change (c - 48 :: List.map (fun c0 => c0 - 48) ds)
      with (List.map (fun c0 => c0 - 48) (c :: ds)).
    rewrite digits_value_decimal, Hval. f_equal. lia.
  - rewrite (non_decimal_digits c ds Hall). cbn [strip_sign]. rewrite H45, H43.
    rewrite (take_digits_all _ Hall). cbn [List.map].
    change (c - 48 :: List.map (fun c0 => c0 - 48) ds)
      with (List.map (fun c0 => c0 - 48) (c :: ds)).
    rewrite digits_value_decimal, Hval. f_equal. lia.
Qed.

(** X11. The decimal text of an integer, read back by the integer
    consumers of [src/parser.ts]: the 64-bit consumers return the integer
    whatever its size, the 32-bit consumers return it as a Number, which
    is exact below [2^53]; the cursor moves one token on. *)
Theorem decimal_round_trip (z : Z) (t : Tokenizer) :
  token t = Z_to_string z ->
  Src.consumeInt64 t = Ok z (nextToken t)
  /\ Src.consumeUint64 t = Ok z (nextToken t)
  /\ ((Z.abs z < 2 ^ 53)%Z ->
        Src.consumeInt32 t = Ok (of_Z z) (nextToken t)
        /\ Src.consumeUint32 t = Ok (of_Z z) (nextToken t)).
Proof.
  intros Htok.
  unfold Src.consumeInt64, Src.consumeUint64, Src.consumeInt32,
    Src.consumeUint32, bind, get_token, advance.
  rewrite Htok, BigInt_decimal, parseInt_decimal.
  repeat split; rewrite (safe_integer z) by assumption; reflexivity.
Qed.

Lemma digit_not_x d : is_digit d = true -> ((d =? 120) || (d =? 88)) = false.
Proof. intros H. chars. Qed.

Lemma decimal_not_hex c ds (neg : bool) :
  forallb is_digit (c :: ds) = true ->
  let text := if neg then 45 :: c :: ds else c :: ds in
  startsWith (js "0x") text || startsWith (js "0X") text = false
  /\ startsWith (js "-0x") text || startsWith (js "-0X") text = false.
Proof.
  intros Hall text. pose proof Hall as Hc. cbn [forallb] in Hc.
  apply andb_true_iff in Hc as [Hc Hds].
  destruct (digit_head c Hc) as [H45 H43].
  assert (H45' : (45 =? c) = false) by (rewrite N.eqb_sym; exact H45).
  assert (Hsecond : forall p q, ds = p :: q -> (120 =? p) = false /\ (88 =? p) = false).
  { intros p q ->. cbn [forallb] in Hds. apply andb_true_iff in Hds as [Hp _].
    pose proof (digit_not_x p Hp) as Hx. apply orb_false_iff in Hx as [Hx1 Hx2].
    rewrite (N.eqb_sym 120 p), (N.eqb_sym 88 p). auto. }
  subst text. destruct neg.
  - split; [reflexivity |].
    change (js "-0x") with [45; 48; 120]. change (js "-0X") with [45; 48; 88].
    cbn [startsWith]. change (45 =? 45) with true. cbn [andb].
    destruct ds as [| p q]; [rewrite !andb_false_r; reflexivity |].
    destruct (Hsecond p q eq_refl) as [-> ->].
    rewrite !andb_false_r. reflexivity.
  - change (js "-0x") with [45; 48; 120]. change (js "-0X") with [45; 48; 88].
    change (js "0x") with [48; 120]. change (js "0X") with [48; 88].
    cbn [startsWith]. rewrite H45'. cbn [andb orb]. split; [| reflexivity].
    destruct ds as [| p q]; [rewrite !andb_false_r; reflexivity |].
    destruct (Hsecond p q eq_refl) as [-> ->].
    rewrite !andb_false_r. reflexivity.
Qed.

Lemma decimal_not_octal c ds (neg : bool) :
  forallb is_digit (c :: ds) = true -> (c = 48 -> ds = []) ->
  Dist.c_octal_test (if neg then 45 :: c :: ds else c :: ds) = false.
Proof.
  intros Hall Hzero. pose proof Hall as Hc. cbn [forallb] in Hc.
  apply andb_true_iff in Hc as [Hc _].
  destruct (digit_head c Hc) as [H45 _].
  unfold Dist.c_octal_test.
  assert (Hbody : snd (strip_minus (if neg then 45 :: c :: ds else c :: ds))
                  = c :: ds).
  { destruct neg; cbn [strip_minus]; [reflexivity | rewrite H45; reflexivity]. }
  rewrite Hbody. destruct ds as [| d ds]; [reflexivity |].
  destruct (c =? 48) eqn:E; [| reflexivity].
  apply N.eqb_eq in E. specialize (Hzero E). discriminate.
Qed.

Lemma Number_decimal z : Number_of_string (Z_to_string z) = of_Z z.
Proof.
  destruct (Z_to_string_shape z) as (c & ds & _ & Hall & Hval & _ & ->).
  pose proof Hall as Hc. cbn [forallb] in Hc. apply andb_true_iff in Hc as [Hc _].
  destruct (digit_head c Hc) as [H45 H43].
  unfold Number_of_string. rewrite (trim_signed c ds _ Hall).
  assert (Hnd : non_decimal_literal (if (z <? 0)%Z then 45 :: c :: ds else c :: ds)
                = None).
  { destruct (z <? 0)%Z; [reflexivity | apply non_decimal_digits; exact Hall]. }
  assert (Hscan : scan_decimal (if (z <? 0)%Z then 45 :: c :: ds else c :: ds)
                  = Some (of_Z z, [])).
  { unfold scan_decimal.
    assert (Hsign : strip_sign (if (z <? 0)%Z then 45 :: c :: ds else c :: ds)
                    = ((z <? 0)%Z, c :: ds)).
    { destruct (z <? 0)%Z; cbn [strip_sign]; [reflexivity |].
      rewrite H45, H43. reflexivity. }
    rewrite Hsign.
    assert (Hinf : startsWith (js "Infinity") (c :: ds) = false).
    { change (js "Infinity") with (73 :: js "nfinity"). cbn [startsWith].
      assert (H73 : (73 =? c) = false) by (clear - Hc; chars).
      rewrite H73. reflexivity. }
    rewrite Hinf, (take_digits_all _ Hall). cbn [List.map scan_exponent].
    change (c - 48 :: List.map (fun c0 => c0 - 48) ds)
      with (List.map (fun c0 => c0 - 48) (c :: ds)).
    rewrite app_nil_r, digits_value_decimal, Hval. reflexivity. }
  destruct (z <? 0)%Z; rewrite Hnd, Hscan; reflexivity.
Qed.

Lemma parseInteger_decimal z :
  Dist.parseInteger (Z_to_string z) Dist.Number = Some (of_Z z)
  /\ Dist.parseInteger (Z_to_string z) Dist.BigInt = Some z.
Proof.
  pose proof (Number_decimal z) as HN. pose proof (BigInt_decimal z) as HB.
  destruct (Z_to_string_shape z) as (c & ds & _ & Hall & Hval & Hzero & Heq).
  rewrite Heq in *.
  destruct (decimal_not_hex c ds (z <? 0)%Z Hall) as [Hx Hmx].
  pose proof (decimal_not_octal c ds (z <? 0)%Z Hall Hzero) as Ho.
  unfold Dist.parseInteger. rewrite Hx, Hmx, Ho.
  cbn [Dist.of_string Dist.Number Dist.BigInt Dist.is_NaN].
  rewrite HN, HB. split; reflexivity.
Qed.

(** X12. The same round trip through [parseInteger] of
    [dist/src/parser.js]: a decimal text is taken for neither a
    hexadecimal nor an octal one, whatever its sign. *)
Theorem dist_decimal_round_trip (z : Z) (t : Tokenizer) :
  token t = Z_to_string z ->
  Dist.consumeInt64 t = Ok z (nextToken t)
  /\ Dist.consumeUint64 t = Ok z (nextToken t)
  /\ ((Z.abs z < 2 ^ 53)%Z ->
        Dist.consumeInt32 t = Ok (of_Z z) (nextToken t)
        /\ Dist.consumeUint32 t = Ok (of_Z z) (nextToken t)).
Proof.
  intros Htok. destruct (parseInteger_decimal z) as [HN HB].
  unfold Dist.consumeInt32, Dist.consumeUint32, Dist.consumeInt64,
    Dist.consumeUint64, Dist.consume_integer, bind, get_token, advance.
  rewrite Htok, HN, HB. repeat split.
Qed.

End Decimal.

(** ** Every cursor of the tokenizer is well formed *)

Section Ready.
Import Position Cursor.

Lemma _popLine_loop_live lines : forall t,
  _more_lines t = true ->
  let t1 := _popLine_loop lines t in
  token t1 = token t
  /\ previous_position t1 = previous_position t
  /\ (List.length (remaining t1) + weight (_lines t1)
      <= List.length (remaining t) + weight lines)%nat
  /\ (exhausted t1
      \/ (_more_lines t1 = true
          /\ (Z.to_nat (_column t1) < List.length (_current_line t1))%nat
          /\ ((_column t1 = _column t /\ _current_line t1 = _current_line t
               /\ _lines t1 = lines)
              \/ (_column t1 = 0%Z
                  /\ (List.length (_lines t1) < List.length lines)%nat)))).
Proof.
  induction lines as [| l ls IH]; intros t Hmore; cbn [_popLine_loop].
  - destruct ((List.length (_current_line t) =? 0)%nat
              || (Z.of_nat (List.length (_current_line t)) <=? _column t)%Z)
      eqn:Hcond; cbn zeta.
    + split; [reflexivity |]. split; [reflexivity |].
      split; [unfold remaining; cbn; rewrite skipn_nil; simpl; lia |].
      left. repeat split.
    + apply orb_false_iff in Hcond as [Hlen Hcol].
      apply Nat.eqb_neq in Hlen. apply Z.leb_gt in Hcol.
      split; [reflexivity |]. split; [reflexivity |].
      split; [unfold remaining; cbn; lia |].
      right. cbn [_column _current_line _more_lines _lines]. split; [exact Hmore |]. split; [lia |]. left. auto.
  - destruct ((List.length (_current_line t) =? 0)%nat
              || (Z.of_nat (List.length (_current_line t)) <=? _column t)%Z)
      eqn:Hcond; cbn zeta.
    + set (t' := mkTokenizer ls (_line t + 1)%Z 0%Z (token t) l (_more_lines t)
                   (_previous_line t) (_previous_column t)).
      specialize (IH t' Hmore). cbn zeta in IH.
      destruct IH as (Htok & Hprev & Hm & Hcase).
      split; [exact Htok |]. split; [exact Hprev |].
      split.
      { cbn [weight fold_right]. fold (weight ls).
        change (remaining t') with l in Hm. lia. }
      destruct Hcase as [Hex | (Hm1 & Hlt & Hwhere)]; [left; exact Hex |].
      right. split; [exact Hm1 |]. split; [exact Hlt |].
      right. cbn [List.length].
      destruct Hwhere as [(Hc & _ & Hl) | (Hc & Hl)].
      * rewrite Hc, Hl. cbn. lia.
      * split; [exact Hc | lia].
    + apply orb_false_iff in Hcond as [Hlen Hcol].
      apply Nat.eqb_neq in Hlen. apply Z.leb_gt in Hcol.
      split; [reflexivity |]. split; [reflexivity |].
      split; [unfold remaining; cbn; lia |].
      right. cbn [_column _current_line _more_lines _lines]. split; [exact Hmore |]. split; [lia |]. left. auto.
Qed.

Lemma _popLine_exhausted t : exhausted t -> _popLine t = t.
Proof.
  destruct t as [lines ln col tok cur more pl pc].
  intros (Hm & Hc & Hl). cbn in *. subst. reflexivity.
Qed.

Lemma length_remaining_set_column t c :
  (_column t <= c)%Z -> (0 <= _column t)%Z ->
  (List.length (remaining (set_column c t)) <= List.length (remaining t))%nat.
Proof.
  intros Hc H0. unfold remaining. cbn [_column _current_line set_column].
  rewrite !length_skipn. lia.
Qed.

Lemma _skipWhitespace_loop_skipped fuel : forall t,
  (0 <= _column t)%Z -> (_more_lines t = false -> exhausted t) ->
  (settled t /\ (List.length (_lines t) < fuel)%nat)
  \/ (List.length (_lines t) + 1 < fuel)%nat ->
  skipped t (_skipWhitespace_loop fuel t).
Proof.
  induction fuel as [| fuel IH]; intros t Hcol Hend Hfuel; [lia |].
  cbn [_skipWhitespace_loop].
  destruct (_more_lines t) eqn:Hmore.
  2:{ rewrite (_popLine_exhausted t (Hend eq_refl)), Hmore. cbn [negb].
      repeat split; auto. }
  pose proof (_popLine_loop_live (_lines t) t Hmore) as Hpop.
  fold (_popLine t) in Hpop. cbn zeta in Hpop.
  destruct Hpop as (Htok & Hprev & Hm & Hcase).
  assert (Hcol1 : (0 <= _column (_popLine t))%Z)
    by (apply _popLine_loop_column; exact Hcol).
  fold (measure (_popLine t)) in Hm. fold (measure t) in Hm.
  destruct Hcase as [Hex | (Hmore1 & Hlt & Hwhere)].
  { destruct Hex as (Hm1 & Hc1 & Hl1). rewrite Hm1. cbn [negb].
    repeat split; auto. left. repeat split; auto. }
  rewrite Hmore1. cbn [negb].
  destruct (_WHITESPACE_OR_COMMENT _) as [| n] eqn:Hws.
  { repeat split; auto. }
  set (t2 := set_column (_column (_popLine t) + Z.of_nat (S n)) (_popLine t)).
  assert (Hs2 : settled t2) by (apply settled_after_match; assumption).
  assert (Hfuel2 : settled t2 /\ (List.length (_lines t2) < fuel)%nat).
  { split; [exact Hs2 |]. change (_lines t2) with (_lines (_popLine t)).
    destruct Hwhere as [(Hc & Hcur & Hl) | (Hc & Hl)].
    - destruct Hfuel as [[Hs _] | Hf]; [| rewrite Hl; lia].
      unfold settled in Hs. rewrite Hc, Hcur in Hws. rewrite Hs in Hws.
      discriminate.
    - destruct Hfuel as [[_ Hf] | Hf]; lia. }
  destruct (IH t2 ltac:(cbn; lia) ltac:(cbn; congruence) (or_introl Hfuel2))
    as (Htok2 & Hprev2 & Hcol2 & Hm2 & Hcase2).
  split; [rewrite Htok2; exact Htok |].
  split; [rewrite Hprev2; exact Hprev |].
  split; [exact Hcol2 |].
  split; [| exact Hcase2].
  assert (Hm21 : (measure t2 <= measure (_popLine t))%nat).
  { unfold measure. change (_lines t2) with (_lines (_popLine t)).
    pose proof (length_remaining_set_column (_popLine t)
                  (_column (_popLine t) + Z.of_nat (S n)) ltac:(lia) Hcol1).
    fold t2 in H. lia. }
  lia.
Qed.

Lemma _skipWhitespace_skipped t :
  (0 <= _column t)%Z -> (_more_lines t = false -> exhausted t) ->
  skipped t (_skipWhitespace t).
Proof.
  intros Hcol Hend. apply _skipWhitespace_loop_skipped; auto. right. lia.
Qed.

Lemma _TOKEN_positive s n : _TOKEN s = Some n -> (0 < n)%nat.
Proof.
  unfold _TOKEN. destruct s as [| c s']; [discriminate |].
  destruct (is_ident_start c); [intros [= <-]; lia |].
  destruct (is_digit c || (c =? 43) || (c =? 45)); [intros [= <-]; lia |].
  destruct (c =? 46).
  { destruct s' as [| d s'']; [discriminate |].
    destruct (is_digit d); [intros [= <-]; lia | discriminate]. }
  destruct (is_quote c); [| discriminate].
  destruct (quoted_body c s') as [m rest].
  destruct rest as [| d rest']; [intros [= <-]; lia |].
  destruct (d =? c); [intros [= <-]; lia |].
  destruct ((d =? 92) && bool_decide (rest' = [])); [intros [= <-]; lia | discriminate].
Qed.

Lemma firstn_fits {A} n (r : list A) :
  firstn (List.length (firstn n r)) r = firstn n r.
Proof.
  rewrite length_firstn.
  destruct (Nat.le_ge_cases n (List.length r)) as [H | H].
  - rewrite Nat.min_l by exact H. reflexivity.
  - rewrite Nat.min_r by exact H. rewrite !firstn_all2 by lia. reflexivity.
Qed.

(** One call of [nextToken] from a steady cursor: the cursor is ready, and
    the units it has yet to pass are fewer by the length of the token it
    left behind. *)
Lemma nextToken_ready t :
  steady t ->
  ready (nextToken t)
  /\ (measure (nextToken t) + List.length (token t) <= measure t)%nat.
Proof.
  intros (Hcol & Hend & Hfits). unfold nextToken.
  set (t2 := set_column _ (set_previous _ _ t)).
  assert (Hcol2 : (0 <= _column t2)%Z) by (cbn; lia).
  assert (Hend2 : _more_lines t2 = false -> exhausted t2).
  { intros H. destruct (Hend H) as (H1 & H2 & H3). repeat split; assumption. }
  assert (Hm2 : (measure t2 + List.length (token t) <= measure t)%nat).
  { unfold measure. change (_lines t2) with (_lines t).
    unfold fits in Hfits. apply (f_equal (@List.length N)) in Hfits.
    rewrite length_firstn in Hfits.
    unfold remaining in *.
    cbn [t2 _column _current_line token set_column set_previous].
    rewrite !length_skipn in *. lia. }
  destruct (_skipWhitespace_skipped t2 Hcol2 Hend2)
    as (Htok & Hprev & Hcol3 & Hm3 & Hcase).
  set (t3 := _skipWhitespace t2) in *.
  destruct Hcase as [(Hmore & Hcur & Hlines) | (Hmore & Hlt & Hset)].
  - rewrite Hmore. cbn [negb]. split.
    + split; [exact Hcol3 |]. split.
      * intros _. repeat split; assumption.
      * cbn [_more_lines set_token]. congruence.
    + change (measure (set_token [] t3)) with (measure t3). lia.
  - rewrite Hmore. cbn [negb].
    assert (Hrem : exists c r, skipn (Z.to_nat (_column t3)) (_current_line t3) = c :: r).
    { destruct (skipn _ _) as [| c r] eqn:E; [| eauto].
      apply (f_equal (@List.length N)) in E. rewrite length_skipn in E.
      simpl in E. lia. }
    destruct Hrem as (c & r & Hrem). rewrite Hrem.
    assert (Hgoal : forall tok, tok <> [] ->
              firstn (List.length tok) (c :: r) = tok ->
              ready (set_token tok t3)
              /\ (measure (set_token tok t3) + List.length (token t) <= measure t)%nat).
    { intros tok Hne Hpre. split.
      - split; [exact Hcol3 |].
        split; [cbn [_more_lines set_token]; congruence |].
        intros _. split; [exact Hne |]. split; [| exact Hset].
        unfold fits, remaining. cbn [token set_token _column _current_line].
        rewrite Hrem. exact Hpre.
      - change (measure (set_token tok t3)) with (measure t3). lia. }
    destruct (_TOKEN (c :: r)) as [n |] eqn:Htoken.
    + apply Hgoal.
      * pose proof (_TOKEN_positive _ _ Htoken). destruct n; [lia | discriminate].
      * apply firstn_fits.
    + apply Hgoal; [discriminate | reflexivity].
Qed.

Lemma ready_steady t : ready t -> steady t.
Proof.
  intros (Hcol & Hend & Htext). split; [exact Hcol |]. split.
  - intros H. apply Hend. exact H.
  - destruct (_more_lines t) eqn:Hmore.
    + apply Htext. reflexivity.
    + destruct (Hend eq_refl) as [_ Htok]. unfold fits. rewrite Htok. reflexivity.
Qed.

Lemma new_Tokenizer_ready lines :
  ready (new_Tokenizer lines)
  /\ (measure (new_Tokenizer lines) <= weight lines)%nat.
Proof.
  unfold new_Tokenizer.
  set (t0 := mkTokenizer lines (-1) 0 [] [] true 0 0).
  pose proof (_popLine_loop_live lines t0 eq_refl) as Hpop.
  cbn zeta in Hpop. change (_popLine_loop lines t0) with (_popLine t0) in Hpop.
  destruct Hpop as (Htok & _ & Hm & Hcase).
  assert (Hsteady : steady (_popLine t0)).
  { split; [apply _popLine_loop_column; cbn; lia |]. split.
    - intros H. destruct Hcase as [Hex | (Hmore & _)]; [exact Hex | congruence].
    - unfold fits. rewrite Htok. reflexivity. }
  destruct (nextToken_ready _ Hsteady) as [Hr Hmeasure].
  split; [exact Hr |].
  change (remaining t0) with (@nil N) in Hm. cbn [List.length] in Hm.
  fold (measure (_popLine t0)) in Hm. lia.
Qed.

Lemma after_ready lines n : ready (after n lines).
Proof.
  induction n as [| n IH].
  - apply new_Tokenizer_ready.
  - rewrite after_S. apply nextToken_ready. apply ready_steady. exact IH.
Qed.

(** X3. [_skipWhitespace] from a cursor with a column that is not
    negative: the token and the previous position stay as they were; the
    cursor ends out of lines, or inside a line on a unit that starts no
    white space and no comment; and the loop has returned by itself, more
    rounds than the model allows it change nothing. *)
Theorem skipWhitespace_settles (t : Tokenizer) :
  (0 <= _column t)%Z -> (_more_lines t = false -> exhausted t) ->
  token (_skipWhitespace t) = token t
  /\ previous_position (_skipWhitespace t) = previous_position t
  /\ (exhausted (_skipWhitespace t)
      \/ (_more_lines (_skipWhitespace t) = true
          /\ (Z.to_nat (_column (_skipWhitespace t))
              < List.length (_current_line (_skipWhitespace t)))%nat
          /\ settled (_skipWhitespace t)))
  /\ (forall m, (2 * List.length (_lines t) + 3 <= m)%nat ->
        _skipWhitespace_loop m t = _skipWhitespace t).
Proof.
  intros Hcol Hend.
  destruct (_skipWhitespace_skipped t Hcol Hend) as (Htok & Hprev & _ & _ & Hcase).
  split; [exact Htok |]. split; [exact Hprev |]. split; [exact Hcase |].
  intros m Hm. apply _skipWhitespace_fuel; assumption.
Qed.

End Ready.

(** ** The tokenizer reaches the end of the text *)

Section Reach.
Import Position Cursor.

Lemma ready_atEnd t : ready t -> atEnd t = negb (_more_lines t).
Proof.
  intros (_ & Hend & Htext). unfold atEnd, str_eqb.
  destruct (_more_lines t) eqn:Hmore.
  - destruct (Htext eq_refl) as [Hne _].
    rewrite bool_decide_eq_false_2 by exact Hne. reflexivity.
  - destruct (Hend eq_refl) as [_ Htok].
    rewrite bool_decide_eq_true_2 by exact Htok. reflexivity.
Qed.

(** At the end [nextToken] only records the position. *)
Lemma nextToken_at_end t :
  ready t -> atEnd t = true ->
  nextToken t = set_previous (_line t) (_column t) t.
Proof.
  intros Hr Hend. rewrite (ready_atEnd t Hr) in Hend.
  apply negb_true_iff in Hend.
  destruct Hr as (_ & Hex & _). destruct (Hex Hend) as [(_ & Hcur & Hlines) Htok].
  destruct t as [lines ln col tok cur more pl pc]. cbn in *. subst.
  unfold nextToken, _skipWhitespace. cbn.
  rewrite Z.add_0_r. reflexivity.
Qed.

Lemma atEnd_stays lines n k :
  atEnd (after n lines) = true -> atEnd (after (n + k) lines) = true.
Proof.
  intros Hn. induction k as [| k IH]; [rewrite Nat.add_0_r; exact Hn |].
  rewrite Nat.add_succ_r, after_S.
  rewrite (nextToken_at_end _ (after_ready lines (n + k)) IH). exact IH.
Qed.

Lemma measure_after lines n :
  atEnd (after n lines) = true
  \/ (measure (after n lines) + n <= weight lines)%nat.
Proof.
  induction n as [| n IH].
  - right. pose proof (new_Tokenizer_ready lines) as [_ H].
    unfold after, Nat.iter, nat_rect. lia.
  - destruct IH as [IH | IH].
    + left. replace (S n) with (n + 1)%nat by lia. apply atEnd_stays. exact IH.
    + destruct (atEnd (after n lines)) eqn:Hend.
      * left. replace (S n) with (n + 1)%nat by lia. apply atEnd_stays. exact Hend.
      * right. rewrite after_S.
        pose proof (after_ready lines n) as Hr.
        destruct (nextToken_ready _ (ready_steady _ Hr)) as [_ Hm].
        assert (Hlen : (0 < List.length (token (after n lines)))%nat).
        { unfold atEnd, str_eqb in Hend. apply bool_decide_eq_false in Hend.
          destruct (token (after n lines)); [contradiction | simpl; lia]. }
        lia.
Qed.

(** X1. Every cursor of a run of the tokenizer, whatever the text and
    however many calls of [nextToken]: the column is not negative; the
    token is empty exactly when no line is left, which is the end of the
    input; before the end the token is the text of the current line at the
    column, and it starts with no white space and no comment. *)
Theorem every_cursor_is_ready (lines : list (list N)) (n : nat) :
  (0 <= _column (after n lines))%Z
  /\ atEnd (after n lines) = negb (_more_lines (after n lines))
  /\ (atEnd (after n lines) = true ->
        _current_line (after n lines) = [] /\ _lines (after n lines) = [])
  /\ (atEnd (after n lines) = false ->
        firstn (List.length (token (after n lines))) (remaining (after n lines))
        = token (after n lines)
        /\ settled (after n lines)).
Proof.
  pose proof (after_ready lines n) as Hr.
  pose proof (ready_atEnd _ Hr) as Hend.
  destruct Hr as (Hcol & Hlast & Htext).
  split; [exact Hcol |]. split; [exact Hend |]. rewrite Hend. split.
  - intros H. apply negb_true_iff in H.
    destruct (Hlast H) as [(_ & Hcur & Hlines) _]. split; assumption.
  - intros H. apply negb_false_iff in H.
    destruct (Htext H) as (_ & Hfits & Hset). split; assumption.
Qed.

(** X2. The tokenizer reaches the end of every text: after as many calls
    of [nextToken] as the text has units and line ends the token is the
    empty one, and once it is, it stays so. *)
Theorem tokenizer_reaches_the_end (lines : list (list N)) (k : nat) :
  atEnd (after (weight lines + k) lines) = true
  /\ (forall n, atEnd (after n lines) = true ->
        atEnd (after (n + k) lines) = true).
Proof.
  split; [| intros n; apply atEnd_stays].
  apply atEnd_stays.
  destruct (measure_after lines (weight lines)) as [H | H]; [exact H |].
  assert (Hm : measure (after (weight lines) lines) = O) by lia.
  pose proof (after_ready lines (weight lines)) as Hr.
  rewrite (ready_atEnd _ Hr). apply negb_true_iff.
  destruct (_more_lines (after (weight lines) lines)) eqn:Hmore; [| reflexivity].
  destruct Hr as (_ & _ & Htext). destruct (Htext Hmore) as (Hne & Hfits & _).
  unfold fits in Hfits. unfold measure in Hm.
  assert (Hrem : remaining (after (weight lines) lines) = [])
    by (apply length_zero_iff_nil; lia).
  rewrite Hrem, firstn_nil in Hfits. congruence.
Qed.

End Reach.

(** ** Text of white space and comments *)

Section Blank.
Import Position Cursor.

Lemma _popLine_loop_blank lines : forall t,
  forallb blank_line lines = true -> _more_lines t = true ->
  remaining t = [] -> (0 <= _column t)%Z ->
  let t1 := _popLine_loop lines t in
  token t1 = token t
  /\ (exhausted t1
      \/ (_more_lines t1 = true /\ _column t1 = 0%Z
          /\ _current_line t1 <> [] /\ blank_line (_current_line t1) = true
          /\ forallb blank_line (_lines t1) = true
          /\ (List.length (_lines t1) < List.length lines)%nat)).
Proof.
  induction lines as [| l ls IH]; intros t Hall Hmore Hrem Hcol;
    cbn [_popLine_loop].
  - assert (Hcond : (List.length (_current_line t) =? 0)%nat
                    || (Z.of_nat (List.length (_current_line t)) <=? _column t)%Z
                    = true).
    { unfold remaining in Hrem. apply (f_equal (@List.length N)) in Hrem.
      rewrite length_skipn in Hrem. simpl in Hrem.
      apply orb_true_iff. right. apply Z.leb_le. lia. }
    rewrite Hcond. cbn zeta. split; [reflexivity |]. left. repeat split.
  - assert (Hcond : (List.length (_current_line t) =? 0)%nat
                    || (Z.of_nat (List.length (_current_line t)) <=? _column t)%Z
                    = true).
    { unfold remaining in Hrem. apply (f_equal (@List.length N)) in Hrem.
      rewrite length_skipn in Hrem. simpl in Hrem.
      apply orb_true_iff. right. apply Z.leb_le. lia. }
    rewrite Hcond. cbn zeta.
    cbn [forallb] in Hall. apply andb_true_iff in Hall as [Hl Hls].
    set (t' := mkTokenizer ls (_line t + 1)%Z 0%Z (token t) l (_more_lines t)
                 (_previous_line t) (_previous_column t)).
    destruct l as [| c l'].
    + destruct (IH t' Hls Hmore eq_refl ltac:(cbn; lia)) as (Htok & Hcase).
      split; [exact Htok |].
      destruct Hcase as [Hex | (H1 & H2 & H3 & H4 & H5 & H6)]; [left; exact Hex |].
      right. repeat split; auto. cbn [List.length]. lia.
    + destruct ls as [| l2 ls2]; cbn [_popLine_loop];
        cbn [_current_line _column t' List.length Nat.eqb orb Z.leb];
        change (Z.of_nat (S (List.length l')) <=? 0)%Z with false; cbn iota;
        (split; [reflexivity |]); right; cbn; repeat split; auto;
        try discriminate; lia.
Qed.

Lemma _popLine_stay t :
  (0 <= _column t)%Z ->
  (Z.to_nat (_column t) < List.length (_current_line t))%nat ->
  _popLine t = t.
Proof.
  intros Hcol Hlt. destruct t as [lines ln col tok cur more pl pc].
  cbn in *. unfold _popLine. cbn [_lines].
  assert (Hcond : (List.length cur =? 0)%nat
                  || (Z.of_nat (List.length cur) <=? col)%Z = false).
  { apply orb_false_iff. split; [apply Nat.eqb_neq | apply Z.leb_gt]; lia. }
  destruct lines; cbn [_popLine_loop _current_line _column]; rewrite Hcond;
    reflexivity.
Qed.

Lemma blank_line_scan l :
  blank_line l = true -> _WHITESPACE_OR_COMMENT l = List.length l.
Proof. unfold blank_line. apply Nat.eqb_eq. Qed.

Lemma _skipWhitespace_loop_blank fuel : forall t,
  _more_lines t = true -> (0 <= _column t)%Z ->
  forallb blank_line (_lines t) = true ->
  (remaining t = [] /\ (2 * List.length (_lines t) < fuel)%nat)
  \/ (_column t = 0%Z /\ _current_line t <> []
      /\ blank_line (_current_line t) = true
      /\ (2 * List.length (_lines t) + 1 < fuel)%nat) ->
  exhausted (_skipWhitespace_loop fuel t)
  /\ token (_skipWhitespace_loop fuel t) = token t.
Proof.
  induction fuel as [| fuel IH]; intros t Hmore Hcol Hall Hcase; [lia |].
  cbn [_skipWhitespace_loop].
  assert (Hline : forall t1 : Tokenizer,
            _more_lines t1 = true -> _column t1 = 0%Z -> _current_line t1 <> [] ->
            blank_line (_current_line t1) = true ->
            forallb blank_line (_lines t1) = true ->
            (2 * List.length (_lines t1) < fuel)%nat ->
            let t' :=
              match _WHITESPACE_OR_COMMENT
                      (skipn (Z.to_nat (_column t1)) (_current_line t1)) with
              | O => t1
              | S n =>
                  _skipWhitespace_loop fuel
                    (set_column (_column t1 + Z.of_nat (S n)) t1)
              end in
            exhausted t' /\ token t' = token t1).
  { intros t1 Hm1 Hc1 Hne Hb Hl Hf. cbn zeta. rewrite Hc1.
    change (Z.to_nat 0) with 0%nat. rewrite skipn_O.
    rewrite (blank_line_scan _ Hb).
    destruct (_current_line t1) as [| c cur] eqn:Hcur; [contradiction |].
    cbn [List.length]. cbn zeta.
    set (t2 := set_column _ t1).
    assert (Hrem2 : remaining t2 = []).
    { unfold remaining. cbn [t2 _column _current_line set_column].
      rewrite Hcur. apply skipn_all2. cbn [List.length]. lia. }
    destruct (IH t2 Hm1 ltac:(cbn; lia) Hl (or_introl (conj Hrem2 Hf)))
      as [Hex Htok].
    split; [exact Hex | exact Htok]. }
  destruct Hcase as [(Hrem & Hf) | (Hc0 & Hne & Hb & Hf)].
  - destruct (_popLine_loop_blank (_lines t) t Hall Hmore Hrem Hcol)
      as (Htok & Hpop).
    fold (_popLine t) in Htok, Hpop.
    destruct Hpop as [Hex | (Hm1 & Hc1 & Hne & Hb & Hl & Hlt)].
    + pose proof Hex as (Hm1 & _). rewrite Hm1. cbn [negb].
      split; [exact Hex | exact Htok].
    + rewrite Hm1. cbn [negb].
      destruct (Hline (_popLine t) Hm1 Hc1 Hne Hb Hl ltac:(lia)) as [Hex Htok'].
      split; [exact Hex | rewrite Htok'; exact Htok].
  - assert (Hstay : _popLine t = t).
    { apply _popLine_stay; [exact Hcol |]. rewrite Hc0.
      destruct (_current_line t); [contradiction | simpl; lia]. }
    rewrite Hstay, Hmore. cbn [negb].
    apply Hline; auto. lia.
Qed.

(** The tokenizer of a text of blank lines is at the end from the start. *)
Lemma new_Tokenizer_blank lines :
  forallb blank_line lines = true -> atEnd (new_Tokenizer lines) = true.
Proof.
  intros Hall. unfold new_Tokenizer.
  set (t0 := mkTokenizer lines (-1) 0 [] [] true 0 0).
  destruct (_popLine_loop_blank lines t0 Hall eq_refl eq_refl ltac:(cbn; lia))
    as (Htok & Hpop).
  change (_popLine_loop lines t0) with (_popLine t0) in *.
  change (token t0) with (@nil N) in Htok.
  unfold nextToken.
  set (t2 := set_column _ (set_previous _ _ (_popLine t0))).
  assert (Ht2 : t2 = set_previous (_line (_popLine t0)) (_column (_popLine t0))
                       (_popLine t0)).
  { unfold t2. cbn [token set_previous]. rewrite Htok. cbn [List.length Z.of_nat].
    destruct (_popLine t0). cbn. rewrite Z.add_0_r. reflexivity. }
  assert (Hex : exhausted (_skipWhitespace t2) /\ token (_skipWhitespace t2) = []).
  { destruct Hpop as [(Hm & Hc & Hl) | (Hm1 & Hc1 & Hne & Hb & Hl & Hlt)].
    - assert (Hex2 : exhausted t2) by (rewrite Ht2; repeat split; assumption).
      unfold _skipWhitespace.
      replace (2 * List.length (_lines t2) + 3)%nat
        with (S (2 * List.length (_lines t2) + 2))%nat by lia.
      cbn [_skipWhitespace_loop]. rewrite (_popLine_exhausted t2 Hex2).
      destruct Hex2 as (Hm2 & _). rewrite Hm2. cbn [negb].
      split; [repeat split; rewrite Ht2; assumption |].
      rewrite Ht2. exact Htok.
    - unfold _skipWhitespace.
      destruct (_skipWhitespace_loop_blank
                  (2 * List.length (_lines t2) + 3) t2) as [Hex' Htok'].
      + rewrite Ht2. exact Hm1.
      + rewrite Ht2. cbn [_column set_previous]. lia.
      + rewrite Ht2. exact Hl.
      + right. rewrite Ht2. cbn [_column _current_line _lines set_previous].
        repeat split; auto. lia.
      + split; [exact Hex' |]. rewrite Htok', Ht2. exact Htok. }
  destruct Hex as [(Hm & _) _]. rewrite Hm. cbn [negb]. reflexivity.
Qed.

End Blank.

Section BlankText.

Variable options : ParserOptions.
Variable lookupType : jsstring -> option MessageType.
Variable create : MessageType -> properties.
Variable Number_toString : number -> jsstring.

(** X4. A text of white space and comments only: [parse] of either
    revision returns the message it was given, untouched, with the
    tokenizer at its first cursor. *)
Theorem blank_text_leaves_the_message (text : jsstring) (ty : MessageType)
    (message : properties) :
  forallb blank_line (split_lines text []) = true ->
  Src.parse options lookupType create Number_toString text ty message
  = Ok message (new_Tokenizer (split_lines text []))
  /\ Dist.parse options lookupType create Number_toString text ty message
     = Ok message (new_Tokenizer (split_lines text [])).
Proof.
  intros Hall. pose proof (new_Tokenizer_blank _ Hall) as Hend.
  unfold atEnd in Hend.
  unfold Src.parse, Src.parseLines, Dist.parse, Dist.parseLines.
  replace (4 * List.length text + 8)%nat
    with (S (4 * List.length text + 7))%nat by lia.
  cbn [Src.parseLines_loop Dist.parseLines_loop].
  unfold bind, get_token. rewrite Hend. split; reflexivity.
Qed.

End BlankText.

(** ** A literal, tokenized and read back *)

Section Quoted.
Import Position Cursor.

Lemma quote_is_no_backslash q : is_quote q = true -> (q =? 92) = false.
Proof. intros H. chars. Qed.

Lemma quoted_body_plain q s rest :
  is_quote q = true -> plain_body q s = true ->
  quoted_body q (s ++ q :: rest) = (List.length s, q :: rest).
Proof.
  intros Hq. induction s as [| c s IH]; intros Hs.
  - cbn [app quoted_body List.length].
    rewrite (quote_is_no_backslash q Hq), N.eqb_refl. reflexivity.
  - cbn [plain_body forallb] in Hs. apply andb_true_iff in Hs as [Hc Hs].
    apply negb_true_iff in Hc. apply orb_false_iff in Hc as [Hc H92].
    apply orb_false_iff in Hc as [Hcq H10].
    cbn [app quoted_body List.length]. rewrite H92, Hcq, H10. cbn [orb].
    rewrite (IH Hs). reflexivity.
Qed.

(** The pattern [_TOKEN] takes a literal with a plain body whole, whatever
    follows the closing quote. *)
Lemma _TOKEN_quoted q s rest :
  is_quote q = true -> plain_body q s = true ->
  _TOKEN (q :: s ++ q :: rest) = Some (S (S (List.length s))).
Proof.
  intros Hq Hs. unfold _TOKEN.
  assert (H1 : is_ident_start q = false) by (clear - Hq; chars).
  assert (H2 : is_digit q || (q =? 43) || (q =? 45) = false) by (clear - Hq; chars).
  assert (H3 : (q =? 46) = false) by (clear - Hq; chars).
  rewrite H1, H2, H3, Hq, (quoted_body_plain q s rest Hq Hs), N.eqb_refl.
  reflexivity.
Qed.

Lemma quote_starts_no_space q :
  is_quote q = true -> forall s, _WHITESPACE_OR_COMMENT (q :: s) = O.
Proof.
  intros Hq s. unfold _WHITESPACE_OR_COMMENT. cbn [ws_scan].
  assert (H1 : is_space q = false) by (clear - Hq; chars).
  assert (H2 : (q =? 35) = false) by (clear - Hq; chars).
  rewrite H1, H2. reflexivity.
Qed.

Lemma plain_body_no_backslash q s : plain_body q s = true -> no_backslash s = true.
Proof.
  unfold plain_body, no_backslash. rewrite !List.forallb_forall.
  intros H c Hc. specialize (H c Hc). apply negb_true_iff in H.
  apply orb_false_iff in H as [_ H]. rewrite H. reflexivity.
Qed.

Lemma _popLine_first l ls ln col tok pl pc :
  l <> [] ->
  _popLine (mkTokenizer (l :: ls) ln col tok [] true pl pc)
  = mkTokenizer ls (ln + 1) 0 tok l true pl pc.
Proof.
  intros Hl. destruct l as [| c l]; [contradiction |].
  unfold _popLine. destruct ls; reflexivity.
Qed.

Lemma _skipWhitespace_settled t :
  (0 <= _column t)%Z ->
  (Z.to_nat (_column t) < List.length (_current_line t))%nat ->
  _more_lines t = true -> settled t ->
  _skipWhitespace t = t.
Proof.
  intros Hcol Hlt Hmore Hs. unfold _skipWhitespace.
  replace (2 * List.length (_lines t) + 3)%nat
    with (S (2 * List.length (_lines t) + 2))%nat by lia.
  cbn [_skipWhitespace_loop].
  rewrite (_popLine_stay t Hcol Hlt), Hmore. cbn [negb].
  unfold settled in Hs. rewrite Hs. reflexivity.
Qed.

(** [nextToken] when the text after the token starts the next one. *)
Lemma nextToken_here t :
  let t2 := set_column (_column t + Z.of_nat (List.length (token t)))
              (set_previous (_line t) (_column t) t) in
  (0 <= _column t)%Z ->
  (Z.to_nat (_column t2) < List.length (_current_line t))%nat ->
  _more_lines t = true -> settled t2 ->
  nextToken t
  = set_token
      (match remaining t2 with
       | [] => []
       | c :: _ =>
           match _TOKEN (remaining t2) with
           | Some n => firstn n (remaining t2)
           | None => [c]
           end
       end) t2.
Proof.
  intros t2 Hcol Hlt Hmore Hs. unfold nextToken.
  change (set_column
            (_column (set_previous (_line t) (_column t) t)
             + Z.of_nat (List.length (token (set_previous (_line t) (_column t) t))))
            (set_previous (_line t) (_column t) t)) with t2.
  rewrite (_skipWhitespace_settled t2) by (auto; cbn; lia).
  change (_more_lines t2) with (_more_lines t). rewrite Hmore. cbn [negb].
  fold (remaining t2). destruct (remaining t2); [reflexivity |].
  destruct (_TOKEN _); reflexivity.
Qed.

(** [nextToken] when the token ends the last line. *)
Lemma nextToken_last t :
  (0 <= _column t)%Z -> _more_lines t = true -> _lines t = [] ->
  (List.length (_current_line t)
   <= Z.to_nat (_column t) + List.length (token t))%nat ->
  atEnd (nextToken t) = true.
Proof.
  intros Hcol Hmore Hlines Hlen. unfold nextToken.
  set (t2 := set_column _ (set_previous _ _ t)).
  assert (Hrem : remaining t2 = []).
  { unfold remaining. cbn [t2 _column _current_line set_column set_previous token].
    apply skipn_all2. lia. }
  destruct (_skipWhitespace_loop_blank (2 * List.length (_lines t2) + 3) t2)
    as [(Hm & _) _].
  - exact Hmore.
  - cbn. lia.
  - change (_lines t2) with (_lines t). rewrite Hlines. reflexivity.
  - left. split; [exact Hrem | lia].
  - fold (_skipWhitespace t2) in Hm. rewrite Hm. reflexivity.
Qed.

Lemma firstn_literal q s :
  firstn (S (S (List.length s))) (literal q s) = literal q s.
Proof.
  apply firstn_all2. unfold literal. cbn [List.length].
  rewrite length_app. simpl. lia.
Qed.

Lemma new_Tokenizer_literal q s :
  is_quote q = true -> plain_body q s = true ->
  new_Tokenizer [literal q s]
  = mkTokenizer [] 0 0 (literal q s) (literal q s) true 0 0.
Proof.
  intros Hq Hs. unfold new_Tokenizer.
  rewrite _popLine_first by discriminate.
  rewrite nextToken_here.
  - cbv beta iota zeta delta
      [set_column set_previous set_token _column _line token _lines
       _current_line _more_lines _previous_line _previous_column
       List.length Z.of_nat Z.add remaining Z.to_nat skipn].
    unfold literal at 1 2 3. rewrite (_TOKEN_quoted q s [] Hq Hs).
    fold (literal q s). rewrite firstn_literal. reflexivity.
  - cbn. lia.
  - cbn. lia.
  - reflexivity.
  - unfold settled. cbn. apply (quote_starts_no_space q Hq).
Qed.

Lemma decoded_literal q s unescape :
  is_quote q = true -> unescape s = inl s ->
  decoded unescape (literal q s) = Some s.
Proof.
  intros Hq Hun. unfold decoded, literal. rewrite Hq.
  assert (Hlen : List.length (q :: s ++ [q]) = S (S (List.length s)))
    by (cbn [List.length]; rewrite length_app; simpl; lia).
  rewrite Hlen. cbn [Nat.leb andb].
  assert (Hlast : last (q :: s ++ [q]) = Some q).
  { change (q :: s ++ [q]) with ((q :: s) ++ [q]). apply last_snoc. }
  rewrite (bool_decide_eq_true_2 _ Hlast).
  assert (Hsub : substring 1 (S (S (List.length s)) - 1) (q :: s ++ [q]) = s).
  { unfold substring. replace (S (S (List.length s)) - 1)%nat
      with (S (List.length s)) by lia.
    rewrite Nat.min_l, Nat.max_r by lia.
    change (skipn 1 (q :: s ++ [q])) with (s ++ [q]).
    replace (S (List.length s) - 1)%nat with (List.length s) by lia.
    rewrite firstn_app, firstn_all, Nat.sub_diag. cbn [firstn].
    apply app_nil_r. }
  rewrite Hsub, Hun. reflexivity.
Qed.

(** X5. A quoted literal whose body has no quote of its kind, no line
    feed and no backslash, alone in the text: the tokenizer makes one
    token of it, the end of the input follows, and the string consumers of
    both revisions give the body back. *)
Theorem literal_round_trip (q : N) (s : jsstring) (fuel : nat) :
  is_quote q = true -> plain_body q s = true ->
  let t := new_Tokenizer [literal q s] in
  token t = literal q s
  /\ atEnd (nextToken t) = true
  /\ Src.consumeString (S fuel) t = Ok s (nextToken t)
  /\ Src.consumeByteString t = Ok (Src.to_Uint8Array s) (nextToken t)
  /\ Dist.consumeString (S fuel) t = Ok s (nextToken t)
  /\ Dist.consumeByteString (S fuel) t = Ok (Src.to_Uint8Array s) (nextToken t).
Proof.
  intros Hq Hs. cbv zeta. rewrite (new_Tokenizer_literal q s Hq Hs).
  remember (mkTokenizer [] 0 0 (literal q s) (literal q s) true 0 0) as t eqn:Ht.
  assert (Htok : token t = literal q s) by (rewrite Ht; reflexivity).
  assert (Hend : atEnd (nextToken t) = true).
  { apply nextToken_last; rewrite Ht; cbn; try reflexivity; lia. }
  pose proof (plain_body_no_backslash q s Hs) as Hplain.
  assert (HS : Src.cUnescape s = inl s).
  { unfold Src.cUnescape.
    rewrite Src_cUnescape_loop_plain by (auto; lia). reflexivity. }
  assert (HD : Dist.cUnescape s = inl s).
  { unfold Dist.cUnescape.
    rewrite Dist_cUnescape_loop_plain by (auto; lia). reflexivity. }
  assert (Hrun : forall unescape, unescape s = inl s ->
            literals unescape t [s]).
  { intros unescape Hun. cbn [literals]. rewrite Htok. split.
    - apply decoded_literal; assumption.
    - unfold atEnd, str_eqb in Hend. apply bool_decide_eq_true in Hend.
      rewrite Hend. reflexivity. }
  split; [exact Htok |]. split; [exact Hend |].
  destruct (Hrun _ HS) as [HpS HrestS]. destruct (Hrun _ HD) as [HpD HrestD].
  pose proof (Src_consumeString_loop_literals [] (S fuel) s (nextToken t)
                HrestS ltac:(simpl; lia)) as HloopS.
  pose proof (Dist_consumeString_loop_literals [] (S fuel) s (nextToken t)
                HrestD ltac:(simpl; lia)) as HloopD.
  cbn [concat List.length skip_tokens] in HloopS, HloopD.
  rewrite app_nil_r in HloopS, HloopD.
  split.
  { unfold Src.consumeString.
    rewrite (bind_ok _ _ _ _ _ (Src__consumeByteString_decoded t s HpS)).
    exact HloopS. }
  split; [apply (Src_consumeByteString_first_only t s [] (Hrun _ HS)) |].
  unfold Dist.consumeString, Dist.consumeByteString. split.
  - rewrite (bind_ok _ _ _ _ _ (Dist__consumeByteString_decoded t s HpD)).
    exact HloopD.
  - rewrite (bind_ok _ _ _ _ _ (Dist__consumeByteString_decoded t s HpD)).
    rewrite (bind_ok _ _ _ _ _ HloopD). reflexivity.
Qed.

End Quoted.

(** ** Fields of a message: lists, unknown names, the property changed *)

Section Merge.

Variable options : ParserOptions.
Variable lookupType : jsstring -> option MessageType.
Variable create : MessageType -> properties.
Variable Number_toString : number -> jsstring.

Lemma push_spec (message : properties) key v :
  get (Src.push message key v) key = VArray (elements (get message key) ++ [v])
  /\ (forall p, p <> key -> Src.push message key v !! p = message !! p).
Proof.
  unfold Src.push.
  destruct (get message key) as [| s | l | e | ty props] eqn:Hget; cbn [elements app];
    (split; [apply get_insert | intros p Hp; apply lookup_insert_ne; congruence]).
Qed.

(** More fuel does not change what a string consumer returns. *)
Lemma consumeString_loop_more fuel : forall result t r t' fuel',
  Src.consumeString_loop fuel result t = Ok r t' -> (fuel <= fuel')%nat ->
  Src.consumeString_loop fuel' result t = Ok r t'.
Proof.
  induction fuel as [| fuel IH]; intros result t r t' fuel' H Hle; [discriminate |].
  destruct fuel' as [| fuel']; [lia |].
  cbn [Src.consumeString_loop] in *. unfold bind, get_token in *.
  destruct (Src.starts_quoted (token t)); [| exact H].
  destruct (Src._consumeByteString t) as [part t1 | | |]; try discriminate.
  apply (IH _ _ _ _ fuel' H). lia.
Qed.

Lemma parseScalar_more fuel fuel' ty t v t' :
  Src.parseScalar fuel ty t = Ok v t' -> (fuel <= fuel')%nat ->
  Src.parseScalar fuel' ty t = Ok v t'.
Proof.
  intros H Hle. unfold Src.parseScalar in *.
  repeat match goal with
         | |- context [if ?b then _ else _] => destruct b; [exact H |]
         end.
  destruct (str_eqb ty (js "string")); [| exact H].
  unfold Src.consumeString, bind in *.
  destruct (Src._consumeByteString t) as [first t1 | | |]; try discriminate.
  destruct (Src.consumeString_loop fuel first t1) as [r t2 | | |] eqn:Hloop;
    try discriminate.
  rewrite (consumeString_loop_more _ _ _ _ _ fuel' Hloop Hle). exact H.
Qed.

Lemma scalar_list_loop_S fuel message field :
  Src.scalar_list_loop fuel message field
  = match fuel with
    | O => fun _ => OutOfFuel
    | S fuel' =>
        let* message := Src.mergeScalarField fuel' message field in
        let* close := tryConsume (js "]") in
        if close then ret message
        else do consume (js ",") in Src.scalar_list_loop fuel' message field
    end.
Proof. destruct fuel; reflexivity. Qed.

Lemma scalar_list_loop_items vs : forall fuel f0 message field t t_end,
  resolvedType field = None ->
  list_items (Src.parseScalar f0 (type field)) t vs t_end ->
  (f0 + List.length vs <= fuel)%nat ->
  Src.scalar_list_loop fuel message field t
  = Ok (fold_left (fun m v =>
                     if repeated field then Src.push m (name field) (VScalar v)
                     else <[name field := VScalar v]> m) vs message)
       t_end.
Proof.
  induction vs as [| v rest IH]; intros fuel f0 message field t t_end Hres Hitems Hfuel;
    [contradiction |].
  destruct fuel as [| fuel]; [simpl in Hfuel; lia |].
  cbn [list_items] in Hitems. destruct Hitems as (t1 & Hv & Hrest).
  rewrite scalar_list_loop_S.
  assert (Hmerge : Src.mergeScalarField fuel message field t
                   = Ok (if repeated field
                         then Src.push message (name field) (VScalar v)
                         else <[name field := VScalar v]> message) t1).
  { unfold Src.mergeScalarField. rewrite Hres.
    rewrite (bind_ok _ _ _ _ _
               (parseScalar_more f0 fuel _ _ _ _ Hv ltac:(simpl in Hfuel; lia))).
    destruct (repeated field); reflexivity. }
  step Hmerge.
  destruct rest as [| v2 rest].
  - destruct Hrest as [Hclose ->].
    step (tryConsume_hit (js "]") t1 Hclose). reflexivity.
  - destruct Hrest as [Hcomma Hrest].
    step (tryConsume_miss (js "]") t1 ltac:(rewrite Hcomma; discriminate)).
    cbv iota.
    step (consume_hit (js ",") t1 Hcomma).
    rewrite (IH fuel f0 _ field (nextToken t1) t_end Hres Hrest
               ltac:(simpl in *; lia)).
    reflexivity.
Qed.

Lemma push_all {A} (g : A -> value) (message : properties) key vs :
  vs <> [] ->
  get (fold_left (fun m v => Src.push m key (g v)) vs message) key
  = VArray (elements (get message key) ++ List.map g vs)
  /\ (forall p, p <> key ->
        fold_left (fun m v => Src.push m key (g v)) vs message !! p
        = message !! p).
Proof.
  revert message. induction vs as [| v vs IH]; intros message Hne; [contradiction |].
  cbn [fold_left List.map].
  destruct (push_spec message key (g v)) as [Hget1 Hframe1].
  destruct vs as [| v2 vs].
  - cbn [fold_left List.map]. split; [exact Hget1 | exact Hframe1].
  - destruct (IH (Src.push message key (g v)) ltac:(discriminate))
      as [Hget Hframe].
    split.
    + rewrite Hget, Hget1. cbn [elements]. rewrite <- app_assoc. reflexivity.
    + intros p Hp. rewrite (Hframe p Hp). apply Hframe1. exact Hp.
Qed.

Lemma consumeIdentifierOrNumber_ok t :
  word_test (token t) = true ->
  consumeIdentifierOrNumber t = Ok (token t) (nextToken t).
Proof.
  intros H. unfold consumeIdentifierOrNumber, bind, get_token, advance, ret.
  rewrite H. reflexivity.
Qed.

Lemma word_is_no_bracket tok : word_test tok = true -> tok <> js "[".
Proof. intros H ->. discriminate. Qed.

(** A name found among the fields of the message type, under its camel
    case form. *)
Lemma resolve_field_named fuel ty t field :
  word_test (token t) = true ->
  allowFieldNumber options && all_digits (token t) = false ->
  fields ty (toCamelCase (token t)) = Some field ->
  Src.resolve_field options fuel ty t = Ok (Some field, token t) (nextToken t).
Proof.
  intros Hw Hnum Hfield. unfold Src.resolve_field.
  step (tryConsume_miss (js "[") t (word_is_no_bracket _ Hw)). cbv iota.
  step (consumeIdentifierOrNumber_ok t Hw).
  rewrite Hnum, Hfield. reflexivity.
Qed.

Lemma resolve_field_unknown fuel ty t :
  word_test (token t) = true ->
  allowFieldNumber options && all_digits (token t) = false ->
  fields ty (toCamelCase (token t)) = None ->
  fields ty (toLowerCase (token t)) = None ->
  Src.resolve_field options fuel ty t = Ok (None, token t) (nextToken t).
Proof.
  intros Hw Hnum Hcamel Hlower. unfold Src.resolve_field.
  step (tryConsume_miss (js "[") t (word_is_no_bracket _ Hw)). cbv iota.
  step (consumeIdentifierOrNumber_ok t Hw).
  rewrite Hnum, Hcamel, Hlower. reflexivity.
Qed.

Lemma mergeField_S fuel ty message :
  Src.mergeField options lookupType create Number_toString (S fuel) ty message
  = (let* found := Src.resolve_field options fuel ty in
     match found with
     | (None, fieldName) =>
         if allowUnknownField options then
           do Src.skipField fuel in ret message
         else
           throw (parseErrorPreviousToken
                    (js "Message type " ++ quoted (fullName ty)
                     ++ js " has no field named " ++ quoted fieldName ++ js "."))
     | (Some field, _) =>
         let* message :=
           if field_map field then
             Src.mergeMapField options lookupType create Number_toString
               fuel message field
           else
             match resolvedType field with
             | Some (ResolvedEnum _) =>
                 do consume (js ":") in
                 Src.mergeScalarField fuel message field
             | Some (ResolvedType _ _) =>
                 let* _ := tryConsume (js ":") in
                 Src.mergeMessageField options lookupType create Number_toString
                   fuel message field false
             | None =>
                 do consume (js ":") in
                 let* list :=
                   if repeated field then tryConsume (js "[") else ret false in
                 if list then
                   let* empty := tryConsume (js "]") in
                   if empty then ret message
                   else Src.scalar_list_loop fuel message field
                 else Src.mergeScalarField fuel message field
             end in
         let* _ := tryConsume (js ",") in
         ret message
     end).
Proof. reflexivity. Qed.

(** An optional comma after a field. *)
Lemma optional_comma {A} (a : A) t :
  exists t', (let* _ := tryConsume (js ",") in ret a) t = Ok a t'
             /\ t' = if str_eqb (token t) (js ",") then nextToken t else t.
Proof.
  unfold tryConsume, bind, get_token, advance, ret.
  destruct (str_eqb (token t) (js ",")); eexists; split; reflexivity.
Qed.

(** X18. The short form of a repeated scalar field, [name: [v1, ..., vn]]: the
    values are appended, in the order of the text, to the elements the
    field holds, and no other property of the message changes. *)
Theorem short_list_appends (fuel f0 : nat) (ty : MessageType)
    (message : properties) (field : Field) (t t_end : Tokenizer)
    (vs : list scalar) :
  word_test (token t) = true ->
  allowFieldNumber options && all_digits (token t) = false ->
  fields ty (toCamelCase (token t)) = Some field ->
  field_map field = false -> resolvedType field = None ->
  repeated field = true ->
  token (nextToken t) = js ":" ->
  token (nextToken (nextToken t)) = js "[" ->
  token (nextToken (nextToken (nextToken t))) <> js "]" ->
  list_items (Src.parseScalar f0 (type field))
    (nextToken (nextToken (nextToken t))) vs t_end ->
  (f0 + List.length vs <= fuel)%nat ->
  exists message' : properties,
    Src.mergeField options lookupType create Number_toString (S fuel) ty message t
    = Ok message' (if str_eqb (token t_end) (js ",") then nextToken t_end else t_end)
    /\ get message' (name field)
       = VArray (elements (get message (name field)) ++ List.map VScalar vs)
    /\ (forall p, p <> name field -> message' !! p = message !! p).
Proof.
  intros Hw Hnum Hfield Hmap Hres Hrep Hcolon Hopen Hfirst Hitems Hfuel.
  rewrite mergeField_S.
  step (resolve_field_named fuel ty t field Hw Hnum Hfield).
  rewrite Hmap, Hres, Hrep.
  step (consume_hit (js ":") _ Hcolon).
  step (tryConsume_hit (js "[") _ Hopen). cbv iota.
  step (tryConsume_miss (js "]") _ Hfirst). cbv iota.
  step (scalar_list_loop_items vs fuel f0 message field _ t_end Hres Hitems Hfuel).
  rewrite Hrep.
  destruct (optional_comma
              (fold_left (fun m v => Src.push m (name field) (VScalar v)) vs message)
              t_end) as (t' & Hrun & ->).
  eexists. split; [exact Hrun |].
  apply push_all. destruct vs; [contradiction | discriminate].
Qed.

(** *** A field the message type does not have *)

Lemma error_at_previous message t :
  parseErrorPreviousToken message (nextToken t)
  = ParseError message (Some (_line t + 1)%Z) (Some (_column t + 1)%Z).
Proof.
  unfold parseErrorPreviousToken.
  pose proof (proj2 (nextToken_position t)) as Hp.
  unfold Position.previous_position, Position.position in Hp.
  injection Hp as -> ->. reflexivity.
Qed.

(** X19. A name the message type has no field for, and which is no
    member of [Object.prototype] (the lookup in [fields] would find that
    member).  Without
    [allowUnknownField] the error is [Message type "T" has no field named
    "f".], at the position of the name.  With it the message is never
    changed, and a value that is one word or number is skipped with the
    name and the colon. *)
Theorem unknown_field (fuel : nat) (ty : MessageType) (message : properties)
    (t : Tokenizer) :
  inherited_name (toCamelCase (token t)) = false ->
  word_test (token t) = true ->
  allowFieldNumber options && all_digits (token t) = false ->
  fields ty (toCamelCase (token t)) = None ->
  fields ty (toLowerCase (token t)) = None ->
  (allowUnknownField options = false ->
     Src.mergeField options lookupType create Number_toString (S fuel) ty message t
     = Throw (ParseError
                (js "Message type " ++ quoted (fullName ty)
                 ++ js " has no field named " ++ quoted (token t) ++ js ".")
                (Some (_line t + 1)%Z) (Some (_column t + 1)%Z))
         (nextToken t))
  /\ (allowUnknownField options = true ->
        (forall (message' : properties) (t' : Tokenizer),
           Src.mergeField options lookupType create Number_toString
             (S fuel) ty message t = Ok message' t' ->
           message' = message)
        /\ (token (nextToken t) = js ":" ->
            word_test (token (nextToken (nextToken t))) = true ->
            Src.mergeField options lookupType create Number_toString
              (S (S fuel)) ty message t
            = Ok message (nextToken (nextToken (nextToken t))))).
Proof.
  intros _ Hw Hnum Hcamel Hlower. split.
  - intros Hopt. rewrite mergeField_S.
    step (resolve_field_unknown fuel ty t Hw Hnum Hcamel Hlower).
    rewrite Hopt. unfold throw. rewrite error_at_previous. reflexivity.
  - intros Hopt. split.
    + intros message' t'. rewrite mergeField_S.
      step (resolve_field_unknown fuel ty t Hw Hnum Hcamel Hlower).
      rewrite Hopt. intros H. apply bind_Ok in H as (_ & t1 & _ & H).
      unfold ret in H. congruence.
    + intros Hcolon Hvalue. rewrite mergeField_S.
      step (resolve_field_unknown (S fuel) ty t Hw Hnum Hcamel Hlower).
      rewrite Hopt. cbn [Src.skipField].
      step (tryConsume_hit (js ":") _ Hcolon). cbv iota.
      step (consumeIdentifierOrNumber_ok _ Hvalue). reflexivity.
Qed.

(** *** What a field of the text may change *)

Lemma only_at_refl key message : only_at key message message.
Proof. intros p _. reflexivity. Qed.

Lemma only_at_trans key m1 m2 m3 :
  only_at key m1 m2 -> only_at key m2 m3 -> only_at key m1 m3.
Proof. intros H12 H23 p Hp. rewrite (H23 p Hp). apply H12. exact Hp. Qed.

Lemma only_at_insert key v message : only_at key message (<[key := v]> message).
Proof. intros p Hp. apply lookup_insert_ne. congruence. Qed.

Lemma only_at_push key v message : only_at key message (Src.push message key v).
Proof. exact (proj2 (push_spec message key v)). Qed.

Lemma mergeScalarField_only_at fuel message field t message' t' :
  Src.mergeScalarField fuel message field t = Ok message' t' ->
  only_at (name field) message message'.
Proof.
  unfold Src.mergeScalarField. intros H.
  apply bind_Ok in H as (v & t1 & _ & H).
  destruct (repeated field); unfold ret in H; injection H as <- _.
  - apply only_at_push.
  - apply only_at_insert.
Qed.

Lemma scalar_list_loop_only_at fuel : forall message field t message' t',
  Src.scalar_list_loop fuel message field t = Ok message' t' ->
  only_at (name field) message message'.
Proof.
  induction fuel as [| fuel IH]; intros message field t message' t' H;
    [discriminate |].
  rewrite scalar_list_loop_S in H.
  apply bind_Ok in H as (m1 & t1 & H1 & H).
  apply mergeScalarField_only_at in H1.
  apply bind_Ok in H as (close & t2 & _ & H).
  destruct close.
  - unfold ret in H. injection H as <- _. exact H1.
  - apply bind_Ok in H as (_ & t3 & _ & H).
    eapply only_at_trans; [exact H1 | exact (IH _ _ _ _ _ H)].
Qed.

Lemma set_entry_only_at message fname key v t message' t' :
  Src.set_entry Number_toString message fname key v t = Ok message' t' ->
  only_at fname message message'.
Proof.
  unfold Src.set_entry, Src.TypeError, throw, ret, unmodelled. intros H.
  repeat match type of H with
         | context [match ?x with _ => _ end] => destruct x
         end;
    try discriminate; injection H as <- _;
    first [apply only_at_refl | apply only_at_insert].
Qed.

Lemma mergeMessageField_S fuel message field isMapEntry :
  Src.mergeMessageField options lookupType create Number_toString
    (S fuel) message field isMapEntry
  = (let* endToken := Src.open_delimiter in
     let* subMessage :=
       if isMapEntry then
         match lookupType (toPascalCase (name field) ++ js "Entry") with
         | Some ty => ret (VMessage ty (create ty))
         | None => Src.TypeError (js "no such type")
         end
       else if repeated field then Src.create_resolved lookupType create field
       else
         let existing := get message (name field) in
         if truthy existing then ret existing
         else Src.create_resolved lookupType create field in
     match subMessage with
     | VMessage ty props =>
         let* props :=
           Src.message_body options lookupType create Number_toString
             fuel endToken ty props in
         if isMapEntry then
           match Src.key_of_value (get props (js "key")) with
           | Some key =>
               Src.set_entry Number_toString message (name field) key
                 (get props (js "value"))
           | None => Src.TypeError (js "key is not a scalar")
           end
         else if repeated field then
           ret (Src.push message (name field) (VMessage ty props))
         else ret (<[name field := VMessage ty props]> message)
     | other =>
         let* close := tryConsume endToken in
         if close then ret (<[name field := other]> message)
         else
           let* tok := get_token in
           if str_eqb tok [] then
             throw (parseError (js "Expected " ++ quoted endToken))
           else Src.TypeError (js "cannot read properties of undefined")
     end).
Proof. reflexivity. Qed.

Lemma mergeMessageField_only_at fuel message field isMapEntry t message' t' :
  Src.mergeMessageField options lookupType create Number_toString
    fuel message field isMapEntry t = Ok message' t' ->
  only_at (name field) message message'.
Proof.
  destruct fuel as [| fuel]; [discriminate |].
  rewrite mergeMessageField_S. intros H.
  apply bind_Ok in H as (endToken & t1 & _ & H).
  apply bind_Ok in H as (subMessage & t2 & _ & H).
  assert (Hother : forall other : value,
            (let* close := tryConsume endToken in
             if close then ret (<[name field := other]> message)
             else
               let* tok := get_token in
               if str_eqb tok [] then
                 throw (parseError (js "Expected " ++ quoted endToken))
               else Src.TypeError (js "cannot read properties of undefined")) t2
            = Ok message' t' ->
            only_at (name field) message message').
  { intros other Ho. apply bind_Ok in Ho as (close & t3 & _ & Ho).
    destruct close.
    - unfold ret in Ho. injection Ho as <- _. apply only_at_insert.
    - apply bind_Ok in Ho as (tok & t4 & _ & Ho).
      destruct (str_eqb tok []); discriminate. }
  destruct subMessage as [| s | l | entries | ty props];
    try (apply (Hother _ H)).
  apply bind_Ok in H as (props' & t3 & _ & H).
  destruct isMapEntry.
  - destruct (Src.key_of_value _); [| discriminate].
    apply (set_entry_only_at _ _ _ _ _ _ _ H).
  - destruct (repeated field); unfold ret in H; injection H as <- _.
    + apply only_at_push.
    + apply only_at_insert.
Qed.

Lemma mergeMapField_only_at fuel message field t message' t' :
  Src.mergeMapField options lookupType create Number_toString
    fuel message field t = Ok message' t' ->
  only_at (name field) message message'.
Proof.
  intros H. destruct fuel as [| fuel]; [discriminate |].
  apply (mergeMapField_Ok options lookupType create Number_toString) in H
    as [-> | (endToken & t3 & key & v & t4 & _ & H)].
  - apply only_at_refl.
  - apply (set_entry_only_at _ _ _ _ _ _ _ H).
Qed.

(** X21. One field of the text changes one property of the message at most:
    whenever [mergeField] returns, every property but one is as it was. *)
Theorem mergeField_changes_one_property (fuel : nat) (ty : MessageType)
    (message : properties) (t : Tokenizer) (message' : properties)
    (t' : Tokenizer) :
  Src.mergeField options lookupType create Number_toString fuel ty message t
  = Ok message' t' ->
  exists key, only_at key message message'.
Proof.
  destruct fuel as [| fuel]; [discriminate |].
  rewrite mergeField_S. intros H.
  apply bind_Ok in H as ([found fieldName] & t1 & _ & H).
  destruct found as [field |].
  2:{ exists []. destruct (allowUnknownField options); [| discriminate].
      apply bind_Ok in H as (_ & t2 & _ & H). unfold ret in H.
      injection H as <- _. apply only_at_refl. }
  exists (name field).
  apply bind_Ok in H as (m1 & t2 & H1 & H).
  apply bind_Ok in H as (_ & t3 & _ & H). unfold ret in H. injection H as <- _.
  destruct (field_map field).
  { apply (mergeMapField_only_at _ _ _ _ _ _ H1). }
  destruct (resolvedType field) as [[tn tf | e] |].
  - apply bind_Ok in H1 as (_ & t4 & _ & H1).
    apply (mergeMessageField_only_at _ _ _ _ _ _ _ H1).
  - apply bind_Ok in H1 as (_ & t4 & _ & H1).
    apply (mergeScalarField_only_at _ _ _ _ _ _ H1).
  - apply bind_Ok in H1 as (_ & t4 & _ & H1).
    apply bind_Ok in H1 as (list & t5 & _ & H1).
    destruct list; [| apply (mergeScalarField_only_at _ _ _ _ _ _ H1)].
    apply bind_Ok in H1 as (empty & t6 & _ & H1).
    destruct empty.
    + unfold ret in H1. injection H1 as <- _. apply only_at_refl.
    + apply (scalar_list_loop_only_at _ _ _ _ _ _ H1).
Qed.

End Merge.

(** ** Map entries that lack a part *)

Section MapEdges.

Variable options : ParserOptions.
Variable lookupType : jsstring -> option MessageType.
Variable create : MessageType -> properties.
Variable Number_toString : number -> jsstring.

Abbreviation mergeMapField :=
  (Src.mergeMapField options lookupType create Number_toString).

Lemma assign_other (own : gmap jsstring value) k v :
  k <> js "__proto__" -> assign own k v = Some (<[k := v]> own).
Proof.
  intros Hk. unfold assign, str_eqb.
  rewrite (bool_decide_eq_false_2 _ Hk). destruct (own !! k); reflexivity.
Qed.

(** X20. Entries of a map that lack a part.  An empty body leaves the message
    as it is, without so much as an empty map under the field.  An entry
    with a value and no key is stored under the key [undefined]; an entry
    with a key and no value stores [undefined] under the key (a key other
    than [__proto__], which a plain object does not store). *)
Theorem map_entry_lacking_a_part (fuel : nat) (message : properties)
    (field : Field) (t : Tokenizer) :
  token t = js "{" ->
  (token (nextToken t) = js "}" ->
     mergeMapField (S fuel) message field t
     = Ok message (nextToken (nextToken t)))
  /\ (forall (v : scalar) (t4 : Tokenizer) (entries : gmap (list N) value),
        token (nextToken t) = js "value" ->
        token (nextToken (nextToken t)) = js ":" ->
        lookupType (type field) = None ->
        Src.parseScalar fuel (type field) (nextToken (nextToken (nextToken t)))
        = Ok v t4 ->
        token t4 = js "}" ->
        get message (name field) = VObject entries ->
        mergeMapField (S (S fuel)) message field t
        = Ok (<[name field := VObject (<[js "undefined" := VScalar v]> entries)]>
                message)
             (nextToken t4))
  /\ (forall (k : scalar) (t4 : Tokenizer) (entries : gmap (list N) value),
        token (nextToken t) = js "key" ->
        token (nextToken (nextToken t)) = js ":" ->
        Src.parseScalar fuel (keyType field) (nextToken (nextToken (nextToken t)))
        = Ok k t4 ->
        token t4 = js "}" ->
        to_property_key Number_toString (Some k) <> js "__proto__" ->
        get message (name field) = VObject entries ->
        mergeMapField (S (S fuel)) message field t
        = Ok (<[name field :=
                  VObject (<[to_property_key Number_toString (Some k) := VUndefined]>
                             entries)]> message)
             (nextToken t4)).
Proof.
  intros H0.
  assert (Hcolon : token t <> js ":") by (rewrite H0; discriminate).
  split; [| split].
  - intros H1. rewrite mergeMapField_S.
    step (tryConsume_miss (js ":") t Hcolon). step (open_brace t H0).
    step (tryConsume_hit (js "}") _ H1). reflexivity.
  - intros v t4 entries H1 H2 Hty Hv H4 Hget.
    rewrite mergeMapField_S.
    step (tryConsume_miss (js ":") t Hcolon). step (open_brace t H0).
    step (tryConsume_miss (js "}") _ ltac:(rewrite H1; discriminate)). cbv iota.
    rewrite map_entry_loop_S.
    step (consumeIdentifier_ok _ ltac:(rewrite H1; reflexivity)). rewrite H1.
    step (consume_hit (js ":") _ H2).
    change (str_eqb (js "value") (js "key")) with false.
    change (str_eqb (js "value") (js "value")) with true. cbv iota zeta.
    rewrite Hty.
    assert (Hval :
      try_catch (throw (fun _ => Error (js "no such type")))
        (fun _ => let* s := Src.parseScalar fuel (type field) in
                  ret (VScalar s)) (nextToken (nextToken (nextToken t)))
      = Ok (VScalar v) t4).
    { unfold bind, try_catch, throw. rewrite Hv. reflexivity. }
    step Hval.
    step (tryConsume_miss (js ",") t4 ltac:(rewrite H4; discriminate)).
    step (tryConsume_hit (js "}") t4 H4).
    cbv iota. rewrite ?bind_ret. cbn [fst snd].
    unfold Src.set_entry. cbv zeta. rewrite Hget.
    rewrite assign_other by discriminate. reflexivity.
  - intros k t4 entries H1 H2 Hk H4 Hproto Hget.
    rewrite mergeMapField_S.
    step (tryConsume_miss (js ":") t Hcolon). step (open_brace t H0).
    step (tryConsume_miss (js "}") _ ltac:(rewrite H1; discriminate)). cbv iota.
    rewrite map_entry_loop_S.
    step (consumeIdentifier_ok _ ltac:(rewrite H1; reflexivity)). rewrite H1.
    step (consume_hit (js ":") _ H2).
    change (str_eqb (js "key") (js "key")) with true. cbv iota.
    step Hk.
    step (tryConsume_miss (js ",") t4 ltac:(rewrite H4; discriminate)).
    step (tryConsume_hit (js "}") t4 H4).
    cbv iota. rewrite ?bind_ret. cbn [fst snd].
    unfold Src.set_entry. cbv zeta. rewrite Hget.
    rewrite assign_other by exact Hproto. reflexivity.
Qed.

End MapEdges.

(** ** Errors of the scalar consumers, and the two spellings of a name *)

Section Errors.

(** X14. An error of [parseScalar] for a type other than [string] carries the
    position of the token the cursor was on, whether it was built before
    the cursor moved or, as the previous position, after. *)
Theorem scalar_error_points_at_the_token (fuel : nat) (ty : jsstring)
    (t : Tokenizer) (e : exn) (t' : Tokenizer) :
  ty <> js "string" ->
  Src.parseScalar fuel ty t = Throw e t' ->
  (exists message,
     e = ParseError message (Some (_line t + 1)%Z) (Some (_column t + 1)%Z))
  /\ (t' = t \/ t' = nextToken t).
Proof.
  intros Hty. unfold Src.parseScalar.
  assert (Hstr : str_eqb ty (js "string") = false)
    by (apply bool_decide_eq_false; exact Hty).
  rewrite Hstr.
  destruct (str_eqb ty (js "double") || str_eqb ty (js "float")).
  { unfold Src.consumeFloat, bind, get_token, advance, ret.
    destruct (endsWith _ _); discriminate. }
  destruct (str_eqb ty (js "int32") || str_eqb ty (js "sint32")
            || str_eqb ty (js "sfixed32")).
  { unfold Src.consumeInt32, bind, get_token, advance, ret, throw.
    destruct (isNaN _); [| discriminate].
    rewrite error_at_previous. intros [= <- <-]. eauto. }
  destruct (str_eqb ty (js "uint32") || str_eqb ty (js "fixed32")).
  { unfold Src.consumeUint32, bind, get_token, advance, ret, throw.
    destruct (isNaN _); [| discriminate].
    rewrite error_at_previous. intros [= <- <-]. eauto. }
  destruct (str_eqb ty (js "int64") || str_eqb ty (js "sint64")
            || str_eqb ty (js "sfixed64")).
  { unfold Src.consumeInt64, bind, get_token, advance, ret, throw.
    destruct (BigInt_of_string _); [discriminate |].
    rewrite error_at_previous. intros [= <- <-]. eauto. }
  destruct (str_eqb ty (js "uint64") || str_eqb ty (js "fixed64")).
  { unfold Src.consumeUint64, bind, get_token, advance, ret, throw.
    destruct (BigInt_of_string _); [discriminate |].
    rewrite error_at_previous. intros [= <- <-]. eauto. }
  destruct (str_eqb ty (js "bool")).
  { unfold Src.consumeBool, bind, get_token, advance, ret, throw.
    destruct (_ || _); [discriminate |].
    destruct (_ || _); [discriminate |].
    rewrite error_at_previous. intros [= <- <-]. eauto. }
  destruct (str_eqb ty (js "bytes")).
  { unfold Src.consumeByteString, Src._consumeByteString, bind, get_token,
      advance, ret, throw, parseError.
    destruct (token t) as [| q tok]; [intros [= <- <-]; eauto |].
    destruct (negb (is_quote q)); [intros [= <- <-]; eauto |].
    destruct (_ || _); [intros [= <- <-]; eauto |].
    destruct (Src.cUnescape _); [discriminate | intros [= <- <-]; eauto]. }
  unfold throw, parseError. intros [= <- <-]. eauto.
Qed.

End Errors.

Section FieldNames.

Variable options : ParserOptions.

Lemma word_test_toCamelCase s : word_test s = true -> word_test (toCamelCase s) = true.
Proof.
  assert (Hall : forall n s, (List.length s <= n)%nat ->
            forallb is_word s = true -> forallb is_word (toCamelCase s) = true).
  { induction n as [| n IH]; intros [| c rest] Hn Hs; try reflexivity;
      [simpl in Hn; lia |].
    cbn [forallb] in Hs. apply andb_true_iff in Hs as [Hc Hrest].
    simpl in Hn. cbn [toCamelCase].
    destruct (c =? 95).
    - destruct rest as [| d rest']; [cbn [forallb]; rewrite Hc; reflexivity |].
      cbn [forallb] in Hrest. pose proof Hrest as Hrest0.
      apply andb_true_iff in Hrest as [Hd Hrest'].
      destruct (is_lower d) eqn:Hl.
      + cbn [forallb]. rewrite (IH rest') by (simpl in Hn; auto; lia).
        rewrite andb_true_r. unfold upper_unit. rewrite Hl. clear - Hl. chars.
      + cbn [forallb]. rewrite Hc. apply (IH (d :: rest')); [lia | exact Hrest0].
    - cbn [forallb]. rewrite Hc. apply IH; [lia | exact Hrest]. }
  unfold word_test. destruct s as [| c rest]; [discriminate |].
  intros Hs. pose proof (Hall _ (c :: rest) (Nat.le_refl _) Hs) as H.
  destruct (toCamelCase (c :: rest)) eqn:E; [| exact H].
  exfalso. cbn [toCamelCase] in E. destruct (c =? 95).
  - destruct rest as [| d rest']; [discriminate |].
    destruct (is_lower d); discriminate.
  - discriminate.
Qed.

(** X16. A field can be written in snake case or in camel case: both spellings
    are found as the same field. *)
Theorem snake_and_camel_name_one_field (fuel : nat) (ty : MessageType)
    (t t' : Tokenizer) (field : Field) :
  allowFieldNumber options = false ->
  word_test (token t) = true ->
  fields ty (toCamelCase (token t)) = Some field ->
  token t' = toCamelCase (token t) ->
  Src.resolve_field options fuel ty t = Ok (Some field, token t) (nextToken t)
  /\ Src.resolve_field options fuel ty t' = Ok (Some field, token t') (nextToken t').
Proof.
  intros Hnum Hw Hfield Htok. split.
  - apply resolve_field_named; auto. rewrite Hnum. reflexivity.
  - apply resolve_field_named.
    + rewrite Htok. apply word_test_toCamelCase. exact Hw.
    + rewrite Hnum. reflexivity.
    + rewrite Htok. rewrite (toCamelCase_idem_bounded _ _ (Nat.le_refl _)). exact Hfield.
Qed.

End FieldNames.

(** ** Enum fields *)

Section Enums.

Lemma digits_are_words ds : forallb is_digit ds = true -> forallb is_word ds = true.
Proof.
  rewrite !List.forallb_forall. intros H c Hc. specialize (H c Hc).
  unfold is_word. rewrite H. apply orb_true_r || (rewrite orb_true_r; reflexivity).
Qed.

Lemma natural_text z :
  (0 <= z)%Z ->
  word_test (Z_to_string z) = true /\ signed_digits (Z_to_string z) = true.
Proof.
  intros Hz. destruct (Z_to_string_shape z) as (c & ds & _ & Hall & _ & _ & ->).
  assert (Hneg : (z <? 0)%Z = false) by (apply Z.ltb_ge; exact Hz).
  rewrite Hneg. split.
  - unfold word_test. apply digits_are_words. exact Hall.
  - unfold signed_digits, all_digits.
    pose proof Hall as Hc. cbn [forallb] in Hc. apply andb_true_iff in Hc as [Hc _].
    destruct (digit_head c Hc) as [H45 _].
    cbn [strip_minus]. rewrite H45. cbn [snd]. exact Hall.
Qed.

(** X17. The value of an enum field.  A number is taken as it is, whether
    the enum declares it or not; a name must be declared, and the error
    for one that is not carries no position (a name that is no member of
    [Object.prototype]: the lookup in [values] would find that member). *)
Theorem enum_field_values (fuel : nat) (message : properties) (field : Field)
    (enumType : Enum) (t : Tokenizer) :
  resolvedType field = Some (ResolvedEnum enumType) ->
  repeated field = false ->
  (forall z : Z,
     (0 <= z < 2 ^ 53)%Z -> token t = Z_to_string z ->
     Src.mergeScalarField fuel message field t
     = Ok (<[name field := VScalar (SNumber (of_Z z))]> message) (nextToken t))
  /\ (word_test (token t) = true -> signed_digits (token t) = false ->
      inherited_name (token t) = false ->
      Src.mergeScalarField fuel message field t
      = match List.find (fun kv => str_eqb (fst kv) (token t)) (values enumType) with
        | Some (_, z) =>
            Ok (<[name field := VScalar (SNumber (of_Z z))]> message) (nextToken t)
        | None =>
            Throw (ParseError
                     (js "Enum type " ++ quoted (enum_name enumType)
                      ++ js " has no value named " ++ token t ++ js ".")
                     None None)
              (nextToken t)
        end).
Proof.
  intros Hres Hrep. unfold Src.mergeScalarField. rewrite Hres, Hrep. split.
  - intros z Hz Htok. destruct (natural_text z ltac:(lia)) as [Hw Hs].
    rewrite <- Htok in Hw.
    rewrite ?bind_assoc. step (consumeIdentifierOrNumber_ok t Hw).
    unfold Src.parseEnum. rewrite Htok, Hs, parseInt_decimal.
    rewrite safe_integer by lia. reflexivity.
  - intros Hw Hs _.
    rewrite ?bind_assoc. step (consumeIdentifierOrNumber_ok t Hw).
    unfold Src.parseEnum. rewrite Hs.
    destruct (List.find _ _) as [[n z] |]; reflexivity.
Qed.

End Enums.

(** ** Hexadecimal and octal integers in [dist/src/parser.js] *)

Section Bases.

Lemma radix_digit_hex c : is_hex c = true -> radix_digit 16 c = Some (hex_digit c).
Proof.
  intros H. unfold radix_digit, digit_value, hex_digit.
  destruct (is_digit c) eqn:Hd.
  - assert (Hlt : (c - 48 <? 16) = true) by (apply N.ltb_lt; clear - Hd; chars).
    rewrite Hlt. reflexivity.
  - destruct (in_range 97 102 c) eqn:Hl.
    + assert (Hlow : is_lower c = true) by (clear - Hl; chars).
      rewrite Hlow.
      assert (Hlt : (c - 97 + 10 <? 16) = true) by (apply N.ltb_lt; clear - Hl; chars).
      rewrite Hlt. f_equal. clear - Hl. chars.
    + assert (Hup : in_range 65 70 c = true).
      { unfold is_hex in H. rewrite Hd, Hl in H. exact H. }
      assert (Hlow : is_lower c = false) by (clear - Hup; chars).
      assert (Hupper : is_upper c = true) by (clear - Hup; chars).
      rewrite Hlow, Hupper.
      assert (Hlt : (c - 65 + 10 <? 16) = true) by (apply N.ltb_lt; clear - Hup; chars).
      rewrite Hlt. f_equal. clear - Hup. chars.
Qed.

Lemma radix_digit_octal c : is_octal c = true -> radix_digit 8 c = Some (hex_digit c).
Proof.
  intros H. unfold radix_digit, digit_value, hex_digit.
  assert (Hd : is_digit c = true) by (clear - H; chars).
  rewrite Hd.
  assert (Hlt : (c - 48 <? 8) = true) by (apply N.ltb_lt; clear - H; chars).
  rewrite Hlt. reflexivity.
Qed.

Lemma take_digits_radix R p ds :
  (forall c, p c = true -> radix_digit R c = Some (hex_digit c)) ->
  forallb p ds = true ->
  take_digits R ds = (List.map hex_digit ds, []).
Proof.
  intros Hp. induction ds as [| c ds IH]; [reflexivity |].
  cbn [forallb]. intros H. apply andb_true_iff in H as [Hc Hds].
  cbn [take_digits]. rewrite (Hp c Hc), (IH Hds). reflexivity.
Qed.

Lemma digits_value_radix R ds :
  digits_value R (List.map hex_digit ds) = radix_value R ds.
Proof.
  unfold digits_value, radix_value. generalize 0.
  induction ds as [| c ds IH]; intros acc; [reflexivity | apply IH].
Qed.

Lemma hex_not_space c : is_hex c = true -> is_space c = false.
Proof. intros H. unfold is_hex in H. chars. Qed.

Lemma octal_is_hex c : is_octal c = true -> is_hex c = true.
Proof. intros H. unfold is_hex. chars. Qed.

Lemma forallb_weaken {A} (p q : A -> bool) l :
  (forall a, p a = true -> q a = true) -> forallb p l = true -> forallb q l = true.
Proof.
  intros Hpq. rewrite !List.forallb_forall. intros H a Ha. apply Hpq, H, Ha.
Qed.

(** A text that ends with a hexadecimal digit and starts with no white
    space is left alone by [trim]. *)
Lemma trim_literal pre ds :
  trim_start (pre ++ ds) = pre ++ ds ->
  ds <> [] -> forallb is_hex ds = true ->
  trim (pre ++ ds) = pre ++ ds.
Proof.
  intros Hstart Hne Hall. unfold trim. rewrite Hstart. unfold trim_end.
  rewrite rev_app_distr.
  destruct (rev ds) as [| c r] eqn:Hr.
  - apply (f_equal (@rev N)) in Hr. rewrite rev_involutive in Hr. contradiction.
  - assert (Hc : is_hex c = true).
    { rewrite List.forallb_forall in Hall. apply Hall.
      apply in_rev. rewrite Hr. left. reflexivity. }
    cbn [app trim_start]. rewrite (hex_not_space c Hc).
    change (c :: r ++ rev pre) with ((c :: r) ++ rev pre).
    rewrite <- Hr, <- rev_app_distr. apply rev_involutive.
Qed.

Lemma double_of_safe m : m < 2 ^ 53 -> double_of_nat m = m.
Proof.
  intros Hm. unfold double_of_nat.
  assert (Hsize : (N.size m <=? 53) = true).
  { apply N.leb_le. destruct (N.eq_dec m 0) as [-> | Hne]; [simpl; lia |].
    rewrite N.size_log2 by exact Hne.
    apply N.le_succ_l. apply N.log2_lt_pow2; lia. }
  rewrite Hsize. reflexivity.
Qed.

Lemma not_NaN_of_int neg m : isNaN (number_of_int neg m) = false.
Proof. unfold number_of_int. destruct (_ <=? _); reflexivity. Qed.

Lemma BigInt_of_int neg m :
  m < overflow_threshold ->
  BigInt_of_number (number_of_int neg m)
  = Some (if neg then - Z.of_N (double_of_nat m) else Z.of_N (double_of_nat m))%Z.
Proof.
  intros Hm. unfold number_of_int.
  assert (Hlt : (overflow_threshold <=? m) = false) by (apply N.leb_gt; exact Hm).
  rewrite Hlt. unfold BigInt_of_number. cbn [Z.leb Z.compare Z.to_N].
  rewrite N.pow_0_r, N.mul_1_r. reflexivity.
Qed.

(** X13. [parseInteger] of [dist/src/parser.js] on hexadecimal and octal
    texts.  The digits are read in their base.  With [BigInt], a text
    that goes through [parseInt] (a negative hexadecimal, any octal) is
    first a Number, so its value is rounded to 53 significant bits;
    below [2^53] nothing is lost. *)
Theorem dist_integer_bases (x : N) (hs os : jsstring) :
  x = 120 \/ x = 88 ->
  hs <> [] -> forallb is_hex hs = true ->
  os <> [] -> forallb is_octal os = true ->
  let h := radix_value 16 hs in
  let o := radix_value 8 os in
  Dist.parseInteger (48 :: x :: hs) Dist.Number = Some (number_of_int false h)
  /\ Dist.parseInteger (45 :: 48 :: x :: hs) Dist.Number = Some (number_of_int true h)
  /\ Dist.parseInteger (48 :: x :: hs) Dist.BigInt = Some (Z.of_N h)
  /\ (h < overflow_threshold ->
      Dist.parseInteger (45 :: 48 :: x :: hs) Dist.BigInt
      = Some (- Z.of_N (double_of_nat h))%Z)
  /\ Dist.parseInteger (48 :: os) Dist.Number = Some (number_of_int false o)
  /\ Dist.parseInteger (45 :: 48 :: os) Dist.Number = Some (number_of_int true o)
  /\ (o < overflow_threshold ->
      Dist.parseInteger (48 :: os) Dist.BigInt = Some (Z.of_N (double_of_nat o))
      /\ Dist.parseInteger (45 :: 48 :: os) Dist.BigInt
         = Some (- Z.of_N (double_of_nat o))%Z)
  /\ (forall m, m < 2 ^ 53 -> double_of_nat m = m).
Proof.
  intros Hx Hhs Hhex Hos Hoct h o.
  assert (Hxb : (x =? 120) || (x =? 88) = true)
    by (destruct Hx as [-> | ->]; reflexivity).
  assert (Hx0 : startsWith (js "0x") (48 :: x :: hs)
                || startsWith (js "0X") (48 :: x :: hs) = true).
  { destruct Hx as [-> | ->]; reflexivity. }
  assert (Hmx : startsWith (js "-0x") (45 :: 48 :: x :: hs)
                || startsWith (js "-0X") (45 :: 48 :: x :: hs) = true).
  { destruct Hx as [-> | ->]; reflexivity. }
  assert (Htake : take_digits 16 hs = (List.map hex_digit hs, []))
    by (apply (take_digits_radix 16 is_hex); [apply radix_digit_hex | exact Hhex]).
  assert (Hmap : List.map hex_digit hs <> [])
    by (destruct hs; [contradiction | discriminate]).
  assert (Htrim : trim (48 :: x :: hs) = 48 :: x :: hs)
    by (apply (trim_literal [48; x] hs); auto).
  assert (Hlit : non_decimal_literal (48 :: x :: hs) = Some (Some h)).
  { unfold non_decimal_literal. change (48 =? 48) with true. cbn [negb].
    rewrite Hxb, Htake.
    destruct (List.map hex_digit hs) as [| d ds] eqn:E; [contradiction |].
    rewrite <- E, digits_value_radix. reflexivity. }
  assert (HparseInt : parseInt (45 :: 48 :: x :: hs) 16 = number_of_int true h).
  { unfold parseInt. change (trim_start (45 :: 48 :: x :: hs)) with (45 :: 48 :: x :: hs).
    cbn [strip_sign]. change (45 =? 45) with true. cbv iota.
    change (16 =? 16) with true. cbv iota. unfold strip_hex_prefix.
    change (48 =? 48) with true. rewrite Hxb. cbn [andb].
    rewrite Htake. cbn [fst].
    destruct (List.map hex_digit hs) as [| d ds] eqn:E; [contradiction |].
    rewrite <- E, digits_value_radix. reflexivity. }
  (* octal *)
  assert (Hoh : forallb is_hex os = true)
    by (apply (forallb_weaken is_octal); [apply octal_is_hex | exact Hoct]).
  destruct os as [| c os']; [contradiction |].
  pose proof Hoct as Hc. cbn [forallb] in Hc. apply andb_true_iff in Hc as [Hc _].
  assert (Hcx : (120 =? c) = false /\ (88 =? c) = false) by (clear - Hc; split; chars).
  destruct Hcx as [Hc120 Hc88].
  assert (Ho0 : startsWith (js "0x") (48 :: c :: os')
                || startsWith (js "0X") (48 :: c :: os') = false).
  { change (js "0x") with [48; 120]. change (js "0X") with [48; 88].
    cbn [startsWith]. rewrite Hc120, Hc88. reflexivity. }
  assert (Hmo : startsWith (js "-0x") (45 :: 48 :: c :: os')
                || startsWith (js "-0X") (45 :: 48 :: c :: os') = false).
  { change (js "-0x") with [45; 48; 120]. change (js "-0X") with [45; 48; 88].
    cbn [startsWith]. rewrite Hc120, Hc88. reflexivity. }
  assert (Ho1 : startsWith (js "-0x") (48 :: c :: os')
                || startsWith (js "-0X") (48 :: c :: os') = false) by reflexivity.
  assert (Hm1 : startsWith (js "0x") (45 :: 48 :: c :: os')
                || startsWith (js "0X") (45 :: 48 :: c :: os') = false) by reflexivity.
  assert (Htest : Dist.c_octal_test (48 :: c :: os') = true
                  /\ Dist.c_octal_test (45 :: 48 :: c :: os') = true).
  { unfold Dist.c_octal_test. cbn [strip_minus snd].
    change (48 =? 45) with false. change (45 =? 45) with true. cbv iota.
    cbn [snd]. change (48 =? 48) with true. rewrite Hoct. split; reflexivity. }
  destruct Htest as [Htest Htestm].
  assert (Htake8 : take_digits 8 (48 :: c :: os')
                   = (List.map hex_digit (48 :: c :: os'), [])).
  { apply (take_digits_radix 8 is_octal); [apply radix_digit_octal |].
    cbn [forallb]. exact Hoct. }
  assert (Hzero : radix_value 8 (48 :: c :: os') = o).
  { unfold o, radix_value. reflexivity. }
  assert (Hp8 : forall neg : bool,
            parseInt (if neg then 45 :: 48 :: c :: os' else 48 :: c :: os') 8
            = number_of_int neg o).
  { intros neg. unfold parseInt.
    assert (Hs : strip_sign (trim_start (if neg then 45 :: 48 :: c :: os'
                                         else 48 :: c :: os'))
                 = (neg, 48 :: c :: os')) by (destruct neg; reflexivity).
    rewrite Hs. change (8 =? 16) with false. cbv iota. rewrite Htake8. cbn [fst].
    destruct (List.map hex_digit (48 :: c :: os')) as [| d ds] eqn:E;
      [discriminate |].
    rewrite <- E, digits_value_radix, Hzero. reflexivity. }
  unfold Dist.parseInteger.
  rewrite Hx0, Hmx, Ho0, Hmo, Ho1, Hm1, Htest, Htestm.
  assert (Hx1 : startsWith (js "0x") (45 :: 48 :: x :: hs)
                || startsWith (js "0X") (45 :: 48 :: x :: hs) = false) by reflexivity.
  rewrite Hx1.
  cbn [Dist.of_string Dist.of_number Dist.is_NaN Dist.Number Dist.BigInt].
  unfold Number_of_string, BigInt_of_string. rewrite Htrim, Hlit.
  rewrite HparseInt, (Hp8 false), (Hp8 true), !not_NaN_of_int.
  repeat split.
  - intros Hh. rewrite (BigInt_of_int true h Hh). reflexivity.
  - rewrite (BigInt_of_int false o H). reflexivity.
  - rewrite (BigInt_of_int true o H). reflexivity.
  - apply double_of_safe.
Qed.

End Bases.

(** ** [parse] returns or throws on every text *)

Section Wp.

Lemma wp_bind {A B} (m : M A) (k : A -> M B) t Q E :
  wp m t (fun a t1 => wp (k a) t1 Q E) E -> wp (bind m k) t Q E.
Proof. unfold wp, bind. destruct (m t); auto. Qed.

Lemma wp_ret {A} (a : A) t (Q : A -> Tokenizer -> Prop) E :
  Q a t -> wp (ret a) t Q E.
Proof. auto. Qed.

Lemma wp_throw {A} e t (Q : A -> Tokenizer -> Prop) (E : Tokenizer -> Prop) :
  E t -> wp (throw e) t Q E.
Proof. auto. Qed.

Lemma wp_conseq {A} (m : M A) t (Q Q' : A -> Tokenizer -> Prop)
    (E E' : Tokenizer -> Prop) :
  wp m t Q' E' -> (forall a t', Q' a t' -> Q a t') -> (forall t', E' t' -> E t') ->
  wp m t Q E.
Proof. unfold wp. destruct (m t); auto. Qed.

Lemma wp_try_catch {A} (m : M A) (h : exn -> M A) t Q E :
  wp m t Q (fun t1 => forall e, wp (h e) t1 Q E) -> wp (try_catch m h) t Q E.
Proof.
  unfold wp, try_catch. destruct (m t) as [a t1 | e t1 | |]; auto.
  intros H. apply (H e).
Qed.

Lemma wp_get_token t (Q : jsstring -> Tokenizer -> Prop) E :
  Q (token t) t -> wp get_token t Q E.
Proof. auto. Qed.

(** Moving on from a token that is not empty leaves fewer units. *)
Lemma advance_lands t n :
  lands n t -> lands n (nextToken t)
  /\ (token t <> [] -> exists n', n = S n' /\ lands n' (nextToken t)).
Proof.
  intros [Hr Hm].
  destruct (nextToken_ready t (ready_steady t Hr)) as [Hr' Hm'].
  split; [split; [exact Hr' | lia] |].
  intros Hne. destruct (token t) as [| c tok]; [contradiction |].
  cbn [List.length] in Hm'. destruct n as [| n']; [lia |].
  exists n'. split; [reflexivity |]. split; [exact Hr' | lia].
Qed.

Lemma wp_advance t n (Q : unit -> Tokenizer -> Prop) E :
  lands n t -> (forall t1, lands n t1 -> Q tt t1) -> wp advance t Q E.
Proof. intros H HQ. apply HQ. apply advance_lands. exact H. Qed.

Lemma wp_tryConsume s t n (Q : bool -> Tokenizer -> Prop) E :
  lands n t -> s <> [] ->
  (forall t1 n', n = S n' -> lands n' t1 -> Q true t1) ->
  Q false t ->
  wp (tryConsume s) t Q E.
Proof.
  intros H Hs Hhit Hmiss. unfold wp, tryConsume, bind, get_token, advance, ret.
  unfold str_eqb. destruct (bool_decide (token t = s)) eqn:Htok; [| exact Hmiss].
  apply bool_decide_eq_true in Htok.
  destruct (proj2 (advance_lands t n H) ltac:(congruence)) as (n' & -> & Hl).
  apply (Hhit _ n' eq_refl Hl).
Qed.

Lemma wp_consume s t n (Q : unit -> Tokenizer -> Prop) (E : Tokenizer -> Prop) :
  lands n t -> s <> [] ->
  (forall t1 n', n = S n' -> lands n' t1 -> Q tt t1) ->
  E t ->
  wp (consume s) t Q E.
Proof.
  intros H Hs Hhit Hmiss. unfold consume. apply wp_bind.
  apply wp_tryConsume with (n := n); auto.
Qed.

Lemma identifier_not_empty s : _IDENTIFIER_test s = true -> s <> [].
Proof. intros H ->. discriminate. Qed.

Lemma word_not_empty s : word_test s = true -> s <> [].
Proof. intros H ->. discriminate. Qed.

Lemma wp_consumeIdentifier t n (Q : jsstring -> Tokenizer -> Prop)
    (E : Tokenizer -> Prop) :
  lands n t ->
  (forall r t1 n', n = S n' -> lands n' t1 -> Q r t1) ->
  E t ->
  wp consumeIdentifier t Q E.
Proof.
  intros H Hhit Hmiss. unfold wp, consumeIdentifier, bind, get_token, advance, ret, throw.
  destruct (_IDENTIFIER_test (token t)) eqn:Hid; cbn [negb]; [| exact Hmiss].
  destruct (proj2 (advance_lands t n H) (identifier_not_empty _ Hid))
    as (n' & -> & Hl).
  apply (Hhit _ _ n' eq_refl Hl).
Qed.

Lemma wp_consumeIdentifierOrNumber t n (Q : jsstring -> Tokenizer -> Prop)
    (E : Tokenizer -> Prop) :
  lands n t ->
  (forall r t1 n', n = S n' -> lands n' t1 -> Q r t1) ->
  E t ->
  wp consumeIdentifierOrNumber t Q E.
Proof.
  intros H Hhit Hmiss.
  unfold wp, consumeIdentifierOrNumber, bind, get_token, advance, ret, throw.
  destruct (word_test (token t)) eqn:Hid; cbn [negb]; [| exact Hmiss].
  destruct (proj2 (advance_lands t n H) (word_not_empty _ Hid))
    as (n' & -> & Hl).
  apply (Hhit _ _ n' eq_refl Hl).
Qed.

Lemma wp_open_delimiter t n (Q : jsstring -> Tokenizer -> Prop)
    (E : Tokenizer -> Prop) :
  lands n t ->
  (forall e t1 n', e <> [] -> n = S n' -> lands n' t1 -> Q e t1) ->
  E t ->
  wp Src.open_delimiter t Q E.
Proof.
  intros H Hhit Hmiss. unfold Src.open_delimiter. apply wp_bind.
  apply wp_tryConsume with (n := n); [exact H | discriminate | |].
  - intros t1 n' -> Hl. apply wp_ret. apply (Hhit _ _ n'); auto; discriminate.
  - apply wp_bind. apply wp_consume with (n := n); [exact H | discriminate | |].
    + intros t1 n' -> Hl. apply wp_ret. apply (Hhit _ _ n'); auto; discriminate.
    + exact Hmiss.
Qed.

Lemma lands_le n n' t : lands n t -> (n <= n')%nat -> lands n' t.
Proof. intros [Hr Hm] Hle. split; [exact Hr | lia]. Qed.

End Wp.

(** Closing goals on [lands]. *)
Ltac landed :=
  match goal with
  | H : lands ?m ?t |- lands ?n ?t => apply (lands_le m n t H); lia
  | H : lands ?m ?t |- exists n', ?n = S n' /\ lands n' ?t =>
      exists (Nat.pred n); split; [lia | apply (lands_le m _ t H); lia]
  | |- True => exact I
  end.

(** One step of a method under [wp]. *)
Ltac wp_step :=
  cbv beta iota;
  lazymatch goal with
  | |- wp (tryConsume _) ?t _ _ =>
      match goal with
      | H : lands ?n t |- _ =>
          apply (wp_tryConsume _ t n);
          [exact H | first [discriminate | assumption]
          | let t1 := fresh "t" in let n' := fresh "n" in let Hl := fresh "Hl" in
            intros t1 n' -> Hl
          | ]
      end
  | |- wp (consume _) ?t _ _ =>
      match goal with
      | H : lands ?n t |- _ =>
          apply (wp_consume _ t n);
          [exact H | first [discriminate | assumption]
          | let t1 := fresh "t" in let n' := fresh "n" in let Hl := fresh "Hl" in
            intros t1 n' -> Hl
          | ]
      end
  | |- wp consumeIdentifier ?t _ _ =>
      match goal with
      | H : lands ?n t |- _ =>
          apply (wp_consumeIdentifier t n);
          [exact H
          | let r := fresh "r" in let t1 := fresh "t" in let n' := fresh "n" in
            let Hl := fresh "Hl" in intros r t1 n' -> Hl
          | ]
      end
  | |- wp consumeIdentifierOrNumber ?t _ _ =>
      match goal with
      | H : lands ?n t |- _ =>
          apply (wp_consumeIdentifierOrNumber t n);
          [exact H
          | let r := fresh "r" in let t1 := fresh "t" in let n' := fresh "n" in
            let Hl := fresh "Hl" in intros r t1 n' -> Hl
          | ]
      end
  | |- wp Src.open_delimiter ?t _ _ =>
      match goal with
      | H : lands ?n t |- _ =>
          apply (wp_open_delimiter t n);
          [exact H
          | let e := fresh "endToken" in let t1 := fresh "t" in
            let n' := fresh "n" in let He := fresh "Hend" in
            let Hl := fresh "Hl" in intros e t1 n' He -> Hl
          | ]
      end
  | |- wp get_token _ _ _ => apply wp_get_token
  | |- wp (Src.TypeError _) _ _ _ => apply wp_throw
  | |- wp (ret _) _ _ _ => apply wp_ret
  | |- wp (throw _) _ _ _ => apply wp_throw
  | |- wp (bind _ _) _ _ _ => apply wp_bind
  | |- wp (if ?b then _ else _) _ _ _ => destruct b
  | |- wp (match ?x with _ => _ end) _ _ _ => destruct x
  end.

Ltac wp_run := repeat first [landed | wp_step].

(** Calling a method whose bounds are known: [L] is its lemma, less the
    cursor, the bound, and the proofs that the cursor lands within the
    bound and that the fuel covers it. *)
Ltac wp_use L :=
  cbv beta iota;
  lazymatch goal with
  | |- wp (bind _ _) _ _ _ => apply wp_bind
  | _ => idtac
  end;
  match goal with
  | |- wp _ ?t _ _ =>
      match goal with
      | H : lands ?n t |- _ =>
          eapply wp_conseq;
          [ first [ eapply (L t n H); lia | eapply (L t n H) ]
          | cbv beta; intros
          | cbv beta; intros ]
      end
  end;
  repeat match goal with
         | H : exists n', _ = S n' /\ lands n' _ |- _ =>
             let n' := fresh "n" in let Hl := fresh "Hl" in
             destruct H as (n' & -> & Hl)
         end.

(** Going on with [L], which takes the cursor, its bound, the proof that
    it lands there, and a bound to check. *)
Ltac wp_then L :=
  match goal with
  | |- wp _ ?t _ _ =>
      match goal with
      | H : lands ?n t |- _ => apply (L _ t n H); lia
      end
  end.

Section WpSrc.

Variable options : ParserOptions.
Variable lookupType : jsstring -> option MessageType.
Variable create : MessageType -> properties.
Variable Number_toString : number -> jsstring.

(** *** The literal consumers *)

Lemma wp_consumeFloat t n :
  lands n t -> wp Src.consumeFloat t (fun _ => lands n) (lands n).
Proof.
  intros H. unfold Src.consumeFloat. apply wp_bind, wp_get_token, wp_bind.
  apply wp_advance with (n := n); [exact H |]. intros t1 Hl. wp_run.
Qed.

Lemma wp_consumeInt32 t n :
  lands n t -> wp Src.consumeInt32 t (fun _ => lands n) (lands n).
Proof.
  intros H. unfold Src.consumeInt32. apply wp_bind, wp_get_token, wp_bind.
  apply wp_advance with (n := n); [exact H |]. intros t1 Hl. wp_run.
Qed.

Lemma wp_consumeUint32 t n :
  lands n t -> wp Src.consumeUint32 t (fun _ => lands n) (lands n).
Proof.
  intros H. unfold Src.consumeUint32. apply wp_bind, wp_get_token, wp_bind.
  apply wp_advance with (n := n); [exact H |]. intros t1 Hl. wp_run.
Qed.

Lemma wp_consumeInt64 t n :
  lands n t -> wp Src.consumeInt64 t (fun _ => lands n) (lands n).
Proof.
  intros H. unfold Src.consumeInt64. apply wp_bind, wp_get_token, wp_bind.
  apply wp_advance with (n := n); [exact H |]. intros t1 Hl. wp_run.
Qed.

Lemma wp_consumeUint64 t n :
  lands n t -> wp Src.consumeUint64 t (fun _ => lands n) (lands n).
Proof.
  intros H. unfold Src.consumeUint64. apply wp_bind, wp_get_token, wp_bind.
  apply wp_advance with (n := n); [exact H |]. intros t1 Hl. wp_run.
Qed.

Lemma wp_consumeBool t n :
  lands n t -> wp Src.consumeBool t (fun _ => lands n) (lands n).
Proof.
  intros H. unfold Src.consumeBool. apply wp_bind, wp_get_token, wp_bind.
  apply wp_advance with (n := n); [exact H |]. intros t1 Hl. wp_run.
Qed.

Lemma wp__consumeByteString t n :
  lands n t ->
  wp Src._consumeByteString t
    (fun _ t1 => exists n', n = S n' /\ lands n' t1) (lands n).
Proof.
  intros H. unfold Src._consumeByteString. apply wp_bind, wp_get_token.
  cbv beta. destruct (token t) as [| q tok] eqn:Htok; [wp_run |].
  destruct (negb (is_quote q)); [wp_run |].
  destruct (_ || _); [wp_run |].
  destruct (Src.cUnescape _); [| wp_run].
  apply wp_bind.
  destruct (proj2 (advance_lands t n H) ltac:(rewrite Htok; discriminate))
    as (n' & -> & Hl).
  unfold wp at 1, advance. apply wp_ret. eauto.
Qed.

Lemma wp_consumeString_loop fuel : forall result t n,
  lands n t -> (n < fuel)%nat ->
  wp (Src.consumeString_loop fuel result) t (fun _ => lands n) (lands n).
Proof.
  induction fuel as [| fuel IH]; intros result t n H Hfuel; [lia |].
  cbn [Src.consumeString_loop]. apply wp_bind, wp_get_token. cbv beta.
  destruct (Src.starts_quoted (token t)); [| wp_run].
  apply wp_bind. eapply wp_conseq; [apply (wp__consumeByteString t n H) | |].
  - intros part t1 (n' & -> & Hl). cbv beta.
    eapply wp_conseq; [apply (IH _ t1 n' Hl); lia | |];
      cbv beta; intros; landed.
  - intros t1 Hl. exact Hl.
Qed.

Lemma wp_consumeString fuel t n :
  lands n t -> (n <= fuel)%nat ->
  wp (Src.consumeString fuel) t (fun _ => lands n) (lands n).
Proof.
  intros H Hfuel. unfold Src.consumeString. apply wp_bind.
  eapply wp_conseq; [apply (wp__consumeByteString t n H) | |].
  - intros part t1 (n' & -> & Hl). cbv beta.
    eapply wp_conseq; [apply (wp_consumeString_loop fuel _ t1 n' Hl); lia | |];
      cbv beta; intros; landed.
  - intros t1 Hl. exact Hl.
Qed.

Lemma wp_consumeByteString t n :
  lands n t -> wp Src.consumeByteString t (fun _ => lands n) (lands n).
Proof.
  intros H. unfold Src.consumeByteString. apply wp_bind.
  eapply wp_conseq; [apply (wp__consumeByteString t n H) | |].
  - intros part t1 (n' & -> & Hl). wp_run.
  - intros t1 Hl. exact Hl.
Qed.

Lemma wp_parseScalar fuel ty t n :
  lands n t -> (n <= fuel)%nat ->
  wp (Src.parseScalar fuel ty) t (fun _ => lands n) (lands n).
Proof.
  intros H Hfuel. unfold Src.parseScalar.
  repeat match goal with
         | |- wp (if ?b then _ else _) _ _ _ => destruct b
         end;
    try (apply wp_bind;
         first [ wp_use wp_consumeFloat
               | wp_use wp_consumeInt32
               | wp_use wp_consumeUint32
               | wp_use wp_consumeInt64
               | wp_use wp_consumeUint64
               | wp_use wp_consumeBool
               | wp_use (wp_consumeString fuel)
               | wp_use wp_consumeByteString ];
         wp_run).
  wp_run.
Qed.

Lemma wp_parseEnum enumType value t n :
  lands n t -> wp (Src.parseEnum enumType value) t (fun _ => lands n) (lands n).
Proof.
  intros H. unfold Src.parseEnum.
  destruct (signed_digits value); [wp_run |].
  destruct (List.find _ _) as [[k z] |]; wp_run.
Qed.

Lemma wp_mergeScalarField fuel message field t n :
  lands n t -> (n <= fuel)%nat ->
  wp (Src.mergeScalarField fuel message field) t (fun _ => lands n) (lands n).
Proof.
  intros H Hfuel. unfold Src.mergeScalarField. apply wp_bind.
  assert (Hscalar : wp (Src.parseScalar fuel (type field)) t
                      (fun (a : scalar) (t1 : Tokenizer) =>
                         wp (if repeated field
                             then ret (Src.push message (name field) (VScalar a))
                             else ret (<[name field := VScalar a]> message))
                           t1 (fun _ => lands n) (lands n))
                      (lands n)).
  { wp_use (wp_parseScalar fuel (type field)); wp_run. }
  destruct (resolvedType field) as [[tn tf | e] |]; try exact Hscalar.
  wp_step. wp_step; [| landed]. wp_step.
  wp_use (wp_parseEnum e r); wp_run.
Qed.

Lemma wp_scalar_list_loop fuel : forall message field t n,
  lands n t -> (n < fuel)%nat ->
  wp (Src.scalar_list_loop fuel message field) t (fun _ => lands n) (lands n).
Proof.
  induction fuel as [| fuel IH]; intros message field t n H Hfuel; [lia |].
  cbn [Src.scalar_list_loop]. apply wp_bind.
  wp_use (wp_mergeScalarField fuel message field); [| landed].
  wp_step. wp_step; [wp_run |].
  wp_step. wp_step; [| landed].
  wp_use (IH a field); landed.
Qed.

Lemma wp_extension_name_loop fuel : forall name t n,
  lands n t -> (n < fuel)%nat ->
  wp (Src.extension_name_loop fuel name) t (fun _ => lands n) (lands n).
Proof.
  induction fuel as [| fuel IH]; intros name t n H Hfuel; [lia |].
  cbn [Src.extension_name_loop]. wp_step. wp_step; [| wp_run].
  wp_step. wp_step; [| landed].
  wp_use (IH (name ++ js "." ++ r)); landed.
Qed.

Lemma wp_resolve_field fuel ty t n :
  lands n t -> (n <= fuel)%nat ->
  wp (Src.resolve_field options fuel ty) t
    (fun _ t1 => exists n', n = S n' /\ lands n' t1) (lands n).
Proof.
  intros H Hfuel. unfold Src.resolve_field. wp_step. wp_step.
  - wp_step. wp_step; [| landed]. cbv beta.
    wp_use (wp_extension_name_loop fuel r); [| landed].
    wp_step. wp_step; [| landed].
    destruct (descriptorPool options a) as [[f | o] |]; wp_run.
  - wp_step. wp_step; [| landed]. cbv beta.
    destruct (_ && _); [wp_run |].
    destruct (fields ty (toCamelCase r)); [wp_run |].
    destruct (fields ty (toLowerCase r)) as [f |]; [| wp_run].
    destruct (resolvedType f) as [[tn tf | e] |]; wp_run.
Qed.

(** *** [skipField] *)

Lemma skipField_S fuel :
  Src.skipField (S fuel)
  = (let* colon := tryConsume (js ":") in
     if colon then let* _ := consumeIdentifierOrNumber in ret tt
     else
       let* endToken := Src.open_delimiter in
       Src.skipField_body fuel endToken).
Proof. reflexivity. Qed.

Lemma skipField_body_S fuel endToken :
  Src.skipField_body (S fuel) endToken
  = (let* close := tryConsume endToken in
     if close then ret tt
     else
       let* tok := get_token in
       if str_eqb tok [] then
         throw (parseError (js "Expected " ++ quoted endToken))
       else do Src.skipField fuel in Src.skipField_body fuel endToken).
Proof. reflexivity. Qed.

Lemma wp_skipField fuel :
  (forall t n, lands n t -> (2 * n < fuel)%nat ->
     wp (Src.skipField fuel) t
       (fun _ t1 => exists n', n = S n' /\ lands n' t1) (lands n))
  /\ (forall endToken, endToken <> [] ->
      forall t n, lands n t -> (2 * n + 1 < fuel)%nat ->
        wp (Src.skipField_body fuel endToken) t (fun _ => lands n) (lands n)).
Proof.
  induction fuel as [| fuel [IHfield IHbody]]; [split; intros; lia |].
  split.
  - intros t n H Hfuel. rewrite skipField_S. wp_step. wp_step.
    + wp_step. wp_step; [| landed]. wp_run.
    + wp_step. wp_step; [| landed].
      wp_use (IHbody endToken Hend); landed.
  - intros endToken He t n H Hfuel. rewrite skipField_body_S.
    wp_step. wp_step; [wp_run |].
    wp_step. wp_step. wp_step; [wp_run |].
    wp_use IHfield; [| landed].
    wp_use (IHbody endToken He); landed.
Qed.

(** *** [mergeField] and the methods it calls *)

Abbreviation mergeField :=
  (Src.mergeField options lookupType create Number_toString).
Abbreviation mergeMessageField :=
  (Src.mergeMessageField options lookupType create Number_toString).
Abbreviation message_body :=
  (Src.message_body options lookupType create Number_toString).
Abbreviation mergeMapField :=
  (Src.mergeMapField options lookupType create Number_toString).
Abbreviation map_entry_loop :=
  (Src.map_entry_loop options lookupType create Number_toString).

Lemma message_body_S fuel endToken ty props :
  message_body (S fuel) endToken ty props
  = (let* close := tryConsume endToken in
     if close then ret props
     else
       let* tok := get_token in
       if str_eqb tok [] then
         throw (parseError (js "Expected " ++ quoted endToken))
       else
         let* props := mergeField fuel ty props in
         message_body fuel endToken ty props).
Proof. reflexivity. Qed.

Lemma wp_create_resolved field t n :
  lands n t ->
  wp (Src.create_resolved lookupType create field) t (fun _ => lands n) (lands n).
Proof.
  intros H. unfold Src.create_resolved.
  destruct (resolvedType field) as [[tn tf | e] |]; [| wp_run | wp_run].
  destruct (lookupType tf); wp_run.
Qed.

Lemma wp_set_entry message fname key v t n :
  lands n t ->
  wp (Src.set_entry Number_toString message fname key v) t
    (fun _ => lands n) (lands n).
Proof.
  intros H. unfold Src.set_entry. cbv zeta.
  repeat match goal with
         | |- context [match ?x with _ => _ end] => destruct x
         end;
    first [exact I | wp_run].
Qed.

Abbreviation descends :=
  (Run.descends options lookupType create Number_toString).

Lemma descends_all fuel : descends fuel.
Proof.
  induction fuel as [| fuel (IHfield & IHmessage & IHbody & IHmap & IHentry)];
    [repeat split; intros; lia |].
  split; [| split; [| split; [| split]]].
  - (* mergeField *)
    intros ty message t n H Hfuel. rewrite mergeField_S.
    wp_use (wp_resolve_field fuel ty); [| landed].
    destruct a as [[field |] fieldName].
    2:{ destruct (allowUnknownField options); [| wp_run].
        wp_use (proj1 (wp_skipField fuel)); [| landed]. wp_run. }
    wp_step.
    assert (Hafter : forall (m : properties) (t1 : Tokenizer) n1,
              lands n1 t1 -> (n1 <= n0)%nat ->
              wp (let* _ := tryConsume (js ",") in ret m) t1
                (fun _ t2 => exists n', S n0 = S n' /\ lands n' t2)
                (lands (S n0))).
    { intros m t1 n1 Hl1 Hle. wp_step. wp_step; wp_run. }
    destruct (field_map field).
    { wp_use (IHmap message field); [| landed].
      wp_then Hafter. }
    destruct (resolvedType field) as [[tn tf | e] |].
    + wp_step. wp_step.
      * wp_use (IHmessage message field false); [| landed].
        wp_then Hafter.
      * wp_use (IHmessage message field false); [| landed].
        wp_then Hafter.
    + wp_step. wp_step; [| landed].
      wp_use (wp_mergeScalarField fuel message field); [| landed].
      wp_then Hafter.
    + wp_step. wp_step; [| landed]. wp_step.
      destruct (repeated field).
      * wp_step.
        -- wp_step. wp_step.
           ++ wp_step. wp_then Hafter.
           ++ wp_use (wp_scalar_list_loop fuel message field); [| landed].
              wp_then Hafter.
        -- wp_use (wp_mergeScalarField fuel message field); [| landed].
           wp_then Hafter.
      * wp_step.
        wp_use (wp_mergeScalarField fuel message field); [| landed].
        wp_then Hafter.
  - (* mergeMessageField *)
    intros message field isMapEntry t n H Hfuel. rewrite mergeMessageField_S.
    wp_step. wp_step; [| landed]. wp_step.
    assert (Hbody : forall (sub : value) (t1 : Tokenizer) n1,
              lands n1 t1 -> (n1 <= n0)%nat ->
              wp (match sub with
                  | VMessage ty props =>
                      let* props := message_body fuel endToken ty props in
                      if isMapEntry then
                        match Src.key_of_value (get props (js "key")) with
                        | Some key =>
                            Src.set_entry Number_toString message (name field) key
                              (get props (js "value"))
                        | None => Src.TypeError (js "key is not a scalar")
                        end
                      else if repeated field then
                        ret (Src.push message (name field) (VMessage ty props))
                      else ret (<[name field := VMessage ty props]> message)
                  | other =>
                      let* close := tryConsume endToken in
                      if close then ret (<[name field := other]> message)
                      else
                        let* tok := get_token in
                        if str_eqb tok [] then
                          throw (parseError (js "Expected " ++ quoted endToken))
                        else Src.TypeError (js "cannot read properties of undefined")
                  end) t1
                (fun _ t2 => exists n', S n0 = S n' /\ lands n' t2)
                (lands (S n0))).
    { intros sub t1 n1 Hl1 Hle.
      assert (Hother : forall other : value,
                wp (let* close := tryConsume endToken in
                    if close then ret (<[name field := other]> message)
                    else
                      let* tok := get_token in
                      if str_eqb tok [] then
                        throw (parseError (js "Expected " ++ quoted endToken))
                      else Src.TypeError (js "cannot read properties of undefined"))
                  t1 (fun _ t2 => exists n', S n0 = S n' /\ lands n' t2)
                  (lands (S n0))).
      { intros other. wp_step. wp_step; wp_run. }
      destruct sub as [| s | l | entries | ty props]; try apply Hother.
      wp_use (IHbody endToken ty props Hend); [| landed].
      destruct isMapEntry.
      - destruct (Src.key_of_value _); [| wp_run].
        wp_use (wp_set_entry message (name field) o (get a (js "value")));
          landed.
      - wp_run. }
    destruct isMapEntry.
    { destruct (lookupType _) as [ety |]; [| wp_run]. wp_step.
      apply (Hbody (VMessage ety (create ety)) _ _ Hl). lia. }
    destruct (repeated field).
    { wp_use (wp_create_resolved field); [| landed]. wp_then Hbody. }
    cbv zeta. destruct (truthy _).
    { apply wp_ret. apply (Hbody _ _ _ Hl). lia. }
    wp_use (wp_create_resolved field); [| landed]. wp_then Hbody.
  - (* message_body *)
    intros endToken ty props He t n H Hfuel. rewrite message_body_S.
    wp_step. wp_step; [wp_run |].
    wp_step. wp_step. wp_step; [wp_run |].
    wp_use (IHfield ty props); [| landed].
    wp_use (IHbody endToken ty a He); landed.
  - (* mergeMapField *)
    intros message field t n H Hfuel. rewrite mergeMapField_S.
    assert (Hopen : forall (t1 : Tokenizer) n1,
              lands n1 t1 -> (n1 <= n)%nat ->
              wp (let* endToken := Src.open_delimiter in
                  let* empty := tryConsume endToken in
                  if empty then ret message
                  else
                    let* entry := map_entry_loop fuel field endToken None VUndefined in
                    Src.set_entry Number_toString message (name field)
                      (fst entry) (snd entry)) t1
                (fun _ t2 => exists n', n = S n' /\ lands n' t2)
                (lands n)).
    { intros t1 n1 Hl1 Hle. wp_step. wp_step; [| landed].
      wp_step. wp_step; [wp_run |].
      wp_use (IHentry field endToken None VUndefined Hend); [| landed].
      wp_use (wp_set_entry message (name field) (fst a) (snd a)); landed. }
    wp_step. wp_step.
    + apply (Hopen _ _ Hl). lia.
    + apply (Hopen _ _ H). lia.
  - (* map_entry_loop *)
    intros field endToken key val He t n H Hfuel. rewrite map_entry_loop_S.
    assert (Hrest : forall (entry : option scalar * value) (t1 : Tokenizer) n1,
              lands n1 t1 -> (n1 + 2 <= n)%nat ->
              wp (let* _ := tryConsume (js ",") in
                  let* close := tryConsume endToken in
                  if close then ret entry
                  else map_entry_loop fuel field endToken (fst entry) (snd entry))
                t1 (fun _ t2 => exists n', n = S n' /\ lands n' t2) (lands n)).
    { intros entry t1 n1 Hl1 Hle.
      assert (Hclose : forall (t2 : Tokenizer) n2,
                lands n2 t2 -> (n2 + 2 <= n)%nat ->
                wp (let* close := tryConsume endToken in
                    if close then ret entry
                    else map_entry_loop fuel field endToken (fst entry) (snd entry))
                  t2 (fun _ t3 => exists n', n = S n' /\ lands n' t3) (lands n)).
      { intros t2 n2 Hl2 Hle2. wp_step. wp_step; [wp_run |].
        wp_use (IHentry field endToken (fst entry) (snd entry) He); landed. }
      wp_step. wp_step.
      - apply (Hclose _ _ Hl). lia.
      - apply (Hclose _ _ Hl1). lia. }
    assert (Hscalar : forall (t1 : Tokenizer) n1,
              lands n1 t1 -> (n1 + 2 <= n)%nat ->
              wp (let* s := Src.parseScalar fuel (type field) in ret (VScalar s)) t1
                (fun (a : value) (t2 : Tokenizer) =>
                   wp (ret (key, a)) t2
                     (fun (entry : option scalar * value) (t3 : Tokenizer) =>
                        wp (let* _ := tryConsume (js ",") in
                            let* close := tryConsume endToken in
                            if close then ret entry
                            else map_entry_loop fuel field endToken
                                   (fst entry) (snd entry))
                          t3 (fun _ t4 => exists n', n = S n' /\ lands n' t4)
                          (lands n))
                     (lands n))
                (lands n)).
    { intros t1 n1 Hl1 Hle.
      wp_use (wp_parseScalar fuel (type field)); [| landed].
      apply wp_ret. apply wp_ret.
      match goal with
      | Hx : lands ?m ?tx |- wp _ ?tx _ _ => apply (Hrest _ tx m Hx); lia
      end. }
    wp_step. wp_step; [| landed]. wp_step. wp_step; [| landed]. wp_step.
    destruct (str_eqb r (js "key")).
    { wp_step. wp_use (wp_parseScalar fuel (keyType field)); [| landed].
      wp_step. cbv beta.
      match goal with
      | Hx : lands ?m ?tx |- wp _ ?tx _ _ => apply (Hrest _ tx m Hx); lia
      end. }
    destruct (str_eqb r (js "value")); [| wp_run].
    cbv zeta. wp_step.
    apply wp_try_catch.
    destruct (lookupType (type field)) as [resolvedValueType |].
    + cbv zeta.
      wp_use (IHmessage (create resolvedValueType)
                (mkField (js "value") 2 (type field) false false (js "undefined")
                   None (fullName resolvedValueType)) false).
      * apply wp_ret. apply wp_ret.
        match goal with
        | Hx : lands ?m ?tx |- wp _ ?tx _ _ => apply (Hrest _ tx m Hx); lia
        end.
      * match goal with
        | Hx : lands ?m ?tx |- wp _ ?tx _ _ =>
            apply (Hscalar tx m Hx); lia
        end.
    + apply wp_throw. intros _.
      match goal with
      | Hx : lands ?m ?tx |- wp _ ?tx _ _ =>
          apply (Hscalar tx m Hx); lia
      end.
Qed.

Lemma wp_parseLines_loop fuel : forall ty message t n,
  lands n t -> (2 * n + 1 < fuel)%nat ->
  wp (Src.parseLines_loop options lookupType create Number_toString fuel ty message)
    t (fun _ t' => atEnd t' = true) (fun _ => True).
Proof.
  induction fuel as [| fuel IH]; intros ty message t n H Hfuel; [lia |].
  cbn [Src.parseLines_loop]. wp_step. wp_step. cbv beta.
  destruct (str_eqb (token t) []) eqn:Hend; [apply wp_ret; exact Hend |].
  wp_use (proj1 (descends_all fuel) ty message); [| exact I].
  wp_use (IH ty a); auto.
Qed.

Lemma weight_split_lines text : forall line,
  weight (split_lines text line) = S (List.length text + List.length line).
Proof.
  induction text as [| c text IH]; intros line; cbn [split_lines].
  - simpl. lia.
  - destruct (c =? 10).
    + cbn [weight fold_right]. fold (weight (split_lines text [])).
      rewrite IH. simpl. lia.
    + rewrite IH, length_app. simpl. lia.
Qed.


End WpSrc.

(** ** The further properties on texts of [test.TestMessage] *)

Section FurtherEvaluations.
Import Fixture Position.

(** After the token [a] of the line [a  # c], [_skipWhitespace] goes over
    the blanks and the comment to the [b] of the next line. *)
Lemma skipWhitespace_settles_witness :
  token (_skipWhitespace (mkTokenizer [js "  b"] 0 1 (js "a") (js "a  # c") true 0 0))
  = token (mkTokenizer [js "  b"] 0 1 (js "a") (js "a  # c") true 0 0)
  /\ _skipWhitespace_loop 9 (mkTokenizer [js "  b"] 0 1 (js "a") (js "a  # c") true 0 0)
     = _skipWhitespace (mkTokenizer [js "  b"] 0 1 (js "a") (js "a  # c") true 0 0).
Proof.
  destruct (skipWhitespace_settles
              (mkTokenizer [js "  b"] 0 1 (js "a") (js "a  # c") true 0 0))
    as (Htok & _ & _ & Hfuel).
  - vm_compute. discriminate.
  - discriminate.
  - split; [exact Htok |]. apply Hfuel. vm_compute. lia.
Defined.

Lemma blank_text_leaves_the_message_witness :
  Src.parse (options false) lookupType create Number_toString
    (js "  # nothing here") TestMessage ∅
  = Ok ∅ (new_Tokenizer (split_lines (js "  # nothing here") []))
  /\ Dist.parse (options false) lookupType create Number_toString
       (js "  # nothing here") TestMessage ∅
     = Ok ∅ (new_Tokenizer (split_lines (js "  # nothing here") [])).
Proof.
  apply (blank_text_leaves_the_message (options false) lookupType create
           Number_toString (js "  # nothing here") TestMessage ∅).
  vm_compute. reflexivity.
Defined.

Lemma literal_round_trip_witness :
  token (new_Tokenizer [literal 34 (js "Hello, 'world'")])
  = literal 34 (js "Hello, 'world'")
  /\ Src.consumeString 1 (new_Tokenizer [literal 34 (js "Hello, 'world'")])
     = Ok (js "Hello, 'world'")
         (nextToken (new_Tokenizer [literal 34 (js "Hello, 'world'")])).
Proof.
  pose proof (literal_round_trip 34 (js "Hello, 'world'") 0 eq_refl eq_refl) as H.
  cbv zeta in H. destruct H as (Htok & _ & Hstring & _).
  split; [exact Htok | exact Hstring].
Defined.

Lemma cUnescape_plain_text_witness :
  Src.cUnescape (js "plain text") = inl (js "plain text")
  /\ Dist.cUnescape (js "plain text") = inl (js "plain text").
Proof.
  apply (cUnescape_plain_text (js "plain text")). vm_compute. reflexivity.
Defined.

Lemma cUnescape_fails_only_on_U_witness :
  has_U_escape (js "\UFFFFFFFF").
Proof.
  apply (cUnescape_fails_only_on_U (js "\UFFFFFFFF") Src.invalid_code_point).
  right. vm_compute. reflexivity.
Defined.

Lemma decimal_round_trip_witness :
  Src.consumeInt64 (cursor 2 [txt "int64_field: -42"])
  = Ok (-42)%Z (nextToken (cursor 2 [txt "int64_field: -42"]))
  /\ Src.consumeInt32 (cursor 2 [txt "int64_field: -42"])
     = Ok (of_Z (-42)) (nextToken (cursor 2 [txt "int64_field: -42"])).
Proof.
  destruct (decimal_round_trip (-42) (cursor 2 [txt "int64_field: -42"]))
    as (H64 & _ & H32).
  - vm_compute. reflexivity.
  - split; [exact H64 |].
    destruct H32 as [H32 _]; [vm_compute; reflexivity | exact H32].
Defined.

Lemma dist_decimal_round_trip_witness :
  Dist.consumeUint64 (cursor 2 [txt "uint64_field: 18446744073709551615"])
  = Ok 18446744073709551615%Z
      (nextToken (cursor 2 [txt "uint64_field: 18446744073709551615"])).
Proof.
  destruct (dist_decimal_round_trip 18446744073709551615
              (cursor 2 [txt "uint64_field: 18446744073709551615"]))
    as (_ & H64 & _).
  - vm_compute. reflexivity.
  - exact H64.
Defined.

Lemma dist_integer_bases_witness :
  Dist.parseInteger (js "0x2A") Dist.Number = Some (of_Z 42)
  /\ Dist.parseInteger (js "-052") Dist.BigInt = Some (-42)%Z.
Proof.
  pose proof (dist_integer_bases 120 (js "2A") (js "52")) as H.
  cbv zeta in H.
  destruct H as (Hhex & _ & _ & _ & _ & _ & Hoctal & _).
  - left. reflexivity.
  - discriminate.
  - reflexivity.
  - discriminate.
  - reflexivity.
  - split; [exact Hhex |].
    destruct Hoctal as [_ Hneg]; [vm_compute; reflexivity | exact Hneg].
Defined.

Lemma scalar_error_points_at_the_token_witness :
  (exists message,
     ParseError (js "Couldn't parse integer: abc") (Some 1%Z) (Some 14%Z)
     = ParseError message
         (Some (_line (cursor 2 [txt "int32_field: abc"]) + 1)%Z)
         (Some (_column (cursor 2 [txt "int32_field: abc"]) + 1)%Z))
  /\ (nextToken (cursor 2 [txt "int32_field: abc"])
      = cursor 2 [txt "int32_field: abc"]
      \/ nextToken (cursor 2 [txt "int32_field: abc"])
         = nextToken (cursor 2 [txt "int32_field: abc"])).
Proof.
  apply (scalar_error_points_at_the_token 1 (js "int32")
           (cursor 2 [txt "int32_field: abc"])
           (ParseError (js "Couldn't parse integer: abc") (Some 1%Z) (Some 14%Z))
           (nextToken (cursor 2 [txt "int32_field: abc"]))).
  - discriminate.
  - vm_compute. reflexivity.
Defined.

Lemma snake_and_camel_name_one_field_witness :
  Src.resolve_field (options false) 1 TestMessage
    (cursor 0 [txt "string_field: `a`"])
  = Ok (Some (scalar_field "stringField" 1 "string" false),
        token (cursor 0 [txt "string_field: `a`"]))
      (nextToken (cursor 0 [txt "string_field: `a`"]))
  /\ Src.resolve_field (options false) 1 TestMessage
       (cursor 0 [txt "stringField: `a`"])
     = Ok (Some (scalar_field "stringField" 1 "string" false),
           token (cursor 0 [txt "stringField: `a`"]))
         (nextToken (cursor 0 [txt "stringField: `a`"])).
Proof.
  apply (snake_and_camel_name_one_field (options false) 1 TestMessage
           (cursor 0 [txt "string_field: `a`"])
           (cursor 0 [txt "stringField: `a`"])
           (scalar_field "stringField" 1 "string" false));
    vm_compute; reflexivity.
Defined.

Lemma enum_field_values_witness :
  Src.mergeScalarField 1 ∅
    (mkField (js "enumField") 16 (js "TestEnum") false false (js "undefined")
       (Some (ResolvedEnum TestEnum)) (js "test.TestMessage"))
    (cursor 2 [txt "enum_field: 7"])
  = Ok (<[js "enumField" := VScalar (SNumber (of_Z 7))]> ∅)
      (nextToken (cursor 2 [txt "enum_field: 7"])).
Proof.
  apply (proj1 (enum_field_values 1 ∅
                  (mkField (js "enumField") 16 (js "TestEnum") false false
                     (js "undefined") (Some (ResolvedEnum TestEnum))
                     (js "test.TestMessage"))
                  TestEnum (cursor 2 [txt "enum_field: 7"]) eq_refl eq_refl) 7%Z).
  - lia.
  - vm_compute. reflexivity.
Defined.

Lemma short_list_appends_witness :
  exists message' : properties,
    Src.mergeField (options false) lookupType create Number_toString 5
      TestMessage (create TestMessage) (cursor 0 [txt "repeated_int32: [1, 2, 3]"])
    = Ok message' (cursor 9 [txt "repeated_int32: [1, 2, 3]"])
    /\ get message' (js "repeatedInt32") = VArray [number 1; number 2; number 3].
Proof.
  destruct (short_list_appends (options false) lookupType create Number_toString
              4 1 TestMessage (create TestMessage)
              (scalar_field "repeatedInt32" 18 "int32" true)
              (cursor 0 [txt "repeated_int32: [1, 2, 3]"])
              (cursor 9 [txt "repeated_int32: [1, 2, 3]"])
              [SNumber (of_Z 1); SNumber (of_Z 2); SNumber (of_Z 3)])
    as (message' & Hrun & Hget & _).
  - vm_compute. reflexivity.
  - reflexivity.
  - vm_compute. reflexivity.
  - reflexivity.
  - reflexivity.
  - reflexivity.
  - vm_compute. reflexivity.
  - vm_compute. reflexivity.
  - vm_compute. discriminate.
  - exists (cursor 4 [txt "repeated_int32: [1, 2, 3]"]).
    split; [vm_compute; reflexivity |]. split; [vm_compute; reflexivity |].
    exists (cursor 6 [txt "repeated_int32: [1, 2, 3]"]).
    split; [vm_compute; reflexivity |]. split; [vm_compute; reflexivity |].
    exists (cursor 8 [txt "repeated_int32: [1, 2, 3]"]).
    split; [vm_compute; reflexivity |]. split; vm_compute; reflexivity.
  - simpl. lia.
  - exists message'. split.
    + etransitivity; [exact Hrun |]. vm_compute. reflexivity.
    + etransitivity; [exact Hget |]. vm_compute. reflexivity.
Defined.

Lemma unknown_field_witness :
  Src.mergeField (options false) lookupType create Number_toString 1
    TestMessage ∅ (cursor 0 [txt "nope: 1"])
  = Throw (ParseError
             (js "Message type " ++ quoted (fullName TestMessage)
              ++ js " has no field named "
              ++ quoted (token (cursor 0 [txt "nope: 1"])) ++ js ".")
             (Some (_line (cursor 0 [txt "nope: 1"]) + 1)%Z)
             (Some (_column (cursor 0 [txt "nope: 1"]) + 1)%Z))
      (nextToken (cursor 0 [txt "nope: 1"])).
Proof.
  apply (proj1 (unknown_field (options false) lookupType create Number_toString
                  0 TestMessage ∅ (cursor 0 [txt "nope: 1"])
                  eq_refl eq_refl eq_refl eq_refl eq_refl)).
  reflexivity.
Defined.

Lemma map_entry_lacking_a_part_witness :
  Src.mergeMapField (options false) lookupType create Number_toString 3
    two_entries stringIntMap (cursor 1 [txt "string_int_map { value: 5 }"])
  = Ok (<[name stringIntMap :=
            VObject (<[js "undefined" := VScalar (SNumber (of_Z 5))]>
                       (<[js "k1" := number 1]> (<[js "k2" := number 2]> ∅)))]>
          two_entries)
      (nextToken (cursor 5 [txt "string_int_map { value: 5 }"])).
Proof.
  apply (proj1 (proj2 (map_entry_lacking_a_part (options false) lookupType create
                         Number_toString 1 two_entries stringIntMap
                         (cursor 1 [txt "string_int_map { value: 5 }"])
                         ltac:(vm_compute; reflexivity))));
    vm_compute; reflexivity.
Defined.

Lemma mergeField_changes_one_property_witness :
  exists key, only_at key ∅ (<[js "int32Field" := number 5]> ∅).
Proof.
  apply (mergeField_changes_one_property (options false) lookupType create
           Number_toString 5 TestMessage ∅ (cursor 0 [txt "int32_field: 5"])
           (<[js "int32Field" := number 5]> ∅)
           (cursor 3 [txt "int32_field: 5"])).
  vm_compute. reflexivity.
Defined.


End FurtherEvaluations.
